(** * MailSuite backend: the email sync engine

    A shallow embedding of the worker under [services/email-worker]:
    the classifier, the thread builder, the bounce detector, the IMAP
    client and the enhanced processor, together with the properties
    the specification states about them.

    JavaScript strings are modelled as [string], a sequence of code
    units below 256 (the Latin-1 range): every literal and every
    character class of the sources lives in that range except the two
    dashes of one class in [cleanDiagnostic], which can then never
    occur in a subject or body. *)

From Stdlib Require Import String Ascii List ZArith Lia Bool Arith DecimalString.
Import ListNotations.
Local Open Scope string_scope.
Local Open Scope list_scope.
Local Open Scope nat_scope.

(* ================================================================== *)
(** * Part I. Definitions                                              *)
(* ================================================================== *)

(** ** Characters *)

Definition code (c : ascii) : nat := nat_of_ascii c.

Definition in_range (lo hi : nat) (c : ascii) : bool :=
  (lo <=? code c) && (code c <=? hi).

Definition is_digit (c : ascii) : bool := in_range 48 57 c.
Definition is_upper (c : ascii) : bool := in_range 65 90 c.
Definition is_lower (c : ascii) : bool := in_range 97 122 c.
Definition is_alpha (c : ascii) : bool := is_upper c || is_lower c.

(** [\w] of a regular expression without the [u] flag. *)
Definition is_word (c : ascii) : bool :=
  is_alpha c || is_digit c || (code c =? 95).

(** [\s], also what [trim] strips: TAB, LF, VT, FF, CR, space and the
    no-break space. *)
Definition is_space (c : ascii) : bool :=
  in_range 9 13 c || (code c =? 32) || (code c =? 160).

(** The line terminators, which [.] does not match without the [s]
    flag. *)
Definition is_newline (c : ascii) : bool :=
  (code c =? 10) || (code c =? 13).

(** One code unit of [String.prototype.toLowerCase]: the ASCII capitals
    and the Latin-1 capitals (all of C0..DE but the multiplication
    sign D7) move down by 32. *)
Definition lower_char (c : ascii) : ascii :=
  if is_upper c || (in_range 192 222 c && negb (code c =? 215))
  then ascii_of_nat (code c + 32) else c.

(** One code unit under the [i] flag: without the [u] flag a pattern
    letter matches exactly its two ASCII cases. *)
Definition upper_ascii (c : ascii) : ascii :=
  if is_lower c then ascii_of_nat (code c - 32) else c.

Definition eqb_ci (a c : ascii) : bool :=
  Ascii.eqb (upper_ascii a) (upper_ascii c).

(** ** Strings *)

Fixpoint toLowerCase (s : string) : string :=
  match s with
  | EmptyString => EmptyString
  | String c r => String (lower_char c) (toLowerCase r)
  end.

Fixpoint trimStart (s : string) : string :=
  match s with
  | String c r => if is_space c then trimStart r else s
  | EmptyString => EmptyString
  end.

(** [trimEnd]: a character is kept when it is not white space or when
    something is kept after it. *)
Fixpoint trimEnd (s : string) : string :=
  match s with
  | EmptyString => EmptyString
  | String c r =>
      match trimEnd r with
      | EmptyString => if is_space c then EmptyString else String c EmptyString
      | r' => String c r'
      end
  end.

Definition trim (s : string) : string := trimEnd (trimStart s).

Fixpoint startsWith (s p : string) : bool :=
  match p, s with
  | EmptyString, _ => true
  | String a p', String c s' => Ascii.eqb a c && startsWith s' p'
  | String _ _, EmptyString => false
  end.

Fixpoint includes (s p : string) : bool :=
  startsWith s p ||
  match s with
  | EmptyString => false
  | String _ r => includes r p
  end.

(** [s.substring(0, n)] and [s.slice(0, n)] for [n >= 0]. *)
Definition take (n : nat) (s : string) : string := substring 0 n s.

Fixpoint drop (n : nat) (s : string) : string :=
  match n, s with
  | O, _ => s
  | S n', String _ r => drop n' r
  | S _, EmptyString => EmptyString
  end.

(** A string is falsy exactly when it is empty. *)
Definition truthy (s : string) : bool :=
  match s with EmptyString => false | _ => true end.

(** [a || b] on strings. *)
Definition or_else (a b : string) : string := if truthy a then a else b.

(** ** Regular expressions

    The fragment of ECMAScript regular expressions the worker uses,
    with the backtracking semantics of the language: alternatives are
    tried left to right, a greedy quantifier tries one more iteration
    before it tries the continuation, a lazy one the other way round,
    and an iteration that consumes nothing is rejected. *)

Inductive regex : Type :=
| RChar (p : ascii -> bool)
| REmpty
| RSeq (a b : regex)
| RAlt (a b : regex)
| RStar (greedy : bool) (a : regex)
| RGroup (n : nat) (a : regex)
| RBol
| REol
| RWordB.

(** A position of the matcher: the character before it (for [^] and
    [\b]), the input left, and the groups captured so far. *)
Record mstate : Type := MState {
  m_prev : option ascii;
  m_rest : string;
  m_caps : list (nat * string)
}.

Definition word_before (st : mstate) : bool :=
  match m_prev st with Some c => is_word c | None => false end.

Definition word_after (st : mstate) : bool :=
  match m_rest st with String c _ => is_word c | EmptyString => false end.

Definition consumed (from to : mstate) : nat :=
  String.length (m_rest from) - String.length (m_rest to).

Definition first_some {A} (a b : option A) : option A :=
  match a with Some x => Some x | None => b end.

(** The iterations of a quantifier [a*] or [a*?]: [step] matches [a]
    once. The fuel is the length of the input left, which bounds the
    number of iterations since each consumes at least one character. *)
Fixpoint star_loop {A : Type}
    (step : mstate -> (mstate -> option A) -> option A) (greedy : bool)
    (k : mstate -> option A) (fuel : nat) (st : mstate) {struct fuel} : option A :=
  match fuel with
  | O => k st
  | S fuel' =>
      let again :=
        step st (fun st' =>
          if String.length (m_rest st') <? String.length (m_rest st)
          then star_loop step greedy k fuel' st' else None) in
      if greedy then first_some again (k st)
      else first_some (k st) again
  end.

Fixpoint rmatch {A : Type} (r : regex) (st : mstate)
    (k : mstate -> option A) {struct r} : option A :=
  match r with
  | RChar p =>
      match m_rest st with
      | String c s' => if p c then k (MState (Some c) s' (m_caps st)) else None
      | EmptyString => None
      end
  | REmpty => k st
  | RSeq a b => rmatch a st (fun st' => rmatch b st' k)
  | RAlt a b => first_some (rmatch a st k) (rmatch b st k)
  | RStar greedy a =>
      star_loop (fun st' k' => rmatch a st' k') greedy k
                (String.length (m_rest st)) st
  | RGroup n a =>
      rmatch a st (fun st' =>
        k (MState (m_prev st') (m_rest st')
             ((n, take (consumed st st') (m_rest st)) :: m_caps st')))
  | RBol => match m_prev st with None => k st | Some _ => None end
  | REol => match m_rest st with EmptyString => k st | String _ _ => None end
  | RWordB => if xorb (word_before st) (word_after st) then k st else None
  end.

(** Derived forms. *)
Definition RPlus (greedy : bool) (a : regex) : regex := RSeq a (RStar greedy a).
Definition ROpt (a : regex) : regex := RAlt a REmpty.
Definition RAny : regex := RChar (fun c => negb (is_newline c)).
Definition RDotAll : regex := RChar (fun _ => true).
Definition RDigit : regex := RChar is_digit.
Definition RSpace : regex := RChar is_space.

Fixpoint RSeqs (rs : list regex) : regex :=
  match rs with
  | [] => REmpty
  | [r] => r
  | r :: rs' => RSeq r (RSeqs rs')
  end.

Fixpoint RAlts (rs : list regex) : regex :=
  match rs with
  | [] => RChar (fun _ => false)
  | [r] => r
  | r :: rs' => RAlt r (RAlts rs')
  end.

(** A literal, case-sensitive or under the [i] flag. *)
Fixpoint RLit (s : string) : regex :=
  match s with
  | EmptyString => REmpty
  | String c EmptyString => RChar (Ascii.eqb c)
  | String c r => RSeq (RChar (Ascii.eqb c)) (RLit r)
  end.

Fixpoint RLitI (s : string) : regex :=
  match s with
  | EmptyString => REmpty
  | String c EmptyString => RChar (eqb_ci c)
  | String c r => RSeq (RChar (eqb_ci c)) (RLitI r)
  end.

(** A successful match: the text before it, the matched text, the
    captures, and the state after it. *)
Record rresult : Type := RResult {
  r_before : string;
  r_text : string;
  r_caps : list (nat * string);
  r_after : mstate
}.

Fixpoint capture (n : nat) (caps : list (nat * string)) : option string :=
  match caps with
  | [] => None
  | (m, s) :: rest => if n =? m then Some s else capture n rest
  end.

Definition group (n : nat) (res : rresult) : option string :=
  capture n (r_caps res).

(** The leftmost match at or after a position ([RegExp.prototype.exec]
    without the sticky flag). [acc] is the text skipped so far. *)
Fixpoint search_from (r : regex) (prev : option ascii) (s : string)
    (acc : string) : option rresult :=
  let here :=
    rmatch r (MState prev s [])
      (fun st' => Some (RResult acc
                          (take (String.length s - String.length (m_rest st')) s)
                          (m_caps st') st')) in
  match here with
  | Some res => Some res
  | None =>
      match s with
      | EmptyString => None
      | String c s' => search_from r (Some c) s' (acc ++ String c EmptyString)%string
      end
  end.

Definition exec (r : regex) (s : string) : option rresult :=
  search_from r None s EmptyString.

Definition test (r : regex) (s : string) : bool :=
  match exec r s with Some _ => true | None => false end.

(** [s.replace(r, f)] for a regular expression without the [g] flag. *)
Definition replace_first (r : regex) (f : rresult -> string) (s : string) : string :=
  match exec r s with
  | Some res => (r_before res ++ f res ++ m_rest (r_after res))%string
  | None => s
  end.

(** [s.matchAll(r)] and [s.replace(r, f)] with the [g] flag: matches
    are looked for from left to right, each from where the last one
    ended, one character further after an empty match. The fuel is
    the number of matches there can be at most. *)
Fixpoint matches_from (fuel : nat) (r : regex) (prev : option ascii)
    (s : string) : list rresult :=
  match fuel with
  | O => []
  | S fuel' =>
      match search_from r prev s EmptyString with
      | None => []
      | Some res =>
          let st := r_after res in
          res ::
          match r_text res, m_rest st with
          | EmptyString, EmptyString => []
          | EmptyString, String c s' => matches_from fuel' r (Some c) s'
          | _, _ => matches_from fuel' r (m_prev st) (m_rest st)
          end
      end
  end.

Definition matchAll (r : regex) (s : string) : list rresult :=
  matches_from (S (String.length s)) r None s.

Fixpoint replace_from (fuel : nat) (r : regex) (f : rresult -> string)
    (prev : option ascii) (s : string) : string :=
  match fuel with
  | O => s
  | S fuel' =>
      match search_from r prev s EmptyString with
      | None => s
      | Some res =>
          let st := r_after res in
          (r_before res ++ f res ++
           match r_text res, m_rest st with
           | EmptyString, EmptyString => EmptyString
           | EmptyString, String c s' =>
               String c (replace_from fuel' r f (Some c) s')
           | _, _ => replace_from fuel' r f (m_prev st) (m_rest st)
           end)%string
      end
  end.

Definition replace_all (r : regex) (f : rresult -> string) (s : string) : string :=
  replace_from (S (String.length s)) r f None s.

(** ** Messages

    The worker passes untyped objects along. A field that the code
    reads only through [x || d] or a truth test is a [string], empty
    when it is absent. *)

(** An address field ([to], [cc], [bcc], [references]): the IMAP
    layer gives a string, other producers an array or nothing. *)
Inductive field : Type :=
| FUndefined
| FString (s : string)
| FArray (l : list string).

(** The [headers] of a message: mailparser gives a [Map]; the
    classifier is written for a plain object. *)
Inductive Headers : Type :=
| HAbsent
| HMap (entries : list (string * string))
| HObject (entries : list (string * string)).

Fixpoint assoc (k : string) (l : list (string * string)) : option string :=
  match l with
  | [] => None
  | (k', v) :: r => if String.eqb k k' then Some v else assoc k r
  end.

(** [headers[k]], read for its truth value and as a string: the empty
    string stands for [undefined]. A [Map] has no such own property. *)
Definition prop (h : Headers) (k : string) : string :=
  match h with
  | HObject l => match assoc k l with Some v => v | None => EmptyString end
  | HMap _ | HAbsent => EmptyString
  end.

Record Message : Type := mkMessage {
  uid : Z;
  messageId : string;
  subject : string;
  from : string;
  to : field;
  cc : field;
  bcc : field;
  references : field;
  inReplyTo : string;
  body : string;
  headers : Headers;
  receivedDate : option Z;
  receivedAt : option Z;
  sentAt : option Z;
  attachments : nat;
  size : Z
}.

(** ** classifier.js *)

Inductive Category : Type :=
| BOUNCE | TRANSACTIONAL | NOTIFICATION | NEWSLETTER | MARKETING | HUMAN | UNKNOWN.

(** The confidence is kept in hundredths: [80] is the literal [0.8]. *)
Record Classification : Type := mkClassification {
  category : Category;
  confidence : nat
}.

(** [x?] after a literal, as in [/notifications?@/i]. *)
Definition opt_s (stem : string) (rest : string) : regex :=
  RSeqs [RLitI stem; ROpt (RLitI "s"); RLitI rest].

Definition digits : regex := RPlus true RDigit.

Definition transactionalPatterns_from : list regex :=
  [ RLitI "noreply@";
    RLitI "no-reply@";
    opt_s "notification" "@";
    RLitI "notify@";
    RLitI "support@";
    RLitI "security@";
    RLitI "billing@";
    opt_s "invoice" "@";
    opt_s "receipt" "@";
    opt_s "order" "@";
    opt_s "account" "@";
    RLitI "team@" ].

Definition transactionalPatterns_subject : list regex :=
  [ RLitI "password reset";
    RLitI "reset your password";
    RLitI "verify your email";
    RLitI "confirm your email";
    RLitI "email verification";
    RLitI "order confirmation";
    RSeq (RLitI "order #") digits;
    RLitI "receipt";
    RLitI "invoice";
    RLitI "payment received";
    RLitI "subscription";
    RLitI "welcome to";
    RLitI "account created";
    RLitI "security alert";
    RLitI "suspicious activity" ].

Definition notificationPatterns_from : list regex :=
  [ opt_s "notification" "@";
    opt_s "alert" "@";
    opt_s "update" "@";
    RLitI "activity@";
    RLitI "digest@" ].

Definition notificationPatterns_subject : list regex :=
  [ RLitI "activity on";
    RSeqs [RLitI "you have "; RAlt digits (RLitI "a"); RLitI " new"];
    RSeq (RLitI "new ")
         (RAlts [RLitI "comment"; RLitI "reply"; RLitI "message"; RLitI "mention"]);
    RLitI "reminder:";
    RLitI "upcoming";
    RSeqs [RAlts [RLitI "daily"; RLitI "weekly"; RLitI "monthly"]; RLitI " ";
           RAlts [RLitI "summary"; RLitI "digest"; RLitI "report"]];
    RSeqs [RLitI "someone"; RStar true RAny;
           RAlts [RLitI "liked"; RLitI "commented"; RLitI "shared"]];
    RSeq digits (RLitI " new notification") ].

Definition marketingPatterns_subject : list regex :=
  [ RLitI "sale";
    RSeq digits (RLitI "% off");
    RLitI "discount";
    RLitI "limited time";
    RLitI "exclusive offer";
    RLitI "deal of the day";
    RLitI "free shipping";
    RLitI "buy now";
    RLitI "shop now";
    RLitI "don't miss";
    RLitI "last chance";
    RLitI "special offer";
    RLitI "promotion" ].

Definition newsletterPatterns_subject : list regex :=
  [ RLitI "newsletter";
    RLitI "weekly roundup";
    RLitI "this week in";
    RSeqs [RLitI "edition "; ROpt (RLit "#"); digits];
    RSeq (RLitI "volume ") digits ].

(** [patterns.some((pattern) => pattern.test(s))] *)
Definition some_test (patterns : list regex) (s : string) : bool :=
  existsb (fun pattern => test pattern s) patterns.

Definition isBounce (email : Message) : bool :=
  let from := toLowerCase (from email) in
  let subject := toLowerCase (subject email) in
  existsb (fun indicator => indicator)
    [ includes from "mailer-daemon";
      includes from "postmaster";
      includes from "mail-daemon";
      includes subject "undelivered";
      includes subject "failure notice";
      includes subject "returned mail";
      includes subject "delivery status notification";
      includes subject "mail delivery failed";
      includes subject "undeliverable";
      includes subject "bounce";
      includes subject "permanent error";
      includes subject "delivery failure" ].

Definition hasListUnsubscribe (h : Headers) : bool :=
  truthy (or_else (prop h "list-unsubscribe") (prop h "List-Unsubscribe")).

Definition hasListPost (h : Headers) : bool :=
  truthy (or_else (prop h "list-post") (prop h "List-Post")).

Definition isTransactional (email : Message) : bool :=
  let from := toLowerCase (from email) in
  let subject := toLowerCase (subject email) in
  let fromMatch := some_test transactionalPatterns_from from in
  let subjectMatch := some_test transactionalPatterns_subject subject in
  (fromMatch || subjectMatch) && negb (hasListUnsubscribe (headers email)).

Definition isNotification (email : Message) : bool :=
  let from := toLowerCase (from email) in
  let subject := toLowerCase (subject email) in
  let fromMatch := some_test notificationPatterns_from from in
  let subjectMatch := some_test notificationPatterns_subject subject in
  fromMatch || subjectMatch.

Definition isMarketing (email : Message) : bool :=
  let subject := toLowerCase (subject email) in
  let body := toLowerCase (body email) in
  let linkCount :=
    List.length (matchAll (RSeqs [RLit "http"; ROpt (RLit "s"); RLit "://"]) body) in
  let hasManyLinks := 5 <? linkCount in
  let subjectMatch := some_test marketingPatterns_subject subject in
  hasListUnsubscribe (headers email) || (subjectMatch && hasManyLinks).

Definition isNewsletter (email : Message) : bool :=
  let subject := toLowerCase (subject email) in
  let subjectMatch := some_test newsletterPatterns_subject subject in
  (hasListUnsubscribe (headers email) && hasListPost (headers email))
  || subjectMatch.

Definition automatedSenders : list string :=
  [ "noreply"; "no-reply"; "notifications"; "alert"; "updates";
    "newsletter"; "marketing"; "info"; "support" ].

(** [Array.isArray(v) ? v : v ? [v] : []], which is also
    [normalizeEmailArray] of the processor. *)
Definition normalizeEmailArray (value : field) : list string :=
  match value with
  | FUndefined => []
  | FArray l => l
  | FString s => if truthy s then [s] else []
  end.

Definition isHuman (email : Message) : bool :=
  let from := toLowerCase (from email) in
  let to := map toLowerCase (normalizeEmailArray (to email)) in
  let h := headers email in
  let isAutomated := existsb (fun sender => includes from sender) automatedSenders in
  let replyTo := or_else (prop h "reply-to") (prop h "Reply-To") in
  let hasPersonalReplyTo :=
    truthy replyTo
    && negb (existsb (fun sender => includes replyTo sender) automatedSenders) in
  let isSingleRecipient := List.length to =? 1 in
  let hasListHeaders :=
    truthy (or_else (or_else (or_else (prop h "list-unsubscribe")
                                      (prop h "List-Unsubscribe"))
                             (prop h "list-id"))
                    (prop h "List-Id")) in
  negb isAutomated && (hasPersonalReplyTo || isSingleRecipient)
  && negb hasListHeaders.

Definition classify (email : Message) : Classification :=
  if isBounce email then mkClassification BOUNCE 100
  else if isTransactional email then mkClassification TRANSACTIONAL 90
  else if isNotification email then mkClassification NOTIFICATION 85
  else if isNewsletter email then mkClassification NEWSLETTER 75
  else if isMarketing email then mkClassification MARKETING 80
  else if isHuman email then mkClassification HUMAN 70
  else mkClassification UNKNOWN 0.

(** ** thread-builder.js: the pure part *)

(** [s] begins with the literal [p] in any letter case, as a literal
    matches under the [i] flag. *)
Fixpoint starts_ci (s p : string) {struct p} : bool :=
  match p, s with
  | EmptyString, _ => true
  | String a p', String c s' => eqb_ci a c && starts_ci s' p'
  | String _ _, EmptyString => false
  end.

(** [/^(re|fwd|fw):\s*/gi] *)
Definition reply_prefix_re : regex :=
  RSeqs [RBol; RGroup 1 (RAlts [RLitI "re"; RLitI "fwd"; RLitI "fw"]); RLit ":";
         RStar true RSpace].

Definition normalizeSubject (subject : string) : string :=
  if negb (truthy subject) then EmptyString
  else toLowerCase (trim
         (replace_all (RPlus true RSpace) (fun _ => " ")
            (replace_all (RLitI "[external]") (fun _ => EmptyString)
               (replace_all reply_prefix_re (fun _ => EmptyString) subject)))).

(** [.replace(/^(re|fwd|fw):\s*/gi, "")]: the pattern is anchored at
    the start of the input (there is no [m] flag), so there is one
    match at most, whatever the [g] flag: a prefix and the white space
    after it. *)
Definition strip_reply_prefix (s : string) : string :=
  if starts_ci s "re:" then trimStart (drop 3 s)
  else if starts_ci s "fwd:" then trimStart (drop 4 s)
  else if starts_ci s "fw:" then trimStart (drop 3 s)
  else s.

(** [.replace(/\[external\]/gi, "")]: the occurrences found from left
    to right, each search starting where the last match ended. [skip]
    counts the characters of a match still to be dropped. *)
Fixpoint remove_external_from (skip : nat) (s : string) : string :=
  match s with
  | EmptyString => EmptyString
  | String c r =>
      match skip with
      | S k => remove_external_from k r
      | O => if starts_ci s "[external]" then remove_external_from 9 r
             else String c (remove_external_from 0 r)
      end
  end.

Definition remove_external (s : string) : string := remove_external_from 0 s.

(** [.replace(/\s+/g, " ")]: every maximal run of white space becomes
    one space. [in_run] says that the previous character was white
    space. *)
Fixpoint collapse_from (in_run : bool) (s : string) : string :=
  match s with
  | EmptyString => EmptyString
  | String c r =>
      if is_space c
      then if in_run then collapse_from true r
           else String " " (collapse_from true r)
      else String c (collapse_from false r)
  end.

Definition collapse_spaces (s : string) : string := collapse_from false s.

(** The same function with each replacement written as a string
    function; [normalizeSubject_steps] below proves the two equal. *)
Definition normalize_steps (subject : string) : string :=
  if negb (truthy subject) then EmptyString
  else toLowerCase (trim (collapse_spaces (remove_external (strip_reply_prefix subject)))).

(** [fullAddress.match(/<(.+?)>/)] *)
Definition angle_re : regex :=
  RSeqs [RLit "<"; RGroup 1 (RPlus false RAny); RLit ">"].

Definition or_empty (o : option string) : string :=
  match o with Some s => s | None => EmptyString end.

Definition extractEmailAddress (fullAddress : string) : string :=
  if negb (truthy fullAddress) then EmptyString
  else match exec angle_re fullAddress with
       | Some m => toLowerCase (or_empty (group 1 m))
       | None => toLowerCase (trim fullAddress)
       end.

(** Insertion into a [Set], which keeps the order of first insertion. *)
Definition set_add (x : string) (l : list string) : list string :=
  if existsb (String.eqb x) l then l else l ++ [x].

Definition extractParticipants (from : string) (to cc : field) : list string :=
  let p0 := if truthy from then set_add (extractEmailAddress from) [] else [] in
  let add_all (f : field) (acc : list string) :=
    match f with
    | FArray l => fold_left (fun acc addr => set_add (extractEmailAddress addr) acc) l acc
    | _ => acc
    end in
  filter truthy (add_all cc (add_all to p0)).

(** ** bounce-detector.js *)

Definition LF : ascii := ascii_of_nat 10.
Definition CR : ascii := ascii_of_nat 13.
Definition DQUOTE : ascii := ascii_of_nat 34.
Definition RLF : regex := RChar (Ascii.eqb LF).
Definition RCR : regex := RChar (Ascii.eqb CR).

Definition one_of (cs : string) (c : ascii) : bool :=
  existsb (Ascii.eqb c) (list_ascii_of_string cs).

Definition is_alnum (c : ascii) : bool := is_alpha c || is_digit c.

(** A literal under the [i] flag or without it. *)
Definition lit (ci : bool) (s : string) : regex :=
  if ci then RLitI s else RLit s.

(** [[a-zA-Z0-9._+-]+@[a-zA-Z0-9.-]+\.[a-zA-Z]{2,}] *)
Definition addr_re : regex :=
  RSeqs [RPlus true (RChar (fun c => is_alnum c || one_of "._+-" c));
         RLit "@";
         RPlus true (RChar (fun c => is_alnum c || one_of ".-" c));
         RLit ".";
         RChar is_alpha; RChar is_alpha; RStar true (RChar is_alpha)].

Definition bounce_fromPatterns : list regex :=
  [ RLitI "mailer-daemon@"; RLitI "postmaster@"; RLitI "noreply@";
    RLitI "no-reply@"; RLitI "mail-daemon@"; RLitI "mailerdaemon@" ].

Definition bounce_subjectPatterns : list regex :=
  [ RLitI "undelivered"; RLitI "failure"; RLitI "returned mail";
    RLitI "delivery status notification"; RLitI "mail delivery failed";
    RLitI "undeliverable"; RLitI "not delivered"; RLitI "delivery failure";
    RLitI "bounce"; RLitI "permanent error"; RLitI "temporary failure" ].

Definition hardBounceCodes : list string := ["550"; "551"; "552"; "553"; "554"].
Definition softBounceCodes : list string := ["450"; "451"; "452"; "453"].

(** [isBounceMessage] calls [headers.get], which a [Map] has and a
    plain object has not: on a plain object the call throws a
    [TypeError] ([None]). *)
Definition isBounceMessage (email : Message) : option bool :=
  let from := toLowerCase (from email) in
  let subject := toLowerCase (subject email) in
  let fromMatch := some_test bounce_fromPatterns from in
  let subjectMatch := some_test bounce_subjectPatterns subject in
  match headers email with
  | HObject _ => None
  | h =>
      let contentType :=
        match h with
        | HMap l => or_empty (assoc "content-type" l)
        | _ => EmptyString
        end in
      let isDeliveryStatus :=
        test (RSeqs [RLitI "multipart/report"; RStar true RAny;
                     RLitI "report-type=delivery-status"]) contentType in
      Some (fromMatch || subjectMatch || isDeliveryStatus)
  end.

(** The six patterns of [extractRecipientEmail], each with its own [i]
    flag. In the last two the source writes [\\s] and [\\b] inside a
    regular expression literal: a backslash followed by the letter. *)
Definition recipientPatterns : list (bool * (bool -> regex)) :=
  [ (true, fun ci =>
       RSeqs [RAlt (lit ci "failed") (lit ci "undelivered"); RStar false RAny;
              RAlts [lit ci "to"; lit ci "for"; lit ci "recipient"];
              RPlus true (RChar (fun c => Ascii.eqb c ":" || is_space c));
              ROpt (RLit "<"); RGroup 1 addr_re; ROpt (RLit ">")]);
    (true, fun ci =>
       RSeqs [lit ci "Final-Recipient:"; RStar false RAny; lit ci "rfc822;";
              RStar true RSpace; RGroup 1 addr_re]);
    (true, fun ci =>
       RSeqs [lit ci "Original-Recipient:"; RStar false RAny; RGroup 1 addr_re]);
    (false, fun ci => RSeqs [RLit "<"; RGroup 1 addr_re; RLit ">"]);
    (true, fun ci =>
       RSeqs [RAlts [lit ci "to"; lit ci "for"; lit ci "recipient"; lit ci "user"];
              RLit ":\"; RStar true (lit ci "s"); RGroup 1 addr_re]);
    (false, fun ci =>
       RSeqs [RLit "\"; lit ci "b"; RGroup 1 addr_re; RLit "\"; lit ci "b"]) ].

(** [s.split(sep)] for a one-character separator. *)
Fixpoint split_on (sep : ascii) (s : string) : list string :=
  match s with
  | EmptyString => [EmptyString]
  | String c r =>
      if Ascii.eqb c sep then EmptyString :: split_on sep r
      else match split_on sep r with
           | [] => [String c EmptyString]
           | h :: t => String c h :: t
           end
  end.

Fixpoint join (sep : string) (l : list string) : string :=
  match l with
  | [] => EmptyString
  | [x] => x
  | x :: r => (x ++ sep ++ join sep r)%string
  end.

Definition is_hex_lower (c : ascii) : bool := is_digit c || in_range 97 102 c.
Definition is_hex (c : ascii) : bool := is_hex_lower c || in_range 65 70 c.

Fixpoint RRepeat (n : nat) (r : regex) : regex :=
  match n with
  | O => REmpty
  | S O => r
  | S n' => RSeq r (RRepeat n' r)
  end.

Definition invalidPatterns : list regex :=
  [ RSeqs [RLitI "http"; ROpt (RLitI "s"); RLit "://"];
    RSeqs [RLit "<"; RPlus true (RChar (fun c => negb (Ascii.eqb c ">"))); RLit ">"];
    RSpace;
    RChar (fun c => one_of "'<>" c || Ascii.eqb c DQUOTE);
    RSeqs [RBol; RRepeat 36 (RChar (fun c => is_hex c || Ascii.eqb c "-")); RLit "@"];
    RSeqs [RLit ".";
           RAlts [RLitI "png"; RLitI "jpg"; RLitI "jpeg"; RLitI "gif"; RLitI "svg";
                  RLitI "mp4"; RLitI "pdf"; RLitI "doc"; RLitI "zip"];
           REol];
    RSeqs [RBol; RRepeat 8 (RChar is_hex); RLit "."; RRepeat 8 (RChar is_hex)];
    RSeqs [RLitI "@mx."; RAlts [RLitI "google"; RLitI "yahoo"; RLitI "outlook"];
           RLitI ".com"; REol] ].

Definition nth_string (n : nat) (l : list string) : string := nth n l EmptyString.

Definition isValidEmail (email0 : string) : bool :=
  if negb (truthy email0) then false else
  let email := toLowerCase (trim email0) in
  if (254 <? String.length email) || (String.length email <? 5) then false else
  if negb (test (RSeqs [RBol; addr_re; REol]) email) then false else
  let parts := split_on "@" email in
  let localPart := nth_string 0 parts in
  let domain := nth_string 1 parts in
  if negb (truthy localPart) || (64 <? String.length localPart) then false else
  if test (RSeqs [RBol; RRepeat 8 (RChar is_hex_lower)]) localPart then false else
  if test (RLit "..") email then false else
  if negb (truthy domain) || (String.length domain <? 3)
     || (253 <? String.length domain) then false else
  if some_test invalidPatterns email then false else
  let labels := split_on "." domain in
  let tld := last labels EmptyString in
  if negb (truthy tld) || (String.length tld <? 2)
     || test (RSeqs [RBol; digits; REol]) tld then false else
  let domainWithoutTLD := join "." (removelast labels) in
  if test (RSeqs [RBol; RPlus true (RChar (fun c => is_digit c || Ascii.eqb c "."));
                  REol]) domainWithoutTLD then false else
  true.

Definition systemAddresses : list string :=
  [ "mailer-daemon@"; "postmaster@"; "noreply@"; "no-reply@" ].

(** One candidate of [extractRecipientEmail]: the first group of a
    match, trimmed and lowercased, is added when it is a valid
    address. *)
Definition add_candidate (m : rresult) (potentialEmails : list string) : list string :=
  match group 1 m with
  | Some g =>
      if truthy g then
        let email := toLowerCase (trim g) in
        if isValidEmail email then set_add email potentialEmails
        else potentialEmails
      else potentialEmails
  | None => potentialEmails
  end.

Definition extractRecipientEmail (body subject : string) : option string :=
  let potentialEmails :=
    fold_left
      (fun acc (pattern : bool * (bool -> regex)) =>
         let acc1 := fold_left (fun acc m => add_candidate m acc)
                               (matchAll (snd pattern true) body) acc in
         match exec (snd pattern (fst pattern)) subject with
         | Some subjectMatch => add_candidate subjectMatch acc1
         | None => acc1
         end)
      recipientPatterns [] in
  let validEmails :=
    filter (fun email => negb (existsb (fun sys => startsWith email sys) systemAddresses))
           potentialEmails in
  match validEmails with
  | email :: _ => Some email
  | [] => None
  end.

Definition c245 : regex := RChar (one_of "245").
Definition c45 : regex := RChar (one_of "45").

(** [/\b([245]\d{2})\b/] *)
Definition errorCode_re : regex :=
  RSeqs [RWordB; RGroup 1 (RSeqs [c245; RDigit; RDigit]); RWordB].

Definition extractErrorCode (body : string) : option string :=
  match exec errorCode_re body with
  | Some codeMatch => group 1 codeMatch
  | None => None
  end.

(** The end of a diagnostic: [(?:\n\n|\r\n\r\n|$)]. *)
Definition para_end : regex :=
  RAlts [RSeq RLF RLF; RSeqs [RCR; RLF; RCR; RLF]; REol].

Definition enhanced_status : regex :=
  RSeqs [c45; RLit "."; digits; RLit "."; digits].

Definition not_lf : regex := RChar (fun c => negb (Ascii.eqb c LF)).

Definition diagnosticPatterns : list regex :=
  [ RSeqs [RWordB; c245; RDigit; RDigit; RPlus true RSpace; enhanced_status;
           RPlus true RSpace; RGroup 1 (RPlus false RDotAll); para_end];
    RSeqs [RWordB; c245; RDigit; RDigit; RPlus true RSpace;
           ROpt (RChar (one_of "<#")); enhanced_status; ROpt (RChar (one_of ">#"));
           RPlus true RSpace; RGroup 1 (RPlus false RDotAll); para_end];
    RSeqs [RAlt (RLitI "Diagnostic-Code") (RLitI "diagnostic-code"); RLit ":";
           RStar true RSpace; RAlt (RLitI "smtp") (RLitI "SMTP"); RLit ";";
           RStar true RSpace; RGroup 1 (RPlus false RDotAll); para_end];
    RSeqs [RAlt (RLitI "Status") (RLitI "status"); RLit ":"; RStar true RSpace;
           enhanced_status; RPlus true RSpace; RLit "(";
           RGroup 1 (RPlus false RDotAll); RLit ")"];
    RSeqs [RAlt (RLitI "Remote-MTA") (RLitI "Final-Recipient"); RStar false RDotAll;
           RLF; RStar false RDotAll; RAlt (RLitI "Status") (RLitI "Action");
           RStar false RDotAll; RLF; RStar false RDotAll; RLitI "Diagnostic";
           RStar false RDotAll; RLit ":"; RStar true RSpace;
           RGroup 1 (RPlus false RDotAll); para_end];
    RSeqs [RLitI "Address not found"; RStar false RDotAll;
           RLitI "Your message wasn't delivered to"; RStar false RDotAll;
           RLitI "because"; RStar false RDotAll; RGroup 1 (RPlus false RDotAll);
           RAlt (RLit ".") RLF];
    RGroup 1 (RSeq (RLitI "The email account that you tried to reach does not exist")
                   (RPlus true not_lf));
    RGroup 1 (RSeq (RLitI "The recipient server did not accept our requests")
                   (RPlus true not_lf));
    RSeqs [RAlt (RLitI "Delivery has failed")
                (RLitI "did not reach the following recipient");
           RStar false RDotAll; RLF; RStar true RSpace;
           RGroup 1 (RPlus false RDotAll); para_end];
    RSeqs [RWordB; c245; RDigit; RDigit; RPlus true RSpace;
           RGroup 1 (RPlus false not_lf); RPlus true RSpace;
           RAlt (RSeqs [RPlus true (RChar (fun c => is_alnum c || Ascii.eqb c "-"));
                        RPlus true RSpace; RLit "-"; RPlus true RSpace; RLitI "gsmtp"])
                REol];
    RGroup 1 (RSeqs [RAlts [RLitI "user"; RLitI "mailbox"; RLitI "recipient";
                            RLitI "address"];
                     RPlus true RSpace; RStar false RAny;
                     RAlts [RLitI "unknown"; RLitI "not found"; RLitI "does not exist";
                            RLitI "invalid"; RLitI "disabled"; RLitI "rejected"]]);
    RGroup 1 (RSeqs [RAlt (RLitI "quota") (RLitI "mailbox"); RPlus true RSpace;
                     RStar false RAny;
                     RAlts [RLitI "full"; RLitI "exceeded"; RLitI "over limit"]]) ].

Definition erase (_ : rresult) : string := EmptyString.

(** At least three of a character: [\*{3,}] and the like. *)
Definition three_or_more (c : string) : regex :=
  RSeqs [RLit c; RLit c; RLit c; RStar true (RLit c)].

Definition disclaimerPatterns : list regex :=
  [ RSeqs [RLitI "please notify the sender"; RStar false RAny;
           RAlt (RLitI "immediately") (RLitI "and")];
    RSeqs [RLitI "this "; RAlt (RLitI "message") (RLitI "email"); RLit " ";
           RAlts [RLitI "is"; RLitI "was"; RLitI "contains"]; RStar false RAny;
           RLitI "confidential"];
    RSeqs [RLitI "if you "; RAlt (RLitI "are not") (RLitI "received this");
           RStar false RAny; RAlt (RLitI "intended") (RLitI "error")];
    RSeqs [RLitI "you are receiving this"; RStar false RAny; RLitI "because"];
    RSeqs [RLitI "unsubscribe"; RStar false RAny; RLitI "here"];
    RSeqs [RWordB; RLitI "GDPR compliant"; RWordB];
    RLitI "terms of service";
    RLitI "privacy policy" ].

(** The two dashes of the punctuation classes lie outside the code
    units modelled and are left out of them. *)
Definition cleanDiagnostic (text : string) : string :=
  if negb (truthy text) then EmptyString else
  let cleaned := text in
  let cleaned :=
    replace_all (RSeqs [RLitI "http"; ROpt (RLitI "s"); RLit "://";
                        RPlus true (RChar (fun c => negb (is_space c || Ascii.eqb c ")")))])
                erase cleaned in
  let cleaned :=
    replace_all (RSeqs [RPlus true (RChar (fun c => is_alnum c || one_of ".-" c));
                        RLit "@";
                        RPlus true (RChar (fun c => is_alnum c || one_of ".-" c));
                        RLit "."; RChar is_alpha; RChar is_alpha;
                        RStar true (RChar is_alpha)])
                (fun _ =>
                   if test (RAlts [RLitI "recipient"; RLitI "address"; RLitI "mailbox";
                                   RLitI "user"]) cleaned
                   then "[email]" else EmptyString)
                cleaned in
  let cleaned :=
    replace_all (RSeqs [RLit "<"; RPlus true (RChar (fun c => negb (Ascii.eqb c ">")));
                        RLit ">"]) erase cleaned in
  let cleaned :=
    replace_all (RSeqs [RLit "&"; RPlus true (RChar is_alpha); RLit ";"]) erase cleaned in
  let cleaned := replace_all (three_or_more "*") erase cleaned in
  let cleaned := replace_all (three_or_more "=") erase cleaned in
  let cleaned := replace_all (three_or_more "-") erase cleaned in
  let cleaned :=
    replace_all (RSeqs [RLit "("; RStar true RSpace; RLit ")"]) erase cleaned in
  let cleaned :=
    replace_all (RPlus true (RChar (fun c => Ascii.eqb c CR || Ascii.eqb c LF)))
                (fun _ => " ") cleaned in
  let cleaned := replace_all (RPlus true RSpace) (fun _ => " ") cleaned in
  let cleaned :=
    replace_first (RSeq RBol (RPlus true (RChar (fun c => one_of ":-,;." c || is_space c))))
                  erase cleaned in
  let cleaned :=
    replace_first (RSeq (RPlus true (RChar (fun c => one_of ":-,;" c || is_space c))) REol)
                  erase cleaned in
  let cleaned :=
    fold_left (fun cleaned pattern => replace_first pattern erase cleaned)
              disclaimerPatterns cleaned in
  trim cleaned.

Definition invalidPhrases : list regex :=
  [ RLitI "get ready for";
    RLitI "take a quick look";
    RLitI "you are receiving this";
    RLitI "enable auto";
    RSeqs [RLitI "schedule"; RStar true RAny; RLitI "notetaker"];
    RLitI "capture every conversation";
    RLitI "committed to protecting";
    RLitI "review our terms" ].

Definition meaningfulTerms : list regex :=
  [ RSeqs [RWordB;
           RAlts [RLitI "deliver"; RLitI "bounce"; RLitI "fail"; RLitI "reject";
                  RLitI "error"; RLitI "invalid"; RLitI "exist"; RLitI "quota";
                  RLitI "full"; RLitI "unknown"; RLitI "temporary"; RLitI "permanent"];
           RWordB];
    RSeqs [RWordB;
           RAlts [RLitI "recipient"; RLitI "mailbox"; RLitI "address"; RLitI "account";
                  RLitI "user"; RLitI "server"];
           RWordB];
    RSeqs [RWordB; RDigit; RDigit; RDigit; RWordB] ].

(** [specialCharCount > text.length * 0.4]: the count is an integer
    and the product of an integer below 2^50 with the double nearest
    to 0.4 rounds to the exact two fifths when that is an integer, so
    the test is [2 * length < 5 * count]. *)
Definition isValidDiagnostic (text : string) : bool :=
  if negb (truthy text) || (String.length text <? 10) then false else
  if negb (test (RChar is_alpha) text) then false else
  let specialCharCount :=
    List.length (matchAll (RChar (fun c => negb (is_alnum c || is_space c))) text) in
  if 2 * String.length text <? 5 * specialCharCount then false else
  if some_test invalidPhrases text then false else
  some_test meaningfulTerms text.

Definition extractDiagnostic (body : string) : option string :=
  fold_left
    (fun found pattern =>
       match found with
       | Some d => Some d
       | None =>
           match exec pattern body with
           | Some m =>
               let g := or_empty (group 1 m) in
               if truthy g then
                 let diagnostic := cleanDiagnostic (trim g) in
                 if isValidDiagnostic diagnostic then Some (take 300 diagnostic)
                 else None
               else None
           | None => None
           end
       end)
    diagnosticPatterns None.

Inductive BounceType : Type := HARD | SOFT | UNKNOWN_TYPE.

Definition classifyBounceType (errorCode : option string) (body : string) : BounceType :=
  match errorCode with
  | None =>
      if test (RAlts [RSeqs [RLitI "user"; RStar true RAny; RLitI "not";
                             RStar true RAny; RLitI "found"];
                      RSeqs [RLitI "mailbox"; RStar true RAny; RLitI "not";
                             RStar true RAny; RLitI "found"];
                      RSeqs [RLitI "account"; RStar true RAny; RLitI "disabled"]]) body
      then HARD
      else if test (RAlts [RSeqs [RLitI "mailbox"; RStar true RAny; RLitI "full"];
                           RSeqs [RLitI "quota"; RStar true RAny; RLitI "exceeded"];
                           RLitI "temporarily"]) body
      then SOFT
      else UNKNOWN_TYPE
  | Some errorCode =>
      if existsb (String.eqb errorCode) hardBounceCodes then HARD
      else if existsb (String.eqb errorCode) softBounceCodes then SOFT
      else if startsWith errorCode "5" then HARD
      else if startsWith errorCode "4" then SOFT
      else UNKNOWN_TYPE
  end.

Record BounceData : Type := mkBounceData {
  failedRecipient : option string;
  errorCode : string;
  diagnostic : string;
  bounceType : BounceType
}.

Definition parseBounce (email : Message) : BounceData :=
  let body := body email in
  let subject := subject email in
  let failedRecipient := extractRecipientEmail body subject in
  let errorCode := extractErrorCode body in
  let diagnostic := extractDiagnostic body in
  let bounceType := classifyBounceType errorCode body in
  mkBounceData failedRecipient
    (match errorCode with Some c => c | None => "UNKNOWN" end)
    (match diagnostic with Some d => d | None => "No diagnostic information available" end)
    bounceType.

(** ** imap-client.js *)

(** A calendar date of the local time zone, as [getFullYear],
    [getMonth() + 1] and [getDate] give it. *)
Record Date : Type := mkDate { year : Z; month : Z; day : Z }.

(** Day number of a date and back (the proleptic Gregorian calendar
    of [MakeDay] and [DateFromTime]); day 0 is 1 January 1970. *)
Definition days_from_civil (d : Date) : Z :=
  (let y := if month d <=? 2 then year d - 1 else year d in
   let era := y / 400 in
   let yoe := y - era * 400 in
   let mp := (month d + 9) mod 12 in
   let doy := (153 * mp + 2) / 5 + day d - 1 in
   let doe := yoe * 365 + yoe / 4 - yoe / 100 + doy in
   era * 146097 + doe - 719468)%Z.

Definition civil_from_days (z : Z) : Date :=
  (let z := z + 719468 in
   let era := z / 146097 in
   let doe := z - era * 146097 in
   let yoe := (doe - doe / 1460 + doe / 36524 - doe / 146096) / 365 in
   let doy := doe - (365 * yoe + yoe / 4 - yoe / 100) in
   let mp := (5 * doy + 2) / 153 in
   let m := if mp <? 10 then mp + 3 else mp - 9 in
   mkDate (if m <=? 2 then yoe + era * 400 + 1 else yoe + era * 400)
          m (doy - (153 * mp + 2) / 5 + 1))%Z.

(** [d.setDate(d.getDate() - n)] *)
Definition minus_days (d : Date) (n : Z) : Date :=
  civil_from_days (days_from_civil d - n)%Z.

Definition months : list string :=
  [ "Jan"; "Feb"; "Mar"; "Apr"; "May"; "Jun";
    "Jul"; "Aug"; "Sep"; "Oct"; "Nov"; "Dec" ].

(** A number in a template literal. *)
Definition number_to_string (z : Z) : string :=
  NilZero.string_of_int (Z.to_int z).

Definition formatSinceDate (sinceDate : Date) : string :=
  (number_to_string (day sinceDate) ++ "-"
   ++ nth_string (Z.to_nat (month sinceDate - 1)%Z) months ++ "-"
   ++ number_to_string (year sinceDate))%string.

Definition sinceDateStr (today : Date) (sinceDays : Z) : string :=
  formatSinceDate (minus_days today sinceDays).

(** The search criteria: [{ uid: `${lastUid + 1}:*`, since }] or
    [{ since }]. *)
Record Criteria : Type := mkCriteria {
  uid_from : option Z;
  since : string
}.

Definition searchCriteria (lastUid : Z) (since : string) : Criteria :=
  if (0 <? lastUid)%Z then mkCriteria (Some (lastUid + 1)%Z) since
  else mkCriteria None since.

(** What [simpleParser] makes of a message source. *)
Record ParsedMail : Type := mkParsedMail {
  p_messageId : string;
  p_subject : string;
  p_from_text : string;
  p_to_text : string;
  p_text : string;
  p_html : string;
  p_headers : list (string * string);
  p_date : option Z
}.

(** A message as the server streams it; [sm_parsed] is [None] when
    [simpleParser] throws on its source. *)
Record ServerMessage : Type := mkServerMessage {
  sm_uid : Z;
  sm_envelope_messageId : string;
  sm_parsed : option ParsedMail
}.

(** One step of the asynchronous iterator of [client.fetch]. *)
Inductive ServerEvent : Type :=
| Yield (m : ServerMessage)
| Fail (error : string).

(** The result of a call: a value or a thrown error (its message). *)
Inductive Result (A : Type) : Type :=
| Ok (a : A)
| Throw (error : string).
Arguments Ok {A} a.
Arguments Throw {A} error.

Definition parsedMessage (now : Z) (message : ServerMessage) (parsed : ParsedMail)
  : Message :=
  {| uid := sm_uid message;
     messageId := or_else (p_messageId parsed) (sm_envelope_messageId message);
     subject := p_subject parsed;
     from := p_from_text parsed;
     to := FString (p_to_text parsed);
     cc := FUndefined;
     bcc := FUndefined;
     references := FUndefined;
     inReplyTo := EmptyString;
     body := or_else (p_text parsed) (p_html parsed);
     headers := HMap (p_headers parsed);
     receivedDate := Some (match p_date parsed with Some d => d | None => now end);
     receivedAt := None;
     sentAt := None;
     attachments := 0;
     size := 0%Z |}.

(** The [for await] loop of [fetchNewMessages]. *)
Fixpoint fetchLoop (now : Z) (batchSize : Z) (stream : list ServerEvent)
    (messages : list Message) (fetchCount : Z) : Result (list Message) :=
  match stream with
  | [] => Ok messages
  | Fail error :: _ => Throw error
  | Yield message :: rest =>
      if (batchSize <=? fetchCount)%Z then Ok messages
      else match sm_parsed message with
           | Some parsed =>
               fetchLoop now batchSize rest
                 (messages ++ [parsedMessage now message parsed]) (fetchCount + 1)%Z
           | None => fetchLoop now batchSize rest messages fetchCount
           end
  end.

(** [parseInt(process.env.X) || d]: [None] is [NaN]. *)
Definition env_or (v : option Z) (d : Z) : Z :=
  match v with
  | Some n => if (n =? 0)%Z then d else n
  | None => d
  end.

Record FetchOptions : Type := mkFetchOptions {
  opt_batchSize : option Z;
  opt_sinceDays : option Z
}.

Definition noOptions : FetchOptions := mkFetchOptions None None.

(** The IMAP side of a cycle: whether [connect] and [mailboxOpen]
    fail, and what the server streams for given criteria. *)
Record ImapServer : Type := mkImapServer {
  connect_error : option string;
  open_error : option string;
  inbox : Criteria -> list ServerEvent
}.

Record ProcessEnv : Type := mkProcessEnv {
  EMAIL_BATCH_SIZE : option Z;
  EMAIL_FETCH_DAYS : option Z
}.

(** [const { batchSize = parseInt(process.env.EMAIL_BATCH_SIZE) || 100,
    sinceDays = parseInt(process.env.EMAIL_FETCH_DAYS) || 30 } = options] *)
Definition batchSize_of (penv : ProcessEnv) (options : FetchOptions) : Z :=
  match opt_batchSize options with
  | Some b => b
  | None => env_or (EMAIL_BATCH_SIZE penv) 100
  end.

Definition sinceDays_of (penv : ProcessEnv) (options : FetchOptions) : Z :=
  match opt_sinceDays options with
  | Some d => d
  | None => env_or (EMAIL_FETCH_DAYS penv) 30
  end.

Definition fetchNewMessages (penv : ProcessEnv) (server : ImapServer)
    (today : Date) (now : Z) (connected : bool) (lastUid : Z)
    (options : FetchOptions) : Result (list Message) :=
  if negb connected then Throw "IMAP client not connected" else
  let batchSize := batchSize_of penv options in
  let sinceDays := sinceDays_of penv options in
  match open_error server with
  | Some error => Throw error
  | None =>
      let criteria := searchCriteria lastUid (sinceDateStr today sinceDays) in
      fetchLoop now batchSize (inbox server criteria) [] 0%Z
  end.

(** ** The store

    The tables the worker reads and writes through the Supabase
    client. Identifiers are generated by the store; instants are
    milliseconds, which order as their ISO strings do. *)

Definition uuid : Type := nat.

Inductive Status : Type := ACTIVE | ERROR | DISABLED.

Record MailboxRow : Type := mkMailboxRow {
  mb_id : uuid;
  mb_user_id : uuid;
  mb_email_address : string;
  mb_imap_host : string;
  mb_imap_port : Z;
  mb_imap_username : string;
  mb_imap_password_encrypted : string;
  mb_status : Status;
  mb_last_synced_uid : Z;
  mb_last_synced_at : option Z;
  mb_last_error : option string
}.

Record EmailRow : Type := mkEmailRow {
  e_id : uuid;
  e_user_id : uuid;
  e_mailbox_id : uuid;
  e_uid : Z;
  e_message_id : string;
  e_subject : string;
  e_from_address : string;
  e_from_name : string;
  e_to_addresses : list string;
  e_cc_addresses : list string;
  e_bcc_addresses : list string;
  e_category : Category;
  e_category_confidence : nat;
  e_thread_id : option uuid;
  e_in_reply_to : string;
  e_reference_ids : list string;
  e_body_preview : string;
  e_has_attachments : bool;
  e_is_read : bool;
  e_is_starred : bool;
  e_is_archived : bool;
  e_received_at : Z;
  e_sent_at : Z;
  e_size_bytes : Z;
  e_headers : Headers
}.

Record ThreadRow : Type := mkThreadRow {
  t_id : uuid;
  t_user_id : uuid;
  t_mailbox_id : uuid;
  t_subject : string;
  t_normalized_subject : string;
  t_participants : list string;
  t_first_message_at : Z;
  t_last_message_at : Z;
  t_message_count : nat;
  t_is_unread : bool
}.

Record BounceRow : Type := mkBounceRow {
  b_id : uuid;
  b_user_id : uuid;
  b_mailbox_id : uuid;
  b_email : string;
  b_bounce_type : BounceType;
  b_error_code : string;
  b_reason : string;
  b_failure_count : nat;
  b_first_failed_at : Z;
  b_last_failed_at : Z
}.

Record BounceEventRow : Type := mkBounceEventRow {
  ev_id : uuid;
  ev_bounce_id : uuid;
  ev_user_id : uuid;
  ev_message_uid : Z;
  ev_error_code : string;
  ev_diagnostic : string;
  ev_occurred_at : Z
}.

Record DB : Type := mkDB {
  mailboxes : list MailboxRow;
  emails : list EmailRow;
  email_threads : list ThreadRow;
  email_bounces : list BounceRow;
  email_bounce_events : list BounceEventRow;
  next_id : uuid
}.

(** What a query resolves to: [{ data, error: null }] or
    [{ data: null, error }]. *)
Inductive Reply (A : Type) : Type :=
| Data (data : A)
| Error (message : string).
Arguments Data {A} data.
Arguments Error {A} message.

(** [.single()] and [.maybeSingle()] *)
Definition single {A : Type} (rows : list A) : Reply A :=
  match rows with
  | [row] => Data row
  | _ => Error "JSON object requested, multiple (or no) rows returned"
  end.

Definition maybeSingle {A : Type} (rows : list A) : Reply (option A) :=
  match rows with
  | [] => Data None
  | [row] => Data (Some row)
  | _ => Error "JSON object requested, multiple (or no) rows returned"
  end.

Definition status_eqb (a b : Status) : bool :=
  match a, b with
  | ACTIVE, ACTIVE | ERROR, ERROR | DISABLED, DISABLED => true
  | _, _ => false
  end.

(** [from("mailboxes").select("*").eq("id", id).eq("status", "ACTIVE").single()] *)
Definition select_active_mailbox (id : uuid) (d : DB) : Reply MailboxRow * DB :=
  (single (filter (fun r => (mb_id r =? id) && status_eqb (mb_status r) ACTIVE)
                  (mailboxes d)), d).

Definition set_mailboxes (d : DB) (l : list MailboxRow) : DB :=
  mkDB l (emails d) (email_threads d) (email_bounces d) (email_bounce_events d)
       (next_id d).

(** [from("mailboxes").update(...).eq("id", id)] *)
Definition update_mailbox (id : uuid) (f : MailboxRow -> MailboxRow) (d : DB)
  : Reply unit * DB :=
  (Data tt, set_mailboxes d (map (fun r => if mb_id r =? id then f r else r)
                                 (mailboxes d))).

Definition checkpoint (maxUid now : Z) (r : MailboxRow) : MailboxRow :=
  mkMailboxRow (mb_id r) (mb_user_id r) (mb_email_address r) (mb_imap_host r)
    (mb_imap_port r) (mb_imap_username r) (mb_imap_password_encrypted r)
    ACTIVE maxUid (Some now) None.

Definition mark_error (message : string) (r : MailboxRow) : MailboxRow :=
  mkMailboxRow (mb_id r) (mb_user_id r) (mb_email_address r) (mb_imap_host r)
    (mb_imap_port r) (mb_imap_username r) (mb_imap_password_encrypted r)
    ERROR (mb_last_synced_uid r) (mb_last_synced_at r) (Some message).

(** [from("emails").select("id").eq("mailbox_id", m).eq("uid", u).maybeSingle()] *)
Definition select_email_by_uid (m : uuid) (u : Z) (d : DB)
  : Reply (option EmailRow) * DB :=
  (maybeSingle (filter (fun r => (e_mailbox_id r =? m) && (e_uid r =? u)%Z) (emails d)), d).

(** [....eq("message_id", id).maybeSingle()] *)
Definition select_email_by_message_id (m : uuid) (id : string) (d : DB)
  : Reply (option EmailRow) * DB :=
  (maybeSingle (filter (fun r => (e_mailbox_id r =? m) && String.eqb (e_message_id r) id)
                       (emails d)), d).

(** [....in("message_id", ids).limit(1).maybeSingle()] *)
Definition select_email_by_references (m : uuid) (ids : list string) (d : DB)
  : Reply (option EmailRow) * DB :=
  (maybeSingle (firstn 1 (filter (fun r => (e_mailbox_id r =? m)
                                    && existsb (String.eqb (e_message_id r)) ids)
                                 (emails d))), d).

(** [from("email_threads")....gte("last_message_at", since).limit(1).maybeSingle()] *)
Definition select_similar_thread (m : uuid) (normalized : string) (since : Z) (d : DB)
  : Reply (option ThreadRow) * DB :=
  (maybeSingle (firstn 1 (filter (fun t => (t_mailbox_id t =? m)
                                    && String.eqb (t_normalized_subject t) normalized
                                    && (since <=? t_last_message_at t)%Z)
                                 (email_threads d))), d).

(** An insert gives the row the next identifier of the store. *)
Definition insert_thread (row : uuid -> ThreadRow) (d : DB) : Reply ThreadRow * DB :=
  let t := row (next_id d) in
  (Data t, mkDB (mailboxes d) (emails d) (email_threads d ++ [t]) (email_bounces d)
                (email_bounce_events d) (S (next_id d))).

(** The two unique constraints of [emails]. *)
Definition violates_unique (row : EmailRow) (d : DB) : bool :=
  existsb (fun r => (e_mailbox_id r =? e_mailbox_id row)
                    && ((e_uid r =? e_uid row)%Z
                        || String.eqb (e_message_id r) (e_message_id row)))
          (emails d).

Definition insert_email (row : uuid -> EmailRow) (d : DB) : Reply EmailRow * DB :=
  let e := row (next_id d) in
  if violates_unique e d
  then (Error "duplicate key value violates unique constraint", d)
  else (Data e, mkDB (mailboxes d) (emails d ++ [e]) (email_threads d) (email_bounces d)
                     (email_bounce_events d) (S (next_id d))).

Fixpoint insert_by_received (x : EmailRow) (l : list EmailRow) : list EmailRow :=
  match l with
  | [] => [x]
  | y :: r => if (e_received_at y <? e_received_at x)%Z then x :: l
              else y :: insert_by_received x r
  end.

(** [....eq("thread_id", t).order("received_at", { ascending: false })] *)
Definition select_thread_emails (t : uuid) (d : DB) : Reply (list EmailRow) * DB :=
  (Data (fold_right insert_by_received []
           (filter (fun r => match e_thread_id r with Some t' => t' =? t | None => false end)
                   (emails d))), d).

Definition update_thread (id : uuid) (f : ThreadRow -> ThreadRow) (d : DB)
  : Reply unit * DB :=
  (Data tt, mkDB (mailboxes d) (emails d)
                 (map (fun t => if t_id t =? id then f t else t) (email_threads d))
                 (email_bounces d) (email_bounce_events d) (next_id d)).

Definition thread_stats (messageCount : nat) (lastMessageAt : Z) (isUnread : bool)
    (participants : list string) (t : ThreadRow) : ThreadRow :=
  mkThreadRow (t_id t) (t_user_id t) (t_mailbox_id t) (t_subject t)
    (t_normalized_subject t) participants (t_first_message_at t) lastMessageAt
    messageCount isUnread.

Definition select_bounce (user m : uuid) (email : string) (d : DB)
  : Reply (option BounceRow) * DB :=
  (maybeSingle (filter (fun b => (b_user_id b =? user) && (b_mailbox_id b =? m)
                                 && String.eqb (b_email b) email)
                       (email_bounces d)), d).

Definition set_bounces (d : DB) (l : list BounceRow) : DB :=
  mkDB (mailboxes d) (emails d) (email_threads d) l (email_bounce_events d) (next_id d).

Definition failed_again (count : nat) (now : Z) (b : BounceRow) : BounceRow :=
  mkBounceRow (b_id b) (b_user_id b) (b_mailbox_id b) (b_email b) (b_bounce_type b)
    (b_error_code b) (b_reason b) count (b_first_failed_at b) now.

(** The SQL function [increment_failure(bounce_id)]. *)
Definition increment_failure (id : uuid) (now : Z) (d : DB) : Reply unit * DB :=
  (Data tt, set_bounces d (map (fun b => if b_id b =? id
                                         then failed_again (b_failure_count b + 1) now b
                                         else b) (email_bounces d))).

Definition update_bounce (id : uuid) (count : nat) (now : Z) (d : DB) : Reply unit * DB :=
  (Data tt, set_bounces d (map (fun b => if b_id b =? id then failed_again count now b
                                         else b) (email_bounces d))).

Definition insert_bounce (row : uuid -> BounceRow) (d : DB) : Reply BounceRow * DB :=
  let b := row (next_id d) in
  (Data b, mkDB (mailboxes d) (emails d) (email_threads d) (email_bounces d ++ [b])
                (email_bounce_events d) (S (next_id d))).

Definition insert_bounce_event (row : uuid -> BounceEventRow) (d : DB) : Reply unit * DB :=
  (Data tt, mkDB (mailboxes d) (emails d) (email_threads d) (email_bounces d)
                 (email_bounce_events d ++ [row (next_id d)]) (S (next_id d))).

(** ** Failures and the world of a cycle *)

(** The requests the worker sends to the store. *)
Inductive Request : Type :=
| SelectMailbox (id : uuid)
| UpdateMailbox (id : uuid)
| SelectEmailByUid (mailbox : uuid) (uid : Z)
| SelectEmailByMessageId (mailbox : uuid) (message_id : string)
| SelectEmailByReferences (mailbox : uuid)
| SelectSimilarThread (mailbox : uuid) (normalized : string)
| InsertThread (mailbox : uuid)
| InsertEmail (mailbox : uuid) (uid : Z)
| SelectThreadEmails (thread : uuid)
| UpdateThread (thread : uuid)
| SelectBounce (email : string)
| RpcIncrementFailure (bounce : uuid)
| UpdateBounce (bounce : uuid)
| InsertBounce (email : string)
| InsertBounceEvent (bounce : uuid) (message_uid : Z).

(** What becomes of a request: it is carried out, the store answers
    with an error object, or the promise rejects (the [await] throws). *)
Inductive Outcome : Type :=
| Succeeds
| Fails (message : string)
| Rejects (message : string).

(** The [ImapClient] object of a cycle: not constructed, or
    constructed with [this.client] null, or with an [ImapFlow] that is
    connected or not. *)
Inductive ClientState : Type :=
| NoClient
| Client (flow : option bool).

Record World : Type := mkWorld {
  db : DB;
  tick : nat;
  imapClient : ClientState
}.

(** What a cycle does not control: which requests fail (by the number
    of the request within the cycle), the clock, the credential
    decryption of [utils/encryption.js], the IMAP server, and the
    process environment. *)
Record Env : Type := mkEnv {
  faults : nat -> Request -> Outcome;
  clock : nat -> Z;
  today : Date;
  decrypt : string -> Result string;
  server : ImapServer;
  penv : ProcessEnv
}.

(** An asynchronous function: it changes the world and returns or
    throws. *)
Definition M (A : Type) : Type := World -> Result A * World.

Definition ret {A : Type} (a : A) : M A := fun w => (Ok a, w).

Definition throw {A : Type} (error : string) : M A := fun w => (Throw error, w).

Definition bind {A B : Type} (m : M A) (k : A -> M B) : M B :=
  fun w =>
    match m w with
    | (Ok a, w') => k a w'
    | (Throw e, w') => (Throw e, w')
    end.

(** [try { m } catch (error) { handler }] *)
Definition try_catch {A : Type} (m : M A) (handler : string -> M A) : M A :=
  fun w =>
    match m w with
    | (Ok a, w') => (Ok a, w')
    | (Throw e, w') => handler e w'
    end.

(** [try { m } finally { f }], for an [f] that does not throw. *)
Definition try_finally {A : Type} (m : M A) (f : World -> World) : M A :=
  fun w => let (r, w') := m w in (r, f w').

Declare Scope monad_scope.
Delimit Scope monad_scope with monad.
Notation "x <- m ;; k" := (bind m (fun x => k))
  (at level 61, m at next level, right associativity) : monad_scope.
Notation "m ;; k" := (bind m (fun _ => k))
  (at level 61, right associativity) : monad_scope.
Local Open Scope monad_scope.

(** ** enhanced-processor.js and the stateful part of thread-builder.js *)

(** [const { data } = await ...]: the data of a reply, [null] on an
    error. *)
Definition data_of {A : Type} (r : Reply (option A)) : option A :=
  match r with
  | Data d => d
  | Error _ => None
  end.

Definition extractPreview (body : string) : string :=
  if negb (truthy body) then EmptyString else
  let text :=
    replace_all (RSeqs [RLit "<"; RPlus true (RChar (fun c => negb (Ascii.eqb c ">")));
                        RLit ">"]) (fun _ => " ") body in
  let text := trim (replace_all (RPlus true RSpace) (fun _ => " ") text) in
  take 300 text.

(** [from.match(/^(.+?)\s*<(.+?)>$/)] *)
Definition from_re : regex :=
  RSeqs [RBol; RGroup 1 (RPlus false RAny); RStar true RSpace; RLit "<";
         RGroup 2 (RPlus false RAny); RLit ">"; REol].

(** The [address] and the [name] of a sender. *)
Definition parseFromAddress (from : string) : string * string :=
  if negb (truthy from) then (EmptyString, EmptyString) else
  match exec from_re from with
  | Some m =>
      (toLowerCase (trim (or_empty (group 2 m))),
       trim (replace_all (RChar (fun c => Ascii.eqb c "'" || Ascii.eqb c DQUOTE))
                         erase (or_empty (group 1 m))))
  | None =>
      (toLowerCase (trim from), nth_string 0 (split_on "@" (trim from)))
  end.

(** The object [processMessage] hands to [findOrCreateThread]. *)
Record ThreadInput : Type := mkThreadInput {
  ti_subject : string;
  ti_from : string;
  ti_to : list string;
  ti_cc : list string;
  ti_inReplyTo : string;
  ti_references : list string;
  ti_receivedAt : Z
}.

Definition sevenDays : Z := (7 * 24 * 60 * 60 * 1000)%Z.

(** The message once [processMessage] has normalized its address
    fields ([message.to = this.normalizeEmailArray(message.to)] and
    the like). *)
Definition normalized (message : Message) : Message :=
  mkMessage (uid message) (messageId message) (subject message) (from message)
    (FArray (normalizeEmailArray (to message)))
    (FArray (normalizeEmailArray (cc message)))
    (FArray (normalizeEmailArray (bcc message)))
    (FArray (normalizeEmailArray (references message)))
    (inReplyTo message) (body message) (headers message)
    (receivedDate message) (receivedAt message) (sentAt message)
    (attachments message) (size message).

(** [message.messageId || `${message.uid}@${mailbox.imap_host}`] *)
Definition message_id_for (mailbox : MailboxRow) (message : Message) : string :=
  or_else (messageId message)
          (number_to_string (uid message) ++ "@" ++ mb_imap_host mailbox)%string.

Section Engine.

Variable env : Env.

(** [await this.db....]: the request gets the next number of the
    cycle and meets the fate the environment has for it. *)
Definition supabase {A : Type} (request : Request) (run : DB -> Reply A * DB)
  : M (Reply A) :=
  fun w =>
    match faults env (tick w) request with
    | Succeeds =>
        let (r, d) := run (db w) in
        (Ok r, mkWorld d (S (tick w)) (imapClient w))
    | Fails message => (Ok (Error message), mkWorld (db w) (S (tick w)) (imapClient w))
    | Rejects message => (Throw message, mkWorld (db w) (S (tick w)) (imapClient w))
    end.

(** [new Date()] and [Date.now()] *)
Definition now : M Z := fun w => (Ok (clock env (tick w)), w).

Definition thread_of (r : option EmailRow) : option uuid :=
  match r with
  | Some row => e_thread_id row
  | None => None
  end.

Definition createThread (mailboxId userId : uuid) (email : ThreadInput)
    (normalizedSubject : string) : M uuid :=
  r <- supabase (InsertThread mailboxId)
         (insert_thread (fun id =>
            mkThreadRow id userId mailboxId
              (or_else (ti_subject email) "(No Subject)")
              normalizedSubject
              (extractParticipants (ti_from email) (FArray (ti_to email))
                                   (FArray (ti_cc email)))
              (ti_receivedAt email) (ti_receivedAt email) 1 true));;
  match r with
  | Error error => throw error
  | Data thread => ret (t_id thread)
  end.

Definition bySubject (mailboxId userId : uuid) (email : ThreadInput) : M uuid :=
  let normalizedSubject := normalizeSubject (ti_subject email) in
  if truthy normalizedSubject && (5 <? String.length normalizedSubject) then
    t <- now;;
    similarThread <- supabase (SelectSimilarThread mailboxId normalizedSubject)
                       (select_similar_thread mailboxId normalizedSubject
                          (t - sevenDays)%Z);;
    match data_of similarThread with
    | Some thread => ret (t_id thread)
    | None => createThread mailboxId userId email normalizedSubject
    end
  else createThread mailboxId userId email normalizedSubject.

Definition byReferences (mailboxId userId : uuid) (email : ThreadInput) : M uuid :=
  match ti_references email with
  | _ :: _ =>
      referenced <- supabase (SelectEmailByReferences mailboxId)
                      (select_email_by_references mailboxId (ti_references email));;
      match thread_of (data_of referenced) with
      | Some thread_id => ret thread_id
      | None => bySubject mailboxId userId email
      end
  | [] => bySubject mailboxId userId email
  end.

Definition findOrCreateThread (mailboxId userId : uuid) (email : ThreadInput) : M uuid :=
  try_catch
    (if truthy (ti_inReplyTo email) then
       parent <- supabase (SelectEmailByMessageId mailboxId (ti_inReplyTo email))
                   (select_email_by_message_id mailboxId (ti_inReplyTo email));;
       match thread_of (data_of parent) with
       | Some thread_id => ret thread_id
       | None => byReferences mailboxId userId email
       end
     else byReferences mailboxId userId email)
    (fun error => throw error).

Definition updateThreadStats (threadId : uuid) : M unit :=
  try_catch
    (r <- supabase (SelectThreadEmails threadId) (select_thread_emails threadId);;
     match r with
     | Error _ => ret tt
     | Data [] => ret tt
     | Data ((first :: _) as messages) =>
         let messageCount := List.length messages in
         let lastMessageAt := e_received_at first in
         let isUnread := existsb (fun msg => negb (e_is_read msg)) messages in
         let participants :=
           filter truthy
             (fold_left (fun acc msg => set_add (extractEmailAddress (e_from_address msg)) acc)
                        messages []) in
         _ <- supabase (UpdateThread threadId)
                (update_thread threadId
                   (thread_stats messageCount lastMessageAt isUnread participants));;
         ret tt
     end)
    (fun _ => ret tt).

Definition recordBounceEvent (userId bounceId : uuid) (message : Message)
    (bounceData : BounceData) : M unit :=
  t <- now;;
  _ <- supabase (InsertBounceEvent bounceId (uid message))
         (insert_bounce_event (fun id =>
            mkBounceEventRow id bounceId userId (uid message)
              (errorCode bounceData) (diagnostic bounceData) t));;
  ret tt.

Definition processBounce (mailboxId userId : uuid) (message : Message)
    (bounceData : BounceData) : M unit :=
  try_catch
    (match failedRecipient bounceData with
     | None => ret tt
     | Some recipient =>
         existing <- supabase (SelectBounce recipient)
                       (select_bounce userId mailboxId recipient);;
         match data_of existing with
         | Some existing =>
             t <- now;;
             updated <- supabase (RpcIncrementFailure (b_id existing))
                          (increment_failure (b_id existing) t);;
             match updated with
             | Error _ =>
                 t' <- now;;
                 direct <- supabase (UpdateBounce (b_id existing))
                             (update_bounce (b_id existing)
                                (b_failure_count existing + 1) t');;
                 match direct with
                 | Error _ => ret tt
                 | Data _ => recordBounceEvent userId (b_id existing) message bounceData
                 end
             | Data _ => recordBounceEvent userId (b_id existing) message bounceData
             end
         | None =>
             t <- now;;
             inserted <- supabase (InsertBounce recipient)
                           (insert_bounce (fun id =>
                              mkBounceRow id userId mailboxId recipient
                                (bounceType bounceData) (errorCode bounceData)
                                (diagnostic bounceData) 1 t t));;
             match inserted with
             | Error _ => ret tt
             | Data newBounce => recordBounceEvent userId (b_id newBounce) message bounceData
             end
         end
     end)
    (fun _ => ret tt).

Definition or_now (t : option Z) (n : Z) : Z :=
  match t with Some v => v | None => n end.

Definition processMessage (mailbox : MailboxRow) (message : Message) : M unit :=
  try_catch
    (existing <- supabase (SelectEmailByUid (mb_id mailbox) (uid message))
                   (select_email_by_uid (mb_id mailbox) (uid message));;
     match data_of existing with
     | Some _ => ret tt
     | None =>
         let to := normalizeEmailArray (to message) in
         let cc := normalizeEmailArray (cc message) in
         let bcc := normalizeEmailArray (bcc message) in
         let references := normalizeEmailArray (references message) in
         let message := normalized message in
         let classification := classify message in
         t <- now;;
         threadId <- findOrCreateThread (mb_id mailbox) (mb_user_id mailbox)
                       (mkThreadInput (subject message) (from message) to cc
                          (inReplyTo message) references
                          (or_now (receivedAt message) t));;
         let bodyPreview := extractPreview (body message) in
         let (fromAddress, fromName) := parseFromAddress (from message) in
         t' <- now;;
         inserted <- supabase (InsertEmail (mb_id mailbox) (uid message))
                       (insert_email (fun id =>
                          mkEmailRow id (mb_user_id mailbox) (mb_id mailbox) (uid message)
                            (message_id_for mailbox message)
                            (or_else (subject message) "(No Subject)")
                            fromAddress fromName to cc bcc
                            (category classification) (confidence classification)
                            (Some threadId) (inReplyTo message) references bodyPreview
                            (0 <? attachments message) false false false
                            (or_now (receivedAt message) t')
                            (or_now (sentAt message) (or_now (receivedAt message) t'))
                            (size message)
                            (match headers message with
                             | HAbsent => HObject []
                             | h => h
                             end)));;
         match inserted with
         | Error insertError => throw insertError
         | Data _ =>
             updateThreadStats threadId;;
             match category classification with
             | BOUNCE =>
                 let bounceData := parseBounce message in
                 match failedRecipient bounceData with
                 | Some _ =>
                     processBounce (mb_id mailbox) (mb_user_id mailbox) message bounceData
                 | None => ret tt
                 end
             | _ => ret tt
             end
         end
     end)
    (fun error => throw error).

(** A thrown [TypeError] of a synchronous call. *)
Definition sync {A : Type} (r : option A) : M A :=
  match r with
  | Some a => ret a
  | None => throw "TypeError"
  end.

(** The loop of [processMailbox] over the fetched messages; it
    returns [maxUid]. The two counters of the loop are only logged. *)
Fixpoint processMessages (mailbox : MailboxRow) (messages : list Message)
    (maxUid : Z) : M Z :=
  match messages with
  | [] => ret maxUid
  | message :: rest =>
      let maxUid := if (maxUid <? uid message)%Z then uid message else maxUid in
      try_catch
        (processMessage mailbox message;;
         _ <- sync (isBounceMessage message);;
         ret tt)
        (fun _ => ret tt);;
      processMessages mailbox rest maxUid
  end.

Definition set_client (c : ClientState) : M unit :=
  fun w => (Ok tt, mkWorld (db w) (tick w) c).

(** [ImapClient.connect] *)
Definition connect : M unit :=
  match connect_error (server env) with
  | None => set_client (Client (Some true))
  | Some error =>
      set_client (Client (Some false));;
      throw ("IMAP connection failed: " ++ error)%string
  end.

(** [ImapClient.disconnect], inside the [finally] of [processMailbox]:
    it catches what [logout] throws. *)
Definition disconnect (w : World) : World :=
  match imapClient w with
  | Client (Some _) => mkWorld (db w) (tick w) (Client None)
  | _ => w
  end.

Definition fetch (lastUid : Z) (options : FetchOptions) : M (list Message) :=
  fun w =>
    (fetchNewMessages (penv env) (server env) (today env) (clock env (tick w))
       (match imapClient w with Client (Some _) => true | _ => false end)
       lastUid options, w).

Definition lift {A : Type} (r : Result A) : M A := fun w => (r, w).

Definition processMailbox (mailboxId : uuid) : M unit :=
  try_finally
    (try_catch
       (r <- supabase (SelectMailbox mailboxId) (select_active_mailbox mailboxId);;
        match r with
        | Error _ => ret tt
        | Data mailbox =>
            decryptedPassword <- lift (decrypt env (mb_imap_password_encrypted mailbox));;
            set_client (Client None);;
            connect;;
            messages <- fetch (mb_last_synced_uid mailbox) noOptions;;
            match messages with
            | [] => ret tt
            | _ :: _ =>
                maxUid <- processMessages mailbox messages (mb_last_synced_uid mailbox);;
                t <- now;;
                _ <- supabase (UpdateMailbox mailboxId)
                       (update_mailbox mailboxId (checkpoint maxUid t));;
                ret tt
            end
        end)
       (fun error =>
          try_catch
            (_ <- supabase (UpdateMailbox mailboxId)
                    (update_mailbox mailboxId (mark_error error));;
             ret tt)
            (fun _ => ret tt)))
    disconnect.

End Engine.

(** ** Predicates the statements use *)

(** The subject begins with one of the reply and forward prefixes,
    in any letter case. *)
Definition has_reply_prefix (s : string) : bool :=
  starts_ci s "re:" || starts_ci s "fwd:" || starts_ci s "fw:".

(** The tag [[external]] occurs in the subject, in any letter case. *)
Fixpoint mentions_external (s : string) : bool :=
  starts_ci s "[external]" ||
  match s with
  | EmptyString => false
  | String _ r => mentions_external r
  end.

(** Every run of white space is a single space. *)
Fixpoint collapsed_from (in_run : bool) (s : string) : bool :=
  match s with
  | EmptyString => true
  | String c r =>
      if is_space c
      then negb in_run && Ascii.eqb c " " && collapsed_from true r
      else collapsed_from false r
  end.

Definition no_leading_space (s : string) : bool :=
  match s with
  | String c _ => negb (is_space c)
  | EmptyString => true
  end.

Definition word_char (o : option ascii) : bool :=
  match o with Some c => is_word c | None => false end.

Definition head (s : string) : option ascii :=
  match s with String c _ => Some c | EmptyString => None end.

(** The three-digit code that begins [s], if there is one: a digit
    2, 4 or 5 and two more digits, with a word boundary on either
    side; [prev] is the character before [s]. *)
Definition code_here (prev : option ascii) (s : string) : option string :=
  match s with
  | String a (String b (String c r)) =>
      if negb (word_char prev) && one_of "245" a && is_digit b && is_digit c
         && negb (word_char (head r))
      then Some (String a (String b (String c EmptyString)))
      else None
  | _ => None
  end.

Definition char_before (s : string) (i : nat) : option ascii :=
  match i with
  | O => None
  | S j => get j s
  end.

(** The code that stands at position [i] of the body. *)
Definition code_at (body : string) (i : nat) : option string :=
  code_here (char_before body i) (drop i body).

(** The first code at or after the beginning of [s]. *)
Fixpoint first_code (prev : option ascii) (s : string) : option string :=
  match code_here prev s with
  | Some c => Some c
  | None =>
      match s with
      | EmptyString => None
      | String c r => first_code (Some c) r
      end
  end.

(** The messages of a stream that parse, as the fetch loop would
    push them. *)
Definition parsed_of (now : Z) (sms : list ServerMessage) : list Message :=
  flat_map (fun sm => match sm_parsed sm with
                      | Some parsed => [parsedMessage now sm parsed]
                      | None => []
                      end) sms.

(** A computation leaves a part of the store as it was. *)
Definition keeps {A X : Type} (part : DB -> X) (m : M A) : Prop :=
  forall w, part (db (snd (m w))) = part (db w).

(** A computation returns, whatever the world: it never throws. *)
Definition returns {A : Type} (m : M A) : Prop :=
  forall w, exists a, fst (m w) = Ok a.

(** The requests of the bounce side of the persister. *)
Definition bounce_side (r : Request) : bool :=
  match r with
  | SelectBounce _ | RpcIncrementFailure _ | UpdateBounce _
  | InsertBounce _ | InsertBounceEvent _ _ => true
  | _ => false
  end.

(** The mailbox has an Email row for this UID. *)
Definition has_email (d : DB) (mailbox : uuid) (u : Z) : Prop :=
  exists row, In row (emails d) /\ e_mailbox_id row = mailbox /\ e_uid row = u.

(** The unique constraint on (mailbox_id, uid). *)
Definition unique_uids (d : DB) : Prop :=
  NoDup (map (fun r => (e_mailbox_id r, e_uid r)) (emails d)).

(** What ingestion writes: every table but the mailbox rows. *)
Definition ingested (d : DB)
  : list EmailRow * list ThreadRow * list BounceRow * list BounceEventRow :=
  (emails d, email_threads d, email_bounces d, email_bounce_events d).

(** What the fetcher returns in a cycle that starts in [w], once the
    mailbox row has been read and the connection is open. *)
Definition fetched (env : Env) (w : World) (lastUid : Z) : Result (list Message) :=
  fetchNewMessages (penv env) (server env) (today env) (clock env (S (tick w)))
    true lastUid noOptions.

(** The largest UID of a batch, or the checkpoint when it is larger. *)
Definition batch_max (last : Z) (messages : list Message) : Z :=
  fold_left Z.max (map uid messages) last.

(** A computation keeps a property of the store. *)
Definition maintains {A : Type} (inv : DB -> Prop) (m : M A) : Prop :=
  forall w, inv (db w) -> inv (db (snd (m w))).

(** The mailbox has no Email row that the row of this message would
    collide with: none with its UID and none with its message id. *)
Definition no_collision (d : DB) (mailbox : MailboxRow) (message : Message) : Prop :=
  forall row,
    In row (emails d) -> e_mailbox_id row = mb_id mailbox ->
    e_uid row <> uid message
    /\ e_message_id row <> message_id_for mailbox message.

(** One attempt of the matcher at the beginning of [s], with [prev]
    before it: what [exec] tries at each position in turn. *)
Definition head_match (r : regex) (prev : option ascii) (s : string) : option rresult :=
  rmatch r (MState prev s [])
    (fun st' => Some (RResult EmptyString
                        (take (String.length s - String.length (m_rest st')) s)
                        (m_caps st') st')).

(** A result found further to the right: [acc] was skipped first. *)
Definition prepend (acc : string) (res : rresult) : rresult :=
  RResult (acc ++ r_before res)%string (r_text res) (r_caps res) (r_after res).

(** The longest prefix of characters of a class, dropped, and the
    character that then stands before the rest. *)
Fixpoint skip (p : ascii -> bool) (s : string) : string :=
  match s with
  | String c r => if p c then skip p r else s
  | EmptyString => EmptyString
  end.

Fixpoint skip_prev (p : ascii -> bool) (prev : option ascii) (s : string)
  : option ascii :=
  match s with
  | String c r => if p c then skip_prev p (Some c) r else prev
  | EmptyString => prev
  end.

(** The character before position [n] of [s], [prev] before its
    beginning. *)
Definition prev_at (prev : option ascii) (s : string) (n : nat) : option ascii :=
  match n with
  | O => prev
  | S j => get j s
  end.

(** The code at an offset of [s], when [prev] stands before [s]. *)
Definition code_off (prev : option ascii) (s : string) (i : nat) : option string :=
  code_here (match i with O => prev | S j => get j s end) (drop i s).

(** ** Scenarios *)

(** Two promotions with a List-Unsubscribe header, one from a sender
    that also matches a notification pattern. *)
Definition promo_from_notifier : Message :=
  mkMessage 1 "<promo@store.example>" "50% off - Limited time"
    "notifications@store.example" (FString "me@example.org") FUndefined FUndefined
    FUndefined "" "" (HObject [("List-Unsubscribe", "<mailto:leave@store.example>")])
    None None None 0 0.

Definition promo_from_noreply : Message :=
  mkMessage 1 "<promo@store.example>" "50% off - Limited time"
    "noreply@store.example" (FString "me@example.org") FUndefined FUndefined
    FUndefined "" "" (HObject [("List-Unsubscribe", "<mailto:leave@store.example>")])
    None None None 0 0.

(** The promotion of scenario S6 under another subject, and with the
    headers as the fetcher delivers them. *)
Definition promo_with_subject (subject : string) : Message :=
  mkMessage 1 "<promo@store.example>" subject
    "noreply@store.example" (FString "me@example.org") FUndefined FUndefined
    FUndefined "" "" (HObject [("List-Unsubscribe", "<mailto:leave@store.example>")])
    None None None 0 0.

Definition promo_fetched : Message :=
  mkMessage 1 "<promo@store.example>" "50% off - Limited time"
    "noreply@store.example" (FString "me@example.org") FUndefined FUndefined
    FUndefined "" "" (HMap [("list-unsubscribe", "<mailto:leave@store.example>")])
    None None None 0 0.

(** A bounce with a given body. *)
Definition bounce_with_body (text : string) : Message :=
  mkMessage 1 "" "Undelivered Mail Returned to Sender" "mailer-daemon@example.com"
    (FString "me@example.org") FUndefined FUndefined FUndefined "" text (HMap [])
    None None None 0 0.



Definition inbox_owner : MailboxRow :=
  mkMailboxRow 1 100 "me@example.org" "imap.example.org" 993 "me" "ciphertext"
    ACTIVE 9 None None.

Definition store_before : DB := mkDB [inbox_owner] [] [] [] [] 1000.

Definition world_before : World := mkWorld store_before 0 NoClient.

Definition mail (u : Z) (subject : string) : ServerMessage :=
  mkServerMessage u ""
    (Some (mkParsedMail ("<m" ++ number_to_string u ++ "@example.net>")
             subject "Bob <bob@example.net>" "me@example.org"
             "See you on Monday." "" [] None)).

Definition clock_of_ticks (n : nat) : Z := (1767225600000 + Z.of_nat n)%Z.

Definition three_mails : list ServerMessage :=
  [mail 10 "Project plan"; mail 11 "Lunch on Friday"; mail 12 "Re: Project plan"].

Definition serving (sms : list ServerMessage) : ImapServer :=
  mkImapServer None None (fun _ => map Yield sms).

Definition no_fault (n : nat) (request : Request) : Outcome := Succeeds.

Definition cycle_env (faults : nat -> Request -> Outcome) (sms : list ServerMessage)
  : Env :=
  mkEnv faults clock_of_ticks (mkDate 2026 2 5) (fun _ => Ok "secret")
        (serving sms) (mkProcessEnv None None).

(** Scenario S5: the batch has UIDs 10, 11 and 12, and the store
    refuses the Email row of UID 11. *)
Definition S5_env : Env :=
  cycle_env (fun _ request =>
               match request with
               | InsertEmail _ 11%Z => Fails "store error"
               | _ => Succeeds
               end) three_mails.

(** A cycle in which the search finds nothing. *)
Definition quiet_env : Env := cycle_env no_fault [].

(** Scenario S1, a delivery status notification, with a store that
    drops the connection whenever a bounce event is inserted. *)
Definition line (s : string) : string := (s ++ String LF EmptyString)%string.

Definition dsn_body : string :=
  (line "This is the mail system at host mx.example.net."
   ++ line ""
   ++ line "Final-Recipient: rfc822; alice@example.com"
   ++ line "Action: failed"
   ++ line "Status: 5.1.1"
   ++ line "Diagnostic-Code: smtp; 550 5.1.1 User unknown in local table")%string.

Definition dsn : ServerMessage :=
  mkServerMessage 10 ""
    (Some (mkParsedMail "<dsn10@example.net>" "Undelivered Mail Returned to Sender"
             "Mail Delivery System <mailer-daemon@example.net>" "me@example.org"
             dsn_body "" [] None)).

Definition dsn_message : Message :=
  nth 0 (parsed_of 0 [dsn]) (mkMessage 0 "" "" "" FUndefined FUndefined FUndefined
                               FUndefined "" "" HAbsent None None None 0 0).

Definition events_lost (n : nat) (request : Request) : Outcome :=
  match request with
  | InsertBounceEvent _ _ => Rejects "connection reset"
  | _ => Succeeds
  end.

Definition S1_lossy_env : Env := cycle_env events_lost [dsn].

Definition S1_env : Env := cycle_env no_fault [dsn].

(** A second notification for the same recipient, under a new UID. *)
Definition dsn_again : ServerMessage :=
  mkServerMessage 11 ""
    (Some (mkParsedMail "<dsn11@example.net>" "Undelivered Mail Returned to Sender"
             "Mail Delivery System <mailer-daemon@example.net>" "me@example.org"
             (line "Final-Recipient: rfc822; alice@example.com"
              ++ line "Diagnostic-Code: smtp; 452 4.2.2 Mailbox full")%string
             "" [] None)).

(** The world a cycle leaves behind, ready for the next one. *)
Definition after_cycle (env : Env) (mailboxId : uuid) (w : World) : World :=
  mkWorld (db (snd (processMailbox env mailboxId w))) 0 NoClient.

(** ** Vocabulary of the properties *)

(** [this.categories] of the classifier's constructor, in hundredths,
    and [getCategories]. *)
Definition categories : list (Category * nat) :=
  [ (BOUNCE, 100); (TRANSACTIONAL, 90); (NOTIFICATION, 85); (MARKETING, 80);
    (NEWSLETTER, 75); (HUMAN, 60); (UNKNOWN, 0) ].

Definition getCategories : list Category := map fst categories.

(** The characters of a string. *)
Definition chars (s : string) : list ascii := list_ascii_of_string s.

(** A parsed mail with its header lines taken away. *)
Definition without_headers (parsed : ParsedMail) : ParsedMail :=
  mkParsedMail (p_messageId parsed) (p_subject parsed) (p_from_text parsed)
    (p_to_text parsed) (p_text parsed) (p_html parsed) [] (p_date parsed).

(** The character that stands before what follows [a], [prev] when
    [a] is empty. *)
Fixpoint last_of (prev : option ascii) (a : string) : option ascii :=
  match a with
  | EmptyString => prev
  | String c r => last_of (Some c) r
  end.

(** Every character of a string is of a class. *)
Definition all_of (p : ascii -> bool) (s : string) : bool := forallb p (chars s).

(** A string without the characters of a class. *)
Fixpoint without (p : ascii -> bool) (s : string) : string :=
  match s with
  | EmptyString => EmptyString
  | String c r => if p c then without p r else String c (without p r)
  end.

(** The two quotation marks [parseFromAddress] takes out of a name. *)
Definition is_quote (c : ascii) : bool := Ascii.eqb c "'" || Ascii.eqb c DQUOTE.

(** The literal [p] occurs in [s], in any letter case. *)
Fixpoint includes_ci (s p : string) : bool :=
  starts_ci s p ||
  match s with
  | EmptyString => false
  | String _ r => includes_ci r p
  end.

(** A text in which the first four patterns of
    [extractRecipientEmail] find nothing to begin with, and which has
    no backslash. *)
Definition plain_text (t : string) : bool :=
  all_of (fun c => negb (Ascii.eqb c "\") && negb (Ascii.eqb c "<")) t
  && negb (includes_ci t "failed") && negb (includes_ci t "undelivered")
  && negb (includes_ci t "Final-Recipient:")
  && negb (includes_ci t "Original-Recipient:").

(** No [ImapFlow] connection is held: [this.client] is null, or no
    client was constructed. *)
Definition disconnected (w : World) : Prop :=
  imapClient w = NoClient \/ imapClient w = Client None.

(** A request is answered: carried out or refused with an error
    object, not rejected. *)
Definition answered (o : Outcome) : Prop :=
  match o with Rejects _ => False | _ => True end.

(** The thread row that [findOrCreateThread] inserts for an email. *)
Definition new_thread (id mailboxId userId : uuid) (email : ThreadInput) : ThreadRow :=
  mkThreadRow id userId mailboxId (or_else (ti_subject email) "(No Subject)")
    (normalizeSubject (ti_subject email))
    (extractParticipants (ti_from email) (FArray (ti_to email)) (FArray (ti_cc email)))
    (ti_receivedAt email) (ti_receivedAt email) 1 true.

(** No thread of the mailbox has this normalized subject. *)
Definition fresh_subject (d : DB) (mailboxId : uuid) (normalizedSubject : string) : Prop :=
  forall t, In t (email_threads d) -> t_mailbox_id t = mailboxId ->
            t_normalized_subject t <> normalizedSubject.

(** The email carries no reply headers, as every email of the
    fetcher. *)
Definition no_reply_headers (email : ThreadInput) : Prop :=
  ti_inReplyTo email = EmptyString /\ ti_references email = [].

(** The Email rows of a thread, in the order of the table. *)
Definition thread_emails (d : DB) (threadId : uuid) : list EmailRow :=
  filter (fun r => match e_thread_id r with Some t' => t' =? threadId | None => false end)
         (emails d).

(** The participants [updateThreadStats] computes from rows. *)
Definition senders (messages : list EmailRow) : list string :=
  filter truthy
    (fold_left (fun acc msg => set_add (extractEmailAddress (e_from_address msg)) acc)
               messages []).

(** The rows by [received_at], latest first. *)
Definition latest_first (rows : list EmailRow) : list EmailRow :=
  fold_right insert_by_received [] rows.

(** The first row is the latest. *)
Definition headed (l : list EmailRow) : Prop :=
  match l with
  | [] => True
  | first :: _ => forall y, In y l -> (e_received_at y <= e_received_at first)%Z
  end.

(** The store has a thread with this identifier. *)
Definition has_thread (d : DB) (id : uuid) : Prop :=
  exists t, In t (email_threads d) /\ t_id t = id.

(** Every Email row belongs to a thread of the store. *)
Definition threads_exist (d : DB) : Prop :=
  forall e, In e (emails d) -> exists id, e_thread_id e = Some id /\ has_thread d id.

(** From a store with [pre], the computation returns a value with
    [post] or throws in a store with [exc]. *)
Definition triple {A : Type} (pre : DB -> Prop) (m : M A) (post : A -> DB -> Prop)
    (exc : DB -> Prop) : Prop :=
  forall w, pre (db w) ->
            match m w with
            | (Ok a, w') => post a (db w')
            | (Throw _, w') => exc (db w')
            end.

(** What the invariant reads. *)
Definition threaded (d : DB) : list EmailRow * list ThreadRow :=
  (emails d, email_threads d).

(** The mailbox has an Email row with the message id this message
    would be stored under. *)
Definition has_message_id (d : DB) (mailbox : MailboxRow) (message : Message) : Prop :=
  exists row, In row (emails d) /\ e_mailbox_id row = mb_id mailbox
              /\ e_message_id row = message_id_for mailbox message.

(** The mailbox has no Email row for this UID. *)
Definition new_uid (d : DB) (mailbox : uuid) (u : Z) : Prop :=
  forall row, In row (emails d) -> e_mailbox_id row = mailbox -> e_uid row <> u.

(** The aggregates of a recipient, as [processBounce] looks them up. *)
Definition aggregates (d : DB) (userId mailboxId : uuid) (recipient : string)
  : list BounceRow :=
  filter (fun b => (b_user_id b =? userId) && (b_mailbox_id b =? mailboxId)
                   && String.eqb (b_email b) recipient)
         (email_bounces d).

(** The aggregate and the event of a first bounce. *)
Definition first_bounce (id userId mailboxId : uuid) (recipient : string)
    (bounceData : BounceData) (t : Z) : BounceRow :=
  mkBounceRow id userId mailboxId recipient (bounceType bounceData)
    (errorCode bounceData) (diagnostic bounceData) 1 t t.

Definition bounce_event (id bounceId userId : uuid) (message : Message)
    (bounceData : BounceData) (t : Z) : BounceEventRow :=
  mkBounceEventRow id bounceId userId (uid message) (errorCode bounceData)
    (diagnostic bounceData) t.

(** Every request but the RPC is carried out, and the RPC is
    answered. *)
Definition rpc_may_fail (env : Env) : Prop :=
  (forall n r, (forall id, r <> RpcIncrementFailure id) -> faults env n r = Succeeds)
  /\ (forall n id, answered (faults env n (RpcIncrementFailure id))).

(** ** scheduler.js

    The job that [cron] runs every five minutes. The scheduler has a
    store client of its own: [listing] is what becomes of its one
    query. The legacy processor of [processor.js] records bounce
    events of another shape than the tables above; the job is
    modelled over any such processor. *)

(** [from("mailboxes").select("id, email_address").eq("status", "ACTIVE")] *)
Definition select_active_mailboxes (d : DB) : list MailboxRow :=
  filter (fun r => status_eqb (mb_status r) ACTIVE) (mailboxes d).

Section Scheduler.

Variable env : Env.
Variable legacyProcessor : uuid -> M unit.

(** A call of [processMailbox], with its local [imapClient]. *)
Definition enhancedProcessor (mailboxId : uuid) : M unit :=
  set_client NoClient;; processMailbox env mailboxId.

(** The loop over the mailboxes; [PROCESSOR_MODE] is the value of the
    environment variable, or "enhanced". *)
Fixpoint processEach (PROCESSOR_MODE : string) (mailboxes : list MailboxRow) : M unit :=
  match mailboxes with
  | [] => ret tt
  | mailbox :: rest =>
      try_catch
        (if String.eqb PROCESSOR_MODE "both" then
           enhancedProcessor (mb_id mailbox);;
           legacyProcessor (mb_id mailbox)
         else if String.eqb PROCESSOR_MODE "legacy" then
           legacyProcessor (mb_id mailbox)
         else enhancedProcessor (mb_id mailbox))
        (fun _ => ret tt);;
      processEach PROCESSOR_MODE rest
  end.

Definition emailSync (PROCESSOR_MODE : string) (listing : Outcome) : M unit :=
  try_catch
    (match listing with
     | Succeeds =>
         fun w => processEach PROCESSOR_MODE (select_active_mailboxes (db w)) w
     | Fails _ => ret tt
     | Rejects error => throw error
     end)
    (fun _ => ret tt).

End Scheduler.

(** The worlds after the cycles of the mailboxes, one after the
    other. *)
Definition cycles (env : Env) (mailboxes : list MailboxRow) (w : World) : World :=
  fold_left (fun w mailbox => snd (enhancedProcessor env (mb_id mailbox) w)) mailboxes w.

(** The email [processMessage] hands to the thread builder, for a
    message received at [t] by default. *)
Definition thread_input (message : Message) (t : Z) : ThreadInput :=
  mkThreadInput (subject message) (from message)
    (normalizeEmailArray (to message)) (normalizeEmailArray (cc message))
    (inReplyTo message) (normalizeEmailArray (references message))
    (or_now (receivedAt message) t).

(** The checkpoints of the second list are those of the first, moved
    forward or left where they were. *)
Definition advanced (before after : list MailboxRow) : Prop :=
  Forall2 (fun r r' => mb_id r' = mb_id r
                       /\ (mb_last_synced_uid r <= mb_last_synced_uid r')%Z)
          before after.

(** ** thread-builder.js: marking a thread

    [update({ is_unread: !isRead }).eq("id", threadId)]; an error of
    the store is logged. *)
Definition set_unread (isUnread : bool) (t : ThreadRow) : ThreadRow :=
  mkThreadRow (t_id t) (t_user_id t) (t_mailbox_id t) (t_subject t)
    (t_normalized_subject t) (t_participants t) (t_first_message_at t)
    (t_last_message_at t) (t_message_count t) isUnread.

Definition markThreadAsRead (env : Env) (threadId : uuid) (isRead : bool) : M unit :=
  try_catch
    (_ <- supabase env (UpdateThread threadId)
            (update_thread threadId (set_unread (negb isRead)));;
     ret tt)
    (fun _ => ret tt).

(** ** More scenarios *)

(** A notification that only its subject gives away. *)
Definition subject_bounce : Message :=
  mkMessage 1 "" "Delivery Status Notification (Failure)" "bounces@example.net"
    (FString "me@example.org") FUndefined FUndefined FUndefined "" "" (HMap [])
    None None None 0 0.

(** A server that does not accept the connection. *)
Definition unreachable_env : Env :=
  mkEnv no_fault clock_of_ticks (mkDate 2026 2 5) (fun _ => Ok "secret")
        (mkImapServer (Some "timeout") None (fun _ => [])) (mkProcessEnv None None).

(** An email, a reply to it, and an email with a short subject. *)
Definition plan : ThreadInput :=
  mkThreadInput "Project plan" "Bob <bob@example.net>" ["me@example.org"] [] "" []
    1767225600000.

Definition plan_reply : ThreadInput :=
  mkThreadInput "Re: Project plan" "me@example.org" ["bob@example.net"] [] "" []
    1767225700000.

Definition greeting : ThreadInput :=
  mkThreadInput "Hi" "Bob <bob@example.net>" ["me@example.org"] [] "" [] 1767225600000.

(** The notification of scenario S1 once more, under a new UID and
    another subject. *)
Definition redelivered : Message :=
  mkMessage 11 "<dsn10@example.net>" "Returned mail" "mailer-daemon@example.net"
    (FString "me@example.org") FUndefined FUndefined FUndefined "" dsn_body (HMap [])
    None None None 0 0.

(** The aggregate that the cycle of scenario S1 records. *)
Definition alice_aggregate : BounceRow :=
  mkBounceRow 1002 100 1 "alice@example.com" HARD "550" "User unknown in local table" 1
    1767225600008 1767225600008.


(** A reply as the parser delivers it. *)
Definition plan_mail : ParsedMail :=
  mkParsedMail "<m12@example.net>" "Re: Project plan" "Bob <bob@example.net>"
    "me@example.org" "See you on Monday." "" [("in-reply-to", "<m10@example.net>")] None.

(** A second mailbox, which its owner has disabled. *)
Definition paused_mailbox : MailboxRow :=
  mkMailboxRow 2 100 "old@example.org" "imap.example.org" 993 "old" "ciphertext"
    DISABLED 4 None None.

Definition two_mailboxes : World :=
  mkWorld (mkDB [inbox_owner; paused_mailbox] [] [] [] [] 1000) 0 NoClient.

(* ================================================================== *)
(** * Part II. Properties                                              *)
(* ================================================================== *)

(** ** Characters and strings *)

Ltac each_char c :=
  destruct c as [[|] [|] [|] [|] [|] [|] [|] [|]]; try reflexivity; try discriminate.

Lemma lower_char_idem (c : ascii) : lower_char (lower_char c) = lower_char c.
Proof. each_char c. Qed.

Lemma is_space_lower (c : ascii) : is_space (lower_char c) = is_space c.
Proof. each_char c. Qed.

Lemma space_lower_fixed (c : ascii) : is_space c = true -> lower_char c = c.
Proof. each_char c. Qed.

Lemma toLowerCase_idem (s : string) : toLowerCase (toLowerCase s) = toLowerCase s.
Proof.
  induction s as [|c r IH]; simpl; [reflexivity|].
  now rewrite lower_char_idem, IH.
Qed.

Lemma trimStart_lower (s : string) :
  trimStart (toLowerCase s) = toLowerCase (trimStart s).
Proof.
  induction s as [|c r IH]; simpl; [reflexivity|].
  rewrite is_space_lower. destruct (is_space c); [exact IH | reflexivity].
Qed.

Lemma trimEnd_lower (s : string) :
  trimEnd (toLowerCase s) = toLowerCase (trimEnd s).
Proof.
  induction s as [|c r IH]; simpl; [reflexivity|].
  rewrite IH, is_space_lower.
  destruct (trimEnd r); simpl; [destruct (is_space c)|]; reflexivity.
Qed.

Lemma trim_lower (s : string) : trim (toLowerCase s) = toLowerCase (trim s).
Proof. unfold trim. now rewrite trimStart_lower, trimEnd_lower. Qed.

Lemma no_leading_trimStart (s : string) : no_leading_space (trimStart s) = true.
Proof.
  induction s as [|c r IH]; simpl; [reflexivity|].
  destruct (is_space c) eqn:E; [exact IH | simpl; now rewrite E].
Qed.

Lemma trimStart_fixed (s : string) : no_leading_space s = true -> trimStart s = s.
Proof.
  destruct s as [|c r]; simpl; [reflexivity|].
  now destruct (is_space c).
Qed.

Lemma no_leading_trimEnd (s : string) :
  no_leading_space s = true -> no_leading_space (trimEnd s) = true.
Proof.
  destruct s as [|c r]; simpl; [reflexivity|]. intros H.
  destruct (trimEnd r); simpl; [|exact H].
  apply negb_true_iff in H. rewrite H. simpl. now rewrite H.
Qed.

Lemma trimEnd_idem (s : string) : trimEnd (trimEnd s) = trimEnd s.
Proof.
  induction s as [|c r IH]; simpl; [reflexivity|].
  destruct (trimEnd r) as [|d r'] eqn:E.
  - destruct (is_space c) eqn:Ec; simpl; [reflexivity | now rewrite Ec].
  - simpl in *. now rewrite IH.
Qed.

Lemma trim_idem (s : string) : trim (trim s) = trim s.
Proof.
  unfold trim.
  rewrite (trimStart_fixed (trimEnd (trimStart s))).
  - apply trimEnd_idem.
  - apply no_leading_trimEnd, no_leading_trimStart.
Qed.

(** ** The matcher *)

Lemma append_empty (s : string) : (s ++ "")%string = s.
Proof. induction s as [|c r IH]; cbn; [reflexivity | now rewrite IH]. Qed.

Lemma append_assoc (a b c : string) : ((a ++ b) ++ c = a ++ (b ++ c))%string.
Proof. induction a as [|x r IH]; cbn; [reflexivity | now rewrite IH]. Qed.

Lemma first_some_map {A B : Type} (F : A -> B) (a b : option A) :
  first_some (option_map F a) (option_map F b) = option_map F (first_some a b).
Proof. now destruct a. Qed.

Lemma star_loop_ext {A : Type}
    (step step' : mstate -> (mstate -> option A) -> option A) (greedy : bool)
    (k k' : mstate -> option A) :
  (forall st k1 k2, (forall x, k1 x = k2 x) -> step st k1 = step' st k2) ->
  (forall st, k st = k' st) ->
  forall fuel st,
    star_loop step greedy k fuel st = star_loop step' greedy k' fuel st.
Proof.
  intros Hs Hk. induction fuel as [|fuel IH]; intros st; cbn; [apply Hk|].
  rewrite Hk. erewrite Hs; [reflexivity|].
  intros x. cbn.
  match goal with |- context [if ?b then _ else _] => destruct b end;
    [apply IH | reflexivity].
Qed.

(** The matcher reads its continuation only through its values. *)
Lemma rmatch_ext {A : Type} (r : regex) :
  forall (st : mstate) (k k' : mstate -> option A),
    (forall x, k x = k' x) -> rmatch r st k = rmatch r st k'.
Proof.
  induction r as [p| |a IHa b IHb|a IHa b IHb|g a IHa|n a IHa| | |];
    intros st k k' H; cbn.
  - destruct (m_rest st); [reflexivity|]. destruct (p a); [apply H | reflexivity].
  - apply H.
  - apply IHa. intros x. now apply IHb.
  - now rewrite (IHa st k k' H), (IHb st k k' H).
  - apply star_loop_ext; [|exact H]. intros st0 k1 k2 H12. now apply IHa.
  - apply IHa. intros x. apply H.
  - destruct (m_prev st); [reflexivity | apply H].
  - destruct (m_rest st); [apply H | reflexivity].
  - destruct (xorb _ _); [apply H | reflexivity].
Qed.

Lemma star_loop_map {A B : Type} (F : A -> B)
    (step : mstate -> (mstate -> option A) -> option A)
    (stepB : mstate -> (mstate -> option B) -> option B) (greedy : bool)
    (k : mstate -> option A) :
  (forall st k1 k2, (forall x, k2 x = option_map F (k1 x)) ->
                    stepB st k2 = option_map F (step st k1)) ->
  forall fuel st,
    star_loop stepB greedy (fun x => option_map F (k x)) fuel st
    = option_map F (star_loop step greedy k fuel st).
Proof.
  intros Hs. induction fuel as [|fuel IH]; intros st; cbn; [reflexivity|].
  erewrite Hs.
  - destruct greedy; apply first_some_map.
  - intros x. cbn.
    match goal with |- context [if ?b then _ else _] => destruct b end;
      [apply IH | reflexivity].
Qed.

(** A function applied to the answer of the continuation can as well
    be applied to the answer of the matcher. *)
Lemma rmatch_map {A B : Type} (F : A -> B) (r : regex) :
  forall (st : mstate) (k : mstate -> option A) (k' : mstate -> option B),
    (forall x, k' x = option_map F (k x)) ->
    rmatch r st k' = option_map F (rmatch r st k).
Proof.
  induction r as [p| |a IHa b IHb|a IHa b IHb|g a IHa|n a IHa| | |];
    intros st k k' H; cbn.
  - destruct (m_rest st); [reflexivity|]. destruct (p a); [apply H | reflexivity].
  - apply H.
  - apply IHa. intros x. now apply IHb.
  - rewrite (IHa st k k' H), (IHb st k k' H). apply first_some_map.
  - rewrite (star_loop_ext _ (fun st' k' => rmatch a st' k') g k'
               (fun x => option_map F (k x))).
    + apply star_loop_map. intros st0 k1 k2 H12. now apply IHa.
    + intros st0 k1 k2 H12. now apply rmatch_ext.
    + exact H.
  - apply IHa. intros x. apply H.
  - destruct (m_prev st); [reflexivity | apply H].
  - destruct (m_rest st); [apply H | reflexivity].
  - destruct (xorb _ _); [apply H | reflexivity].
Qed.

Lemma star_loop_answer {A : Type}
    (step : mstate -> (mstate -> option A) -> option A) (greedy : bool)
    (k : mstate -> option A) :
  (forall st k1 x, step st k1 = Some x -> exists st', k1 st' = Some x) ->
  forall fuel st x,
    star_loop step greedy k fuel st = Some x -> exists st', k st' = Some x.
Proof.
  intros Hs. induction fuel as [|fuel IH]; intros st x; cbn; [eauto|].
  assert (Hagain : forall y,
             step st (fun st' =>
                        if String.length (m_rest st') <? String.length (m_rest st)
                        then star_loop step greedy k fuel st' else None) = Some y ->
             exists st', k st' = Some y).
  { intros y Hy. apply Hs in Hy as [st' Hy].
    destruct (_ <? _) in Hy; [now apply IH in Hy | discriminate]. }
  destruct greedy.
  - destruct (step st _) as [y|] eqn:E; cbn; [intros [= <-]; now apply Hagain | eauto].
  - destruct (k st) as [y|] eqn:E; cbn; [intros [= <-]; eauto | apply Hagain].
Qed.

(** Every answer of the matcher is an answer of its continuation. *)
Lemma rmatch_answer {A : Type} (r : regex) :
  forall (st : mstate) (k : mstate -> option A) (x : A),
    rmatch r st k = Some x -> exists st', k st' = Some x.
Proof.
  induction r as [p| |a IHa b IHb|a IHa b IHb|g a IHa|n a IHa| | |];
    intros st k x; cbn.
  - destruct (m_rest st); [discriminate|]. destruct (p a); [eauto | discriminate].
  - eauto.
  - intros H. apply IHa in H as [st1 H]. now apply IHb in H.
  - destruct (rmatch a st k) as [y|] eqn:E; cbn.
    + intros [= <-]. now apply IHa in E.
    + apply IHb.
  - apply star_loop_answer. intros st0 k1 y. apply IHa.
  - intros H. apply IHa in H as [st1 H]. eauto.
  - destruct (m_prev st); [discriminate | eauto].
  - destruct (m_rest st); [eauto | discriminate].
  - destruct (xorb _ _); [eauto | discriminate].
Qed.

Lemma head_match_before (r : regex) (prev : option ascii) (s : string) (res : rresult) :
  head_match r prev s = Some res -> r_before res = EmptyString.
Proof.
  intros H. apply rmatch_answer in H as [st' H]. now injection H as <-.
Qed.

Lemma prepend_prepend (a b : string) (res : rresult) :
  prepend a (prepend b res) = prepend (a ++ b) res.
Proof. unfold prepend. cbn. now rewrite append_assoc. Qed.

Lemma search_here (r : regex) (prev : option ascii) (s acc : string) :
  rmatch r (MState prev s [])
    (fun st' => Some (RResult acc
                        (take (String.length s - String.length (m_rest st')) s)
                        (m_caps st') st'))
  = option_map (prepend acc) (head_match r prev s).
Proof.
  unfold head_match. apply rmatch_map. intros x. cbn. unfold prepend. cbn.
  now rewrite append_empty.
Qed.

(** [exec] tries the positions from left to right. *)
Lemma search_from_head (r : regex) (s : string) :
  forall (prev : option ascii) (acc : string),
    search_from r prev s acc
    = match head_match r prev s with
      | Some res => Some (prepend acc res)
      | None =>
          match s with
          | EmptyString => None
          | String c s' =>
              option_map (prepend (acc ++ String c EmptyString))
                         (search_from r (Some c) s' EmptyString)
          end
      end.
Proof.
  induction s as [|c s' IH]; intros prev acc; cbn [search_from];
    rewrite search_here; destruct (head_match r prev _); try reflexivity.
  cbn [option_map first_some].
  rewrite (IH (Some c) (acc ++ String c EmptyString)%string).
  rewrite (IH (Some c) EmptyString).
  destruct (head_match r (Some c) s'); [reflexivity|].
  destruct s' as [|d s'']; [reflexivity|].
  destruct (search_from r (Some d) s'' EmptyString); cbn; [|reflexivity].
  now rewrite prepend_prepend.
Qed.

(** A global replacement, one position at a time, when the
    replacement does not look at what was skipped. *)
Lemma replace_from_head (r : regex) (g : rresult -> string) (f : nat)
    (prev : option ascii) (s : string) :
  (forall acc res, g (prepend acc res) = g res) ->
  replace_from (S f) r g prev s
  = match head_match r prev s with
    | Some res =>
        (g res ++
         match r_text res, m_rest (r_after res) with
         | EmptyString, EmptyString => EmptyString
         | EmptyString, String c s' => String c (replace_from f r g (Some c) s')
         | _, _ => replace_from f r g (m_prev (r_after res)) (m_rest (r_after res))
         end)%string
    | None =>
        match s with
        | EmptyString => EmptyString
        | String c s' => String c (replace_from (S f) r g (Some c) s')
        end
    end.
Proof.
  intros Hg. cbn [replace_from]. rewrite search_from_head.
  destruct (head_match r prev s) as [res|] eqn:E.
  - rewrite (Hg EmptyString res). unfold prepend. cbn [r_before r_text r_after append].
    now rewrite (head_match_before _ _ _ _ E).
  - destruct s as [|c s']; [reflexivity|]. cbn [append].
    destruct (search_from r (Some c) s' EmptyString) as [res|]; [|reflexivity].
    cbn [option_map]. rewrite Hg. unfold prepend. cbn [r_before r_text r_after append].
    reflexivity.
Qed.

(** A literal under the [i] flag matches when the input begins with
    it in some letter case. *)
Lemma rmatch_literal {A : Type} (p : string) :
  p <> EmptyString ->
  forall (prev : option ascii) (s : string) (caps : list (nat * string))
         (k : mstate -> option A),
    rmatch (RLitI p) (MState prev s caps) k
    = if starts_ci s p
      then k (MState (prev_at prev s (String.length p)) (drop (String.length p) s) caps)
      else None.
Proof.
  induction p as [|a p IH]; [contradiction|]. intros _ prev s caps k.
  destruct p as [|b p].
  - cbn. destruct s as [|c s]; [reflexivity|]. cbn.
    now destruct (eqb_ci a c).
  - change (RLitI (String a (String b p)))
      with (RSeq (RChar (eqb_ci a)) (RLitI (String b p))).
    cbn [rmatch m_rest m_caps]. destruct s as [|c s]; [reflexivity|].
    cbn [starts_ci]. destruct (eqb_ci a c); [|reflexivity].
    rewrite IH by discriminate. cbn [andb String.length prev_at drop get].
    reflexivity.
Qed.

(** A greedy [c*] before a continuation that always answers takes
    all the characters of the class there are. *)
Lemma star_class {A : Type} (p : ascii -> bool)
    (step : mstate -> (mstate -> option A) -> option A) (k : mstate -> option A) :
  (forall st k', step st k' = rmatch (RChar p) st k') ->
  (forall st, exists x, k st = Some x) ->
  forall (fuel : nat) (s : string) (prev : option ascii) (caps : list (nat * string)),
    String.length s <= fuel ->
    star_loop step true k fuel (MState prev s caps)
    = k (MState (skip_prev p prev s) (skip p s) caps).
Proof.
  intros Hstep Hk. induction fuel as [|fuel IH]; intros s prev caps Hlen.
  - destruct s; [reflexivity | cbn in Hlen; lia].
  - cbn [star_loop]. rewrite Hstep. cbn [rmatch m_rest m_caps].
    destruct s as [|c r]; [reflexivity|].
    cbn [skip skip_prev]. destruct (p c); [|reflexivity].
    cbn [m_rest String.length].
    replace (String.length r <? S (String.length r)) with true
      by (symmetry; apply Nat.ltb_lt; lia).
    rewrite IH by (cbn in Hlen; lia).
    destruct (Hk (MState (skip_prev p (Some c) r) (skip p r) caps)) as [x Hx].
    now rewrite Hx.
Qed.

Lemma skip_space (s : string) : skip is_space s = trimStart s.
Proof.
  induction s as [|c r IH]; cbn; [reflexivity|]. now destruct (is_space c).
Qed.

Lemma length_trimStart (s : string) : String.length (trimStart s) <= String.length s.
Proof.
  induction s as [|c r IH]; cbn; [lia|]. destruct (is_space c); cbn; lia.
Qed.

Lemma length_drop (n : nat) (s : string) :
  String.length (drop n s) = String.length s - n.
Proof.
  revert s; induction n as [|n IH]; intros s; cbn; [lia|].
  destruct s as [|c r]; cbn; [reflexivity | apply IH].
Qed.

Lemma starts_ci_length (s p : string) :
  starts_ci s p = true -> String.length p <= String.length s.
Proof.
  revert s; induction p as [|a p IH]; intros s; cbn; [lia|].
  destruct s as [|c s]; [discriminate|]. intros H.
  apply andb_true_iff in H as [_ H]. apply IH in H. cbn. lia.
Qed.

(** The three patterns of [normalizeSubject] at one position. *)
Lemma head_spaces (prev : option ascii) (s : string) :
  head_match (RPlus true RSpace) prev s
  = match s with
    | String c r =>
        if is_space c
        then Some (RResult EmptyString
                     (take (String.length s - String.length (trimStart r)) s) []
                     (MState (skip_prev is_space (Some c) r) (trimStart r) []))
        else None
    | EmptyString => None
    end.
Proof.
  unfold head_match, RPlus, RSpace.
  destruct s as [|c r]; [reflexivity|].
  cbn [rmatch m_rest m_caps]. destruct (is_space c); [|reflexivity].
  rewrite (star_class is_space).
  - now rewrite skip_space.
  - reflexivity.
  - intros st. eauto.
  - cbn. lia.
Qed.

Lemma head_external (prev : option ascii) (s : string) :
  head_match (RLitI "[external]") prev s
  = if starts_ci s "[external]"
    then Some (RResult EmptyString
                 (take (String.length s - String.length (drop 10 s)) s) []
                 (MState (prev_at prev s 10) (drop 10 s) []))
    else None.
Proof. unfold head_match. now rewrite rmatch_literal by discriminate. Qed.

Lemma colon_is_colon (c : ascii) : eqb_ci ":" c = Ascii.eqb ":" c.
Proof. each_char c. Qed.

Lemma starts_ci_colon (p s : string) :
  starts_ci s (p ++ ":")
  = starts_ci s p
    && match drop (String.length p) s with
       | String c _ => Ascii.eqb ":" c
       | EmptyString => false
       end.
Proof.
  revert s; induction p as [|a p IH]; intros s; cbn.
  - destruct s as [|c s]; [reflexivity|]. now rewrite colon_is_colon, andb_true_r.
  - destruct s as [|c s]; [reflexivity|]. rewrite IH. now rewrite andb_assoc.
Qed.

Lemma drop_succ (n : nat) (s : string) :
  drop (S n) s = match drop n s with String _ r => r | EmptyString => EmptyString end.
Proof.
  revert s; induction n as [|n IH]; intros s.
  - now destruct s.
  - destruct s as [|c s]; [reflexivity|]. cbn [drop]. now rewrite <- IH.
Qed.

(** One alternative of the prefix pattern with what follows the
    group: the prefix, a colon, white space. *)
Lemma prefix_alternative {A : Type} (p : string) (s : string)
    (k : mstate -> option A) (wrap : mstate -> mstate) :
  p <> EmptyString ->
  (forall st, exists x, k st = Some x) ->
  (forall st, m_rest (wrap st) = m_rest st) ->
  rmatch (RLitI p) (MState None s [])
    (fun st' => rmatch (RSeq (RLit ":") (RStar true RSpace)) (wrap st') k)
  = if starts_ci s (p ++ ":")
    then match drop (String.length p) s with
         | String c r =>
             k (MState (skip_prev is_space (Some c) r) (trimStart r)
                       (m_caps (wrap (MState (prev_at None s (String.length p))
                                             (drop (String.length p) s) []))))
         | EmptyString => None
         end
    else None.
Proof.
  intros Hp Hk Hw. rewrite rmatch_literal by exact Hp. rewrite starts_ci_colon.
  destruct (starts_ci s p); [|reflexivity]. cbn [andb].
  cbn [RLit rmatch]. rewrite Hw. cbn [m_rest].
  destruct (drop (String.length p) s) as [|c r]; [reflexivity|].
  destruct (Ascii.eqb ":" c); [|reflexivity].
  rewrite (star_class is_space).
  - now rewrite skip_space.
  - reflexivity.
  - exact Hk.
  - cbn. lia.
Qed.

Lemma skip_prev_some (p : ascii -> bool) (s : string) (c : ascii) :
  exists d, skip_prev p (Some c) s = Some d.
Proof.
  revert c; induction s as [|a r IH]; intros c; cbn; [eauto|].
  destruct (p a); [apply IH | eauto].
Qed.

Lemma head_prefix_later (c : ascii) (s : string) :
  head_match reply_prefix_re (Some c) s = None.
Proof. reflexivity. Qed.

(** At the beginning of the input the prefix pattern matches exactly
    when the subject has a prefix, and leaves what
    [strip_reply_prefix] leaves. *)
Lemma head_prefix (s : string) :
  match head_match reply_prefix_re None s with
  | Some res =>
      has_reply_prefix s = true
      /\ r_text res = take (String.length s - String.length (strip_reply_prefix s)) s
      /\ (exists d, m_prev (r_after res) = Some d)
      /\ m_rest (r_after res) = strip_reply_prefix s
  | None => has_reply_prefix s = false /\ strip_reply_prefix s = s
  end.
Proof.
  unfold head_match, reply_prefix_re.
  set (k := fun st' : mstate => Some _).
  assert (Hk : forall st, exists x, k st = Some x) by (intros st; unfold k; eauto).
  set (st0 := MState None s []).
  set (wrap := fun st' : mstate =>
                 MState (m_prev st') (m_rest st')
                        ((1, take (consumed st0 st') (m_rest st0)) :: m_caps st')).
  set (k2 := fun st' : mstate =>
               rmatch (RSeq (RLit ":") (RStar true RSpace)) (wrap st') k).
  change (rmatch _ st0 k)
    with (first_some (rmatch (RLitI "re") st0 k2)
            (first_some (rmatch (RLitI "fwd") st0 k2) (rmatch (RLitI "fw") st0 k2))).
  unfold k2, st0.
  rewrite !(fun p Hp => prefix_alternative p s k wrap Hp Hk (fun st => eq_refl))
    by discriminate.
  unfold has_reply_prefix, strip_reply_prefix.
  change ("re" ++ ":")%string with "re:".
  change ("fwd" ++ ":")%string with "fwd:".
  change ("fw" ++ ":")%string with "fw:".
  assert (tail : forall p,
             starts_ci s (p ++ ":") = true ->
             exists c r, drop (String.length p) s = String c r
                         /\ drop (S (String.length p)) s = r).
  { intros p E. rewrite starts_ci_colon in E. apply andb_true_iff in E as [_ E].
    rewrite drop_succ. destruct (drop (String.length p) s) as [|c r];
      [discriminate | eauto]. }
  destruct (starts_ci s "re:") eqn:E1; [|destruct (starts_ci s "fwd:") eqn:E2;
                                         [|destruct (starts_ci s "fw:") eqn:E3]].
  - destruct (tail "re" E1) as [c [r [D1 D2]]]. cbn [String.length] in *.
    rewrite D1, D2. cbn [first_some]. unfold k; cbn [r_text r_after m_prev m_rest].
    repeat split; try reflexivity. apply skip_prev_some.
  - destruct (tail "fwd" E2) as [c [r [D1 D2]]]. cbn [String.length] in *.
    rewrite D1, D2. cbn [first_some]. unfold k; cbn [r_text r_after m_prev m_rest].
    repeat split; try reflexivity. apply skip_prev_some.
  - destruct (tail "fw" E3) as [c [r [D1 D2]]]. cbn [String.length] in *.
    rewrite D1, D2. cbn [first_some]. unfold k; cbn [r_text r_after m_prev m_rest].
    repeat split; try reflexivity. apply skip_prev_some.
  - now cbn.
Qed.

Lemma take_nonempty (n : nat) (s : string) :
  0 < n -> 0 < String.length s -> exists c t, take n s = String c t.
Proof.
  intros Hn Hs. destruct s as [|c r]; [cbn in Hs; lia|].
  destruct n as [|n]; [lia|]. cbn. eauto.
Qed.

(** The continuation of a global replacement after a match that
    consumed something. *)
Lemma replace_after_match (r : regex) (g : rresult -> string) (f : nat)
    (s : string) (res : rresult) :
  r_text res = take (String.length s - String.length (m_rest (r_after res))) s ->
  String.length (m_rest (r_after res)) < String.length s ->
  match r_text res, m_rest (r_after res) with
  | EmptyString, EmptyString => EmptyString
  | EmptyString, String c s' => String c (replace_from f r g (Some c) s')
  | _, _ => replace_from f r g (m_prev (r_after res)) (m_rest (r_after res))
  end
  = replace_from f r g (m_prev (r_after res)) (m_rest (r_after res)).
Proof.
  intros Ht Hl.
  destruct (take_nonempty (String.length s - String.length (m_rest (r_after res))) s)
    as [c [t E]]; [lia..|].
  now rewrite Ht, E.
Qed.

Lemma erase_prepend (acc : string) (res : rresult) : erase (prepend acc res) = erase res.
Proof. reflexivity. Qed.

Lemma replace_prefix_later (s : string) :
  forall (f : nat) (c : ascii), replace_from f reply_prefix_re erase (Some c) s = s.
Proof.
  induction s as [|d s IH]; intros f c; (destruct f as [|f]; [reflexivity|]);
    rewrite (replace_from_head _ _ _ _ _ erase_prepend), head_prefix_later;
    [reflexivity | now rewrite IH].
Qed.

Lemma strip_shorter (s : string) :
  has_reply_prefix s = true ->
  String.length (strip_reply_prefix s) < String.length s.
Proof.
  unfold has_reply_prefix, strip_reply_prefix. intros H.
  destruct (starts_ci s "re:") eqn:E1; [|destruct (starts_ci s "fwd:") eqn:E2;
                                         [|destruct (starts_ci s "fw:") eqn:E3]];
    [| | |discriminate].
  all: match goal with
       | E : starts_ci ?x _ = true |- context [drop ?n ?x] =>
           apply starts_ci_length in E; cbn in E;
           pose proof (length_trimStart (drop n x)) as L;
           rewrite length_drop in L; lia
       end.
Qed.

Lemma replace_prefix (s : string) :
  replace_all reply_prefix_re erase s = strip_reply_prefix s.
Proof.
  unfold replace_all. rewrite (replace_from_head _ _ _ _ _ erase_prepend).
  pose proof (head_prefix s) as H.
  destruct (head_match reply_prefix_re None s) as [res|].
  - destruct H as [Hp [Ht [[d Hd] Hr]]].
    pose proof (strip_shorter s Hp) as Hl.
    rewrite (replace_after_match _ _ _ s); rewrite ?Hr; try assumption.
    now rewrite Hd, replace_prefix_later.
  - destruct H as [_ Hs]. rewrite Hs.
    destruct s as [|c s]; [reflexivity|]. now rewrite replace_prefix_later.
Qed.

Lemma remove_skip (k : nat) (s : string) :
  remove_external_from k s = remove_external_from 0 (drop k s).
Proof.
  revert s; induction k as [|k IH]; intros s; [reflexivity|].
  destruct s as [|c r]; [reflexivity|]. cbn [remove_external_from drop]. apply IH.
Qed.

Lemma replace_external (n : nat) :
  forall (s : string) (f : nat) (prev : option ascii),
    String.length s <= n -> String.length s < f ->
    replace_from f (RLitI "[external]") erase prev s = remove_external s.
Proof.
  induction n as [|n IH]; intros s f prev Hn Hf;
    (destruct f as [|f]; [lia|]);
    rewrite (replace_from_head _ _ _ _ _ erase_prepend), head_external.
  - destruct s; [reflexivity | cbn in Hn; lia].
  - destruct (starts_ci s "[external]") eqn:E.
    + pose proof (starts_ci_length _ _ E) as L. cbn in L.
      pose proof (length_drop 10 s) as D.
      rewrite (replace_after_match _ _ _ s); cbn [r_text r_after m_rest m_prev];
        [|reflexivity|lia].
      rewrite IH by lia.
      destruct s as [|c r]; [cbn in L; lia|].
      unfold remove_external at 2. cbn [remove_external_from]. rewrite E.
      now rewrite remove_skip.
    + destruct s as [|c r]; [reflexivity|].
      rewrite IH by (cbn in Hn, Hf; lia).
      unfold remove_external at 2. cbn [remove_external_from]. now rewrite E.
Qed.

Lemma collapse_in_run (s : string) :
  collapse_from true s = collapse_from false (trimStart s).
Proof.
  induction s as [|c r IH]; cbn; [reflexivity|].
  destruct (is_space c) eqn:E; [exact IH | cbn; now rewrite E].
Qed.

Lemma replace_spaces (n : nat) :
  forall (s : string) (f : nat) (prev : option ascii),
    String.length s <= n -> String.length s < f ->
    replace_from f (RPlus true RSpace) (fun _ => " ") prev s = collapse_spaces s.
Proof.
  induction n as [|n IH]; intros s f prev Hn Hf;
    (destruct f as [|f]; [lia|]);
    rewrite (replace_from_head (RPlus true RSpace) (fun _ => " ") f prev s
               (fun _ _ => eq_refl)), head_spaces.
  - destruct s; [reflexivity | cbn in Hn; lia].
  - destruct s as [|c r]; [reflexivity|]. cbn in Hn, Hf.
    unfold collapse_spaces. cbn [collapse_from].
    destruct (is_space c).
    + pose proof (length_trimStart r) as L.
      rewrite (replace_after_match _ _ _ (String c r));
        cbn [r_text r_after m_rest m_prev String.length]; [|reflexivity|lia].
      rewrite IH by lia. now rewrite collapse_in_run.
    + now rewrite IH by lia.
Qed.

(** The replacements of [normalizeSubject], run by the matcher, are
    the three string functions. *)
Lemma normalizeSubject_steps (s : string) :
  normalizeSubject s = normalize_steps s.
Proof.
  unfold normalizeSubject, normalize_steps.
  destruct (truthy s); [|reflexivity]. cbn [negb].
  rewrite replace_prefix.
  unfold replace_all.
  rewrite (replace_external (String.length (strip_reply_prefix s))) by lia.
  now rewrite (replace_spaces (String.length (remove_external (strip_reply_prefix s))))
    by lia.
Qed.

(** ** Subject normalization *)

Lemma collapsed_weaken (s : string) :
  collapsed_from true s = true -> collapsed_from false s = true.
Proof.
  destruct s as [|c r]; simpl; [reflexivity|].
  destruct (is_space c); simpl; [discriminate | exact (fun H => H)].
Qed.

Lemma collapse_is_collapsed (s : string) (b : bool) :
  collapsed_from b (collapse_from b s) = true.
Proof.
  revert b; induction s as [|c r IH]; intros b; simpl; [reflexivity|].
  destruct (is_space c) eqn:E.
  - destruct b; [apply IH|]. simpl. apply IH.
  - simpl. rewrite E. apply IH.
Qed.

Lemma collapsed_fixed (s : string) (b : bool) :
  collapsed_from b s = true -> collapse_from b s = s.
Proof.
  revert b; induction s as [|c r IH]; intros b; simpl; [reflexivity|].
  destruct (is_space c).
  - destruct b; simpl; [discriminate|]. intros H.
    apply andb_true_iff in H as [H1 H2].
    apply Ascii.eqb_eq in H1. subst c. now rewrite (IH true H2).
  - intros H. now rewrite (IH false H).
Qed.

Lemma collapsed_no_leading (s : string) :
  collapsed_from true s = true -> no_leading_space s = true.
Proof.
  destruct s as [|c r]; simpl; [reflexivity|].
  destruct (is_space c); simpl; [discriminate | reflexivity].
Qed.

Lemma collapsed_trimStart (s : string) :
  collapsed_from false s = true -> collapsed_from false (trimStart s) = true.
Proof.
  destruct s as [|c r]; simpl; [reflexivity|].
  destruct (is_space c) eqn:E; simpl.
  - intros H. apply andb_true_iff in H as [_ H].
    rewrite (trimStart_fixed r (collapsed_no_leading r H)).
    now apply collapsed_weaken.
  - now rewrite E.
Qed.

Lemma collapsed_trimEnd (s : string) (b : bool) :
  collapsed_from b s = true -> collapsed_from b (trimEnd s) = true.
Proof.
  revert b; induction s as [|c r IH]; intros b; simpl; [reflexivity|].
  destruct (is_space c) eqn:E.
  - intros H. apply andb_true_iff in H as [H1 H2].
    specialize (IH true H2).
    destruct (trimEnd r); simpl; [reflexivity|].
    rewrite E, H1. exact IH.
  - intros H. specialize (IH false H).
    destruct (trimEnd r); simpl; rewrite E; [reflexivity | exact IH].
Qed.

Lemma collapsed_lower (s : string) (b : bool) :
  collapsed_from b (toLowerCase s) = collapsed_from b s.
Proof.
  revert b; induction s as [|c r IH]; intros b; simpl; [reflexivity|].
  rewrite is_space_lower. destruct (is_space c) eqn:E.
  - now rewrite (space_lower_fixed c E), IH.
  - apply IH.
Qed.

Lemma no_prefix_fixed (s : string) :
  has_reply_prefix s = false -> strip_reply_prefix s = s.
Proof.
  unfold has_reply_prefix, strip_reply_prefix. intros H.
  apply orb_false_iff in H as [H H3]. apply orb_false_iff in H as [H1 H2].
  now rewrite H1, H2, H3.
Qed.

Lemma no_external_fixed (s : string) :
  mentions_external s = false -> remove_external s = s.
Proof.
  unfold remove_external.
  induction s as [|c r IH]; [reflexivity|].
  intros H. cbn [mentions_external] in H. apply orb_false_iff in H as [H1 H2].
  cbn [remove_external_from]. rewrite H1. now rewrite (IH H2).
Qed.

(** A normalized subject is a fixed point of the last three steps. *)
Lemma normalized_shape (x : string) :
  let t := toLowerCase (trim (collapse_spaces x)) in
  toLowerCase (trim (collapse_spaces t)) = t.
Proof.
  cbv zeta. unfold collapse_spaces.
  rewrite (collapsed_fixed (toLowerCase (trim (collapse_from false x))) false).
  - now rewrite trim_lower, trim_idem, toLowerCase_idem.
  - rewrite collapsed_lower. unfold trim.
    apply collapsed_trimEnd, collapsed_trimStart, collapse_is_collapsed.
Qed.

Lemma normalize_steps_idempotent (s : string) :
  has_reply_prefix (normalize_steps s) = false ->
  mentions_external (normalize_steps s) = false ->
  normalize_steps (normalize_steps s) = normalize_steps s.
Proof.
  intros Hp He.
  unfold normalize_steps at 1.
  destruct (truthy (normalize_steps s)) eqn:T; simpl.
  - rewrite (no_prefix_fixed _ Hp), (no_external_fixed _ He).
    unfold normalize_steps. destruct (truthy s); simpl; [|reflexivity].
    apply normalized_shape.
  - destruct (normalize_steps s); [reflexivity | discriminate].
Qed.

(** C4, as the specification states it, fails: a second prefix
    survives the first normalization and is removed by the second,
    and so does a tag that the removal of another tag puts together. *)
Lemma C4_not_idempotent :
  normalizeSubject "Re: Fwd: hello" = "fwd: hello"
  /\ normalizeSubject (normalizeSubject "Re: Fwd: hello") = "hello"
  /\ normalizeSubject (normalizeSubject "Re: Fwd: hello")
     <> normalizeSubject "Re: Fwd: hello"
  /\ normalizeSubject "[ext[external]ernal] news" = "[external] news"
  /\ normalizeSubject (normalizeSubject "[ext[external]ernal] news") = "news".
Proof. repeat split; try reflexivity. vm_compute. discriminate. Qed.

(** C4 (amended): normalizing a normalized subject changes nothing
    whenever the normalized subject neither begins with a reply or
    forward prefix nor contains the tag [[external]]. *)
Theorem C4_normalize_idempotent (s : string) :
  has_reply_prefix (normalizeSubject s) = false ->
  mentions_external (normalizeSubject s) = false ->
  normalizeSubject (normalizeSubject s) = normalizeSubject s.
Proof.
  rewrite !normalizeSubject_steps. apply normalize_steps_idempotent.
Qed.

Lemma C4_normalize_idempotent_witness :
  has_reply_prefix (normalizeSubject "RE:  Quarterly   [External] Report ") = false
  /\ mentions_external (normalizeSubject "RE:  Quarterly   [External] Report ") = false
  /\ normalizeSubject (normalizeSubject "RE:  Quarterly   [External] Report ")
     = normalizeSubject "RE:  Quarterly   [External] Report ".
Proof.
  split; [reflexivity|]. split; [reflexivity|].
  apply (C4_normalize_idempotent "RE:  Quarterly   [External] Report "); reflexivity.
Defined.

Lemma trimStart_collapse (s : string) (b : bool) :
  trimStart (collapse_from b s) = collapse_from false (trimStart s).
Proof.
  revert b; induction s as [|c r IH]; intros b; simpl; [reflexivity|].
  destruct (is_space c) eqn:E.
  - destruct b; [apply IH|]. simpl. apply IH.
  - simpl. now rewrite E.
Qed.

Lemma space_no_external (c : ascii) (r : string) :
  is_space c = true -> starts_ci (String c r) "[external]" = false.
Proof.
  destruct c as [[|] [|] [|] [|] [|] [|] [|] [|]]; intros H;
    try discriminate H; reflexivity.
Qed.

Lemma trimStart_remove_external (s : string) :
  trimStart (remove_external (trimStart s)) = trimStart (remove_external s).
Proof.
  unfold remove_external.
  induction s as [|c r IH]; [reflexivity|].
  cbn [trimStart]. destruct (is_space c) eqn:E; [|reflexivity].
  cbn [remove_external_from]. rewrite (space_no_external c r E).
  cbn [trimStart]. now rewrite E.
Qed.

(** Leading white space does not change the outcome of the last four
    steps of the normalization. *)
Lemma leading_space_irrelevant (s : string) :
  toLowerCase (trim (collapse_spaces (remove_external (trimStart s))))
  = toLowerCase (trim (collapse_spaces (remove_external s))).
Proof.
  unfold trim, collapse_spaces.
  now rewrite !trimStart_collapse, trimStart_remove_external.
Qed.

Lemma normalize_after_prefix (s : string) :
  has_reply_prefix s = false ->
  toLowerCase (trim (collapse_spaces (remove_external (trimStart s))))
  = normalize_steps s.
Proof.
  intros H. unfold normalize_steps.
  destruct s as [|c r]; [reflexivity|].
  cbn [truthy negb]. rewrite (no_prefix_fixed _ H).
  apply leading_space_irrelevant.
Qed.

(** C5: the code removes one prefix only. The pattern is anchored at
    the beginning of the subject, so its [g] flag finds no second
    match: of a subject that begins with [Re: Fwd: ] the second prefix
    stays, and the subject is not normalized like the bare one,
    against the comment of [normalizeSubject] (Removes Re:, Fwd:,
    [External], etc.) and the comment of the column
    [normalized_subject] (Subject without Re:, Fwd:, etc.). *)
Lemma C5_repeated_prefix_survives :
  normalizeSubject ("Re: " ++ "Fwd: hello") = "fwd: hello"
  /\ normalizeSubject "Fwd: hello" = "hello"
  /\ normalizeSubject ("Re: " ++ "Fwd: hello") <> normalizeSubject "Fwd: hello".
Proof. repeat split; try reflexivity. vm_compute. discriminate. Qed.

(** What the code does achieve: for every subject that does not
    itself begin with a reply or forward prefix, putting "Re: " or
    "Fwd: " in front of it does not change its normalization. *)
Theorem C5_one_prefix_is_stripped (s : string) :
  has_reply_prefix s = false ->
  normalizeSubject ("Re: " ++ s) = normalizeSubject s
  /\ normalizeSubject s = normalizeSubject ("Fwd: " ++ s).
Proof.
  intros H. rewrite !normalizeSubject_steps.
  split; [|symmetry]; apply (normalize_after_prefix s H).
Qed.

Lemma C5_one_prefix_is_stripped_witness :
  has_reply_prefix "  Project  plan [EXTERNAL]" = false
  /\ normalizeSubject ("Re: " ++ "  Project  plan [EXTERNAL]")
     = normalizeSubject "  Project  plan [EXTERNAL]"
  /\ normalizeSubject "  Project  plan [EXTERNAL]"
     = normalizeSubject ("Fwd: " ++ "  Project  plan [EXTERNAL]").
Proof.
  split; [reflexivity|].
  apply (C5_one_prefix_is_stripped "  Project  plan [EXTERNAL]"); reflexivity.
Defined.

(** ** Classification *)

(** C3, as the specification states it, fails: a sender that matches
    the transactional pattern [notifications?@] also matches the
    notification patterns, which are tried before the marketing
    rule; a subject can match a bounce indicator or a newsletter
    pattern besides a marketing pattern, and those rules come first
    too. *)
Lemma C3_notifier_is_notification :
  some_test transactionalPatterns_from (toLowerCase (from promo_from_notifier)) = true
  /\ some_test marketingPatterns_subject (toLowerCase (subject promo_from_notifier)) = true
  /\ hasListUnsubscribe (headers promo_from_notifier) = true
  /\ hasListPost (headers promo_from_notifier) = false
  /\ classify promo_from_notifier = mkClassification NOTIFICATION 85
  /\ classify (promo_with_subject "Bounce back sale: 50% off")
     = mkClassification BOUNCE 100
  /\ classify (promo_with_subject "Newsletter special: 50% off")
     = mkClassification NEWSLETTER 75.
Proof. vm_compute. repeat split. Qed.

(** C3 (amended): a message whose sender matches a transactional
    sender pattern, whose subject matches a marketing subject pattern,
    whose headers (a plain object) hold List-Unsubscribe and no
    List-Post, and which matches no bounce indicator, no notification
    pattern and no newsletter subject pattern, is classified MARKETING
    with confidence 0.80. *)
Theorem C3_marketing_precedence (email : Message) :
  some_test transactionalPatterns_from (toLowerCase (from email)) = true ->
  some_test marketingPatterns_subject (toLowerCase (subject email)) = true ->
  hasListUnsubscribe (headers email) = true ->
  hasListPost (headers email) = false ->
  isBounce email = false ->
  isNotification email = false ->
  some_test newsletterPatterns_subject (toLowerCase (subject email)) = false ->
  classify email = mkClassification MARKETING 80.
Proof.
  intros _ _ Hu Hp Hb Hn Hs. unfold classify.
  rewrite Hb.
  replace (isTransactional email) with false
    by (unfold isTransactional; rewrite Hu; now rewrite andb_false_r).
  rewrite Hn.
  replace (isNewsletter email) with false
    by (unfold isNewsletter; now rewrite Hu, Hp, Hs).
  replace (isMarketing email) with true
    by (unfold isMarketing; now rewrite Hu).
  reflexivity.
Qed.

Lemma C3_marketing_precedence_witness :
  classify promo_from_noreply = mkClassification MARKETING 80.
Proof. apply (C3_marketing_precedence promo_from_noreply); reflexivity. Defined.

(** ** The SINCE date *)

(** C7: thirty days before 5 February 2026 is the sixth of January,
    and the date handed to the search has a one-digit day:
    [getDate()] is not padded. *)
Theorem C7_since_day_is_not_padded :
  minus_days (mkDate 2026 2 5) 30 = mkDate 2026 1 6
  /\ sinceDateStr (mkDate 2026 2 5) 30 = "6-Jan-2026"
  /\ sinceDateStr (mkDate 2026 2 5) 30 <> "06-Jan-2026".
Proof. repeat split; try reflexivity. vm_compute. discriminate. Qed.

(** ** The SMTP code of a bounce *)

Lemma code_digit_is_word (a : ascii) : one_of "245" a = true -> is_word a = true.
Proof. each_char a. Qed.

Lemma digit_is_word (a : ascii) : is_digit a = true -> is_word a = true.
Proof. unfold is_word. intros ->. now rewrite orb_true_r. Qed.

Lemma three_consumed (n : nat) : S (S (S n)) - n = 3.
Proof. lia. Qed.

(** One attempt of the matcher at one position. *)
Lemma errorCode_re_here (prev : option ascii) (s acc : string) :
  option_map (group 1)
    (rmatch errorCode_re (MState prev s [])
       (fun st' => Some (RResult acc
                           (take (String.length s - String.length (m_rest st')) s)
                           (m_caps st') st')))
  = option_map Some (code_here prev s).
Proof.
  unfold errorCode_re, c245, RDigit.
  cbn [rmatch RSeqs m_rest m_prev m_caps].
  unfold word_before, word_after; cbn [m_rest m_prev m_caps].
  destruct s as [|a [|b [|c r]]]; cbn [m_rest m_prev m_caps String.length].
  1-3: repeat match goal with
              | |- context [if ?b then _ else _] => destruct b
              end; reflexivity.
  unfold code_here, word_char, head, consumed; cbn [m_rest String.length].
  rewrite three_consumed.
  destruct (one_of "245" a) eqn:Ea; [rewrite (code_digit_is_word a Ea)|];
    destruct (is_digit b) eqn:Eb;
    (destruct (is_digit c) eqn:Ec; [try rewrite (digit_is_word c Ec)|]);
    repeat match goal with
           | |- context [match ?x with Some _ => _ | None => _ end] =>
               is_var x; destruct x
           | |- context [match ?x with EmptyString => _ | String _ _ => _ end] =>
               is_var x; destruct x
           | |- context [is_word ?x] => destruct (is_word x)
           end; reflexivity.
Qed.

Lemma search_errorCode (s : string) (prev : option ascii) (acc : string) :
  match search_from errorCode_re prev s acc with
  | Some res => group 1 res
  | None => None
  end = first_code prev s.
Proof.
  revert prev acc; induction s as [|c r IH]; intros prev acc.
  - cbn [search_from first_code].
    pose proof (errorCode_re_here prev EmptyString acc) as H.
    destruct (rmatch errorCode_re _ _) as [res|];
      destruct (code_here prev EmptyString); cbn in H; try discriminate;
      [now injection H | reflexivity].
  - cbn [search_from first_code].
    pose proof (errorCode_re_here prev (String c r) acc) as H.
    destruct (rmatch errorCode_re _ _) as [res|];
      destruct (code_here prev (String c r)); cbn in H; try discriminate;
      [now injection H | apply IH].
Qed.

Lemma extractErrorCode_first (body : string) :
  extractErrorCode body = first_code None body.
Proof.
  unfold extractErrorCode, exec.
  rewrite <- (search_errorCode body None EmptyString).
  now destruct (search_from errorCode_re None body EmptyString).
Qed.

Lemma code_off_next (prev : option ascii) (c : ascii) (r : string) (i : nat) :
  code_off prev (String c r) (S i) = code_off (Some c) r i.
Proof. unfold code_off. now destruct i. Qed.

Lemma first_code_some (s : string) (prev : option ascii) (code : string) :
  first_code prev s = Some code <->
  exists i, code_off prev s i = Some code
            /\ forall j, j < i -> code_off prev s j = None.
Proof.
  revert prev; induction s as [|c r IH]; intros prev.
  - cbn. split; [destruct prev as [p|]; cbn; discriminate|].
    intros [i [H _]]. unfold code_off in H. destruct i; cbn in H; discriminate.
  - cbn [first_code].
    destruct (code_here prev (String c r)) as [x|] eqn:E.
    + split.
      * intros H. exists 0. split; [exact (eq_trans E H) | intros j Hj; lia].
      * intros [i [Hi Hmin]]. destruct i as [|i].
        -- unfold code_off in Hi. cbn [drop] in Hi. now rewrite <- E, Hi.
        -- specialize (Hmin 0 (Nat.lt_0_succ i)). unfold code_off in Hmin.
           cbn [drop] in Hmin. rewrite E in Hmin. discriminate.
    + rewrite IH. split.
      * intros [i [Hi Hmin]]. exists (S i). split; [now rewrite code_off_next|].
        intros [|j] Hj; [exact E|]. rewrite code_off_next. apply Hmin. lia.
      * intros [i [Hi Hmin]]. destruct i as [|i].
        -- unfold code_off in Hi. cbn [drop] in Hi. rewrite E in Hi. discriminate.
        -- exists i. split; [now rewrite <- (code_off_next prev)|].
           intros j Hj. rewrite <- (code_off_next prev). apply Hmin. lia.
Qed.

Lemma first_code_none (s : string) (prev : option ascii) :
  first_code prev s = None <-> forall i, code_off prev s i = None.
Proof.
  revert prev; induction s as [|c r IH]; intros prev.
  - cbn. split; [|destruct prev as [p|]; reflexivity].
    intros _ i. unfold code_off. destruct i; cbn; [|reflexivity].
    destruct prev; reflexivity.
  - cbn [first_code].
    destruct (code_here prev (String c r)) as [x|] eqn:E.
    + split; [discriminate|]. intros H. specialize (H 0).
      unfold code_off in H. cbn [drop] in H. rewrite E in H. discriminate.
    + rewrite IH. split.
      * intros H [|i]; [exact E | rewrite code_off_next; apply H].
      * intros H i. rewrite <- (code_off_next prev). apply H.
Qed.

Lemma code_here_length (prev : option ascii) (s code : string) :
  code_here prev s = Some code -> String.length code = 3.
Proof.
  destruct s as [|a [|b [|c r]]]; cbn; try discriminate.
  destruct (_ && _); [|discriminate]. now intros [= <-].
Qed.

(** C6, as the specification states it, fails: the pattern of the
    source is [\b([245]\d{2})\b], so digits inside a longer word are
    not a code. *)
Lemma C6_digits_inside_a_word :
  test (RSeqs [c245; RDigit; RDigit]) "Error5501 mailbox unavailable" = true
  /\ errorCode (parseBounce (bounce_with_body "Error5501 mailbox unavailable"))
     = "UNKNOWN"
  /\ option_map r_text (exec (RSeqs [c245; RDigit; RDigit]) "ref 12345: 550 rejected")
     = Some "234"
  /\ errorCode (parseBounce (bounce_with_body "ref 12345: 550 rejected")) = "550".
Proof. vm_compute. repeat split. Qed.

(** C6 (amended): the extracted SMTP code is the first three-digit
    token of the body that begins with 2, 4 or 5 and has a word
    boundary on either side, and it is "UNKNOWN" exactly when the body
    has no such token. *)
Theorem C6_first_bounded_code (email : Message) :
  (forall code,
      extractErrorCode (body email) = Some code <->
      exists i, code_at (body email) i = Some code
                /\ forall j, j < i -> code_at (body email) j = None)
  /\ (forall code,
         extractErrorCode (body email) = Some code ->
         errorCode (parseBounce email) = code)
  /\ (errorCode (parseBounce email) = "UNKNOWN" <->
      forall i, code_at (body email) i = None).
Proof.
  split; [|split].
  - intros code. rewrite extractErrorCode_first. apply first_code_some.
  - intros code H. unfold parseBounce. cbn [errorCode]. now rewrite H.
  - unfold parseBounce. cbn [errorCode]. rewrite extractErrorCode_first.
    destruct (first_code None (body email)) as [c|] eqn:E.
    + split.
      * intros ->. apply first_code_some in E as [i [Hi _]].
        apply code_here_length in Hi. discriminate.
      * intros H. apply first_code_none in H. rewrite H in E. discriminate.
    + split; [|reflexivity]. intros _. now apply first_code_none.
Qed.

(** ** The batch limit of the fetcher *)

Lemma fetchLoop_bound (now b : Z) (stream : list ServerEvent) :
  forall (messages : list Message) (fetchCount : Z) (msgs : list Message),
    fetchCount = Z.of_nat (List.length messages) ->
    (fetchCount <= b)%Z ->
    fetchLoop now b stream messages fetchCount = Ok msgs ->
    (Z.of_nat (List.length msgs) <= b)%Z.
Proof.
  induction stream as [|ev rest IH]; intros messages fetchCount msgs Hc Hb; cbn.
  - intros [= <-]. lia.
  - destruct ev as [m|e]; [|discriminate].
    destruct (Z.leb_spec b fetchCount) as [Hge|Hlt].
    + intros [= <-]. lia.
    + destruct (sm_parsed m) as [parsed|]; [|now apply IH].
      apply IH; [|lia]. rewrite length_app. cbn. lia.
Qed.

(** What the loop returns on a stream that does not break: the first
    messages that parse, as many as the batch still has room for. *)
Lemma fetchLoop_yields (now b : Z) (sms : list ServerMessage) :
  forall (messages : list Message) (fetchCount : Z),
    (fetchCount <= b)%Z ->
    fetchLoop now b (map Yield sms) messages fetchCount
    = Ok (messages ++ firstn (Z.to_nat (b - fetchCount)) (parsed_of now sms)).
Proof.
  induction sms as [|sm rest IH]; intros messages fetchCount Hb; cbn.
  - now rewrite firstn_nil, app_nil_r.
  - destruct (Z.leb_spec b fetchCount) as [Hge|Hlt].
    + replace (b - fetchCount)%Z with 0%Z by lia. cbn. now rewrite app_nil_r.
    + destruct (sm_parsed sm) as [parsed|]; cbn [app]; [|now apply IH].
      rewrite IH by lia.
      replace (Z.to_nat (b - fetchCount)) with (S (Z.to_nat (b - (fetchCount + 1))))
        by lia.
      cbn [firstn]. now rewrite <- app_assoc.
Qed.

(** C9: a call returns at most as many messages as its batch size
    (the option, or else the configured default), and when exactly one
    more message than the batch size qualifies and parses, exactly the
    batch size. *)
Theorem C9_batch_limit (penv : ProcessEnv) (server : ImapServer) (today : Date)
    (now : Z) (connected : bool) (lastUid : Z) (options : FetchOptions) :
  (0 <= batchSize_of penv options)%Z ->
  (forall msgs,
      fetchNewMessages penv server today now connected lastUid options = Ok msgs ->
      (Z.of_nat (List.length msgs) <= batchSize_of penv options)%Z)
  /\ (forall sms,
         connected = true ->
         open_error server = None ->
         (forall criteria, inbox server criteria = map Yield sms) ->
         Z.of_nat (List.length (parsed_of now sms)) = (batchSize_of penv options + 1)%Z ->
         exists msgs,
           fetchNewMessages penv server today now connected lastUid options = Ok msgs
           /\ Z.of_nat (List.length msgs) = batchSize_of penv options).
Proof.
  intros Hb. split.
  - intros msgs. unfold fetchNewMessages.
    destruct connected; [|discriminate]. cbn [negb].
    destruct (open_error server); [discriminate|].
    now apply fetchLoop_bound.
  - intros sms -> Ho Hs Hn. unfold fetchNewMessages. cbn [negb].
    rewrite Ho, Hs, fetchLoop_yields by exact Hb.
    eexists. split; [reflexivity|]. cbn [app].
    rewrite length_firstn. lia.
Qed.

(** ** The monad of a cycle *)

Section Cycle.

Variable env : Env.

Lemma keeps_ret {A X : Type} (part : DB -> X) (a : A) : keeps part (ret a).
Proof. intros w. reflexivity. Qed.

Lemma keeps_throw {A X : Type} (part : DB -> X) (e : string) :
  keeps part (@throw A e).
Proof. intros w. reflexivity. Qed.

Lemma keeps_bind {A B X : Type} (part : DB -> X) (m : M A) (k : A -> M B) :
  keeps part m -> (forall a, keeps part (k a)) -> keeps part (bind m k).
Proof.
  intros Hm Hk w. unfold bind. specialize (Hm w).
  destruct (m w) as [[a|e] w']; cbn in *; [|exact Hm].
  now rewrite Hk.
Qed.

Lemma keeps_try_catch {A X : Type} (part : DB -> X) (m : M A) (h : string -> M A) :
  keeps part m -> (forall e, keeps part (h e)) -> keeps part (try_catch m h).
Proof.
  intros Hm Hh w. unfold try_catch. specialize (Hm w).
  destruct (m w) as [[a|e] w']; cbn in *; [exact Hm|].
  now rewrite Hh.
Qed.

Lemma keeps_supabase {A X : Type} (part : DB -> X) (request : Request)
    (run : DB -> Reply A * DB) :
  (forall d, part (snd (run d)) = part d) -> keeps part (supabase env request run).
Proof.
  intros H w. unfold supabase.
  destruct (faults env (tick w) request); [|reflexivity..].
  specialize (H (db w)). now destruct (run (db w)).
Qed.

Lemma keeps_now {X : Type} (part : DB -> X) : keeps part (now env).
Proof. intros w. reflexivity. Qed.

Lemma keeps_sync {A X : Type} (part : DB -> X) (r : option A) : keeps part (sync r).
Proof. intros w. now destruct r. Qed.

Lemma keeps_set_client {X : Type} (part : DB -> X) (c : ClientState) :
  keeps part (set_client c).
Proof. intros w. reflexivity. Qed.

Lemma keeps_lift {A X : Type} (part : DB -> X) (r : Result A) : keeps part (lift r).
Proof. intros w. reflexivity. Qed.

Lemma keeps_fetch {X : Type} (part : DB -> X) (lastUid : Z) (options : FetchOptions) :
  keeps part (fetch env lastUid options).
Proof. intros w. reflexivity. Qed.

Lemma keeps_connect {X : Type} (part : DB -> X) : keeps part (connect env).
Proof. intros w. unfold connect. now destruct (connect_error (server env)). Qed.

(** A [catch] that returns makes the whole [try] return. *)
Lemma returns_try_catch {A : Type} (m : M A) (a : A) :
  returns (try_catch m (fun _ => ret a)).
Proof.
  intros w. unfold try_catch.
  destruct (m w) as [[x|e] w']; cbn; eauto.
Qed.

Lemma supabase_succeeds {A : Type} (request : Request) (run : DB -> Reply A * DB)
    (w : World) :
  faults env (tick w) request = Succeeds ->
  supabase env request run w
  = (Ok (fst (run (db w))), mkWorld (snd (run (db w))) (S (tick w)) (imapClient w)).
Proof.
  intros H. unfold supabase. rewrite H. now destruct (run (db w)).
Qed.

(** Breaks a computation down to its requests, each of which is to
    leave the part of the store alone. *)
Ltac keeps_step :=
  first
    [ apply keeps_ret | apply keeps_throw | apply keeps_now | apply keeps_sync
    | apply keeps_set_client | apply keeps_lift | apply keeps_fetch
    | apply keeps_connect
    | apply keeps_supabase; intros ?;
      first [ reflexivity
            | unfold insert_email;
              match goal with |- context [if ?b then _ else _] => destruct b end;
              reflexivity ]
    | apply keeps_bind; [|intros ?]
    | apply keeps_try_catch; [|intros ?]
    | match goal with
      | |- keeps _ (match ?x with _ => _ end) => destruct x
      | |- keeps _ (let (_, _) := ?x in _) => destruct x
      end ].

Lemma createThread_keeps_emails (mailboxId userId : uuid) (email : ThreadInput)
    (n : string) : keeps emails (createThread env mailboxId userId email n).
Proof. unfold createThread. repeat keeps_step. Qed.

Lemma createThread_keeps_mailboxes (mailboxId userId : uuid) (email : ThreadInput)
    (n : string) : keeps mailboxes (createThread env mailboxId userId email n).
Proof. unfold createThread. repeat keeps_step. Qed.

Lemma findOrCreateThread_keeps_emails (mailboxId userId : uuid) (email : ThreadInput) :
  keeps emails (findOrCreateThread env mailboxId userId email).
Proof.
  unfold findOrCreateThread, byReferences, bySubject.
  repeat first [apply createThread_keeps_emails | keeps_step].
Qed.

Lemma findOrCreateThread_keeps_mailboxes (mailboxId userId : uuid)
    (email : ThreadInput) :
  keeps mailboxes (findOrCreateThread env mailboxId userId email).
Proof.
  unfold findOrCreateThread, byReferences, bySubject.
  repeat first [apply createThread_keeps_mailboxes | keeps_step].
Qed.

Lemma updateThreadStats_keeps_emails (threadId : uuid) :
  keeps emails (updateThreadStats env threadId).
Proof. unfold updateThreadStats. repeat keeps_step. Qed.

Lemma updateThreadStats_keeps_mailboxes (threadId : uuid) :
  keeps mailboxes (updateThreadStats env threadId).
Proof. unfold updateThreadStats. repeat keeps_step. Qed.

Lemma processBounce_keeps_emails (mailboxId userId : uuid) (message : Message)
    (bounceData : BounceData) :
  keeps emails (processBounce env mailboxId userId message bounceData).
Proof. unfold processBounce, recordBounceEvent. repeat keeps_step. Qed.

Lemma processBounce_keeps_mailboxes (mailboxId userId : uuid) (message : Message)
    (bounceData : BounceData) :
  keeps mailboxes (processBounce env mailboxId userId message bounceData).
Proof. unfold processBounce, recordBounceEvent. repeat keeps_step. Qed.

Lemma processMessage_keeps_mailboxes (mailbox : MailboxRow) (message : Message) :
  keeps mailboxes (processMessage env mailbox message).
Proof.
  unfold processMessage.
  repeat first [ apply findOrCreateThread_keeps_mailboxes
               | apply updateThreadStats_keeps_mailboxes
               | apply processBounce_keeps_mailboxes
               | keeps_step ].
Qed.

Lemma disconnect_db (w : World) : db (disconnect w) = db w.
Proof. unfold disconnect. now destruct (imapClient w) as [|[c|]]. Qed.

Lemma max_step (maxUid u : Z) :
  (if (maxUid <? u)%Z then u else maxUid) = Z.max maxUid u.
Proof. destruct (Z.ltb_spec maxUid u); lia. Qed.

Lemma run_returns {A : Type} (m : M A) (w : World) :
  returns m -> exists a w', m w = (Ok a, w').
Proof.
  intros H. destruct (H w) as [a Ha].
  destruct (m w) as [r w'] eqn:E. cbn in Ha. subst r. eauto.
Qed.

(** The loop returns the largest UID it has seen, whatever became of
    the messages, and does not touch the mailbox rows. *)
Lemma processMessages_maxUid (mailbox : MailboxRow) (messages : list Message) :
  forall (maxUid : Z) (w : World),
  exists w',
    processMessages env mailbox messages maxUid w
    = (Ok (batch_max maxUid messages), w')
    /\ mailboxes (db w') = mailboxes (db w).
Proof.
  induction messages as [|message rest IH]; intros maxUid w.
  - exists w. split; reflexivity.
  - cbn [processMessages]. rewrite max_step.
    set (step := try_catch _ _).
    assert (Hk : keeps mailboxes step).
    { unfold step.
      repeat first [apply processMessage_keeps_mailboxes | keeps_step]. }
    destruct (run_returns step w) as [[] [w1 E1]];
      [apply returns_try_catch|].
    specialize (Hk w). rewrite E1 in Hk. cbn in Hk.
    destruct (IH (Z.max maxUid (uid message)) w1) as [w2 [E2 K2]].
    exists w2. unfold bind. rewrite E1, E2. split; [reflexivity|].
    now rewrite K2.
Qed.

(** C1, as the specification states it, fails: in scenario S5 the
    rows of UIDs 10 and 12 are stored, the row of UID 11 is refused,
    and the checkpoint after the cycle is 12. *)
Lemma C1_checkpoint_passes_failed_uid :
  fst (processMailbox S5_env 1 world_before) = Ok tt
  /\ map e_uid (emails (db (snd (processMailbox S5_env 1 world_before))))
     = [10; 12]%Z
  /\ map mb_last_synced_uid
         (mailboxes (db (snd (processMailbox S5_env 1 world_before))))
     = [12%Z].
Proof. vm_compute. repeat split. Qed.

(** C1 (amended): in every cycle that fetches a batch, whichever of
    its messages fail to be persisted, the checkpoint written at the
    end is the largest UID of the whole batch (or the former
    checkpoint when that is larger). *)
Theorem C1_checkpoint_is_batch_maximum (mailboxId : uuid) (w : World)
    (mailbox : MailboxRow) (password : string) (messages : list Message) :
  faults env (tick w) (SelectMailbox mailboxId) = Succeeds ->
  fst (select_active_mailbox mailboxId (db w)) = Data mailbox ->
  decrypt env (mb_imap_password_encrypted mailbox) = Ok password ->
  connect_error (server env) = None ->
  fetched env w (mb_last_synced_uid mailbox) = Ok messages ->
  messages <> [] ->
  (forall n, faults env n (UpdateMailbox mailboxId) = Succeeds) ->
  exists w' t,
    processMailbox env mailboxId w = (Ok tt, w')
    /\ mailboxes (db w')
       = map (fun r => if mb_id r =? mailboxId
                       then checkpoint (batch_max (mb_last_synced_uid mailbox) messages) t r
                       else r)
             (mailboxes (db w)).
Proof.
  intros Hsel Hrow Hdec Hcon Hfetch Hne Hupd.
  unfold processMailbox, try_finally, try_catch.
  unfold bind at 1. rewrite (supabase_succeeds _ _ _ Hsel), Hrow.
  change (snd (select_active_mailbox mailboxId (db w))) with (db w).
  unfold bind at 1. unfold lift at 1. rewrite Hdec.
  unfold bind at 1. unfold set_client at 1.
  unfold bind at 1. unfold connect. rewrite Hcon. unfold set_client at 1.
  unfold bind at 1. unfold fetch at 1. cbn [imapClient tick db snd].
  unfold fetched in Hfetch. rewrite Hfetch.
  destruct messages as [|m rest]; [contradiction|].
  unfold bind at 1.
  destruct (processMessages_maxUid mailbox (m :: rest) (mb_last_synced_uid mailbox)
              (mkWorld (db w) (S (tick w)) (Client (Some true))))
    as [w1 [E1 K1]].
  rewrite E1. unfold bind at 1. unfold now at 1.
  unfold bind at 1. rewrite (supabase_succeeds _ _ _ (Hupd (tick w1))).
  cbn [ret fst snd update_mailbox db].
  eexists. exists (clock env (tick w1)). split; [reflexivity|].
  rewrite disconnect_db. cbn [db set_mailboxes mailboxes] in *. now rewrite K1.
Qed.

(** C8: a cycle that finds no message returns before the only update
    of the mailbox row, so [last_synced_at] keeps its value, here
    none, although the cycle succeeded; the migration that adds the
    column documents it as the timestamp of the last successful
    sync. *)
Lemma C8_empty_cycle_leaves_last_synced_at :
  fetched quiet_env world_before 9 = Ok []
  /\ map mb_last_synced_at (mailboxes store_before) = [None]
  /\ map mb_last_synced_at
         (mailboxes (db (snd (processMailbox quiet_env 1 world_before))))
     = [None].
Proof. vm_compute. repeat split. Qed.

(** What the code does: in every cycle in which the fetcher returns
    zero messages, the coordinator returns without a write: the store
    is as it was, [last_synced_uid] and [last_synced_at] included, and
    only the connection is closed. *)
Theorem C8_empty_fetch_writes_nothing (mailboxId : uuid) (w : World)
    (mailbox : MailboxRow) (password : string) :
  faults env (tick w) (SelectMailbox mailboxId) = Succeeds ->
  fst (select_active_mailbox mailboxId (db w)) = Data mailbox ->
  decrypt env (mb_imap_password_encrypted mailbox) = Ok password ->
  connect_error (server env) = None ->
  fetched env w (mb_last_synced_uid mailbox) = Ok [] ->
  processMailbox env mailboxId w
  = (Ok tt, mkWorld (db w) (S (tick w)) (Client None)).
Proof.
  intros Hsel Hrow Hdec Hcon Hfetch.
  unfold processMailbox, try_finally, try_catch.
  unfold bind at 1. rewrite (supabase_succeeds _ _ _ Hsel), Hrow.
  change (snd (select_active_mailbox mailboxId (db w))) with (db w).
  unfold bind at 1. unfold lift at 1. rewrite Hdec.
  unfold bind at 1. unfold set_client at 1.
  unfold bind at 1. unfold connect. rewrite Hcon. unfold set_client at 1.
  unfold bind at 1. unfold fetch at 1. cbn [imapClient tick db snd].
  unfold fetched in Hfetch. rewrite Hfetch.
  reflexivity.
Qed.

(** ** The dedup guard *)

Lemma filter_none {A : Type} (f : A -> bool) (l : list A) :
  (forall x, In x l -> f x = false) -> filter f l = [].
Proof.
  induction l as [|a l IH]; intros H; cbn; [reflexivity|].
  rewrite (H a (or_introl eq_refl)). apply IH. intros x Hx. apply H. now right.
Qed.

Lemma key_test (m : uuid) (u : Z) (r : EmailRow) :
  (e_mailbox_id r =? m) && (e_uid r =? u)%Z = true
  <-> (e_mailbox_id r, e_uid r) = (m, u).
Proof.
  rewrite andb_true_iff, Nat.eqb_eq, Z.eqb_eq. split.
  - now intros [-> ->].
  - now intros [= -> ->].
Qed.

(** Under the unique constraint the lookup by UID finds the row, and
    only it. *)
Lemma lookup_finds (d : DB) (m : uuid) (u : Z) :
  unique_uids d -> has_email d m u ->
  exists row,
    filter (fun r => (e_mailbox_id r =? m) && (e_uid r =? u)%Z) (emails d) = [row].
Proof.
  unfold unique_uids, has_email. intros Hu [row [Hin [Hm Hk]]].
  induction (emails d) as [|a l IH]; [contradiction|].
  cbn [map] in Hu. apply NoDup_cons_iff in Hu as [Hna Hl].
  cbn [filter].
  destruct ((e_mailbox_id a =? m) && (e_uid a =? u)%Z) eqn:E.
  - exists a. f_equal. apply filter_none. intros x Hx.
    destruct ((e_mailbox_id x =? m) && (e_uid x =? u)%Z) eqn:Ex; [|reflexivity].
    exfalso. apply Hna. apply key_test in E. apply key_test in Ex.
    rewrite E, <- Ex. now apply (in_map (fun r => (e_mailbox_id r, e_uid r))).
  - destruct Hin as [<-|Hin].
    + exfalso. assert (H : (e_mailbox_id a =? m) && (e_uid a =? u)%Z = true)
        by (apply key_test; now rewrite Hm, Hk).
      rewrite H in E. discriminate.
    + now apply IH.
Qed.

Lemma processMessage_duplicate (mailbox : MailboxRow) (message : Message) (w : World) :
  faults env (tick w) (SelectEmailByUid (mb_id mailbox) (uid message)) = Succeeds ->
  unique_uids (db w) ->
  has_email (db w) (mb_id mailbox) (uid message) ->
  processMessage env mailbox message w
  = (Ok tt, mkWorld (db w) (S (tick w)) (imapClient w)).
Proof.
  intros Hf Hu He.
  destruct (lookup_finds _ _ _ Hu He) as [row Hrow].
  unfold processMessage, try_catch. unfold bind at 1.
  rewrite (supabase_succeeds _ _ _ Hf).
  unfold select_email_by_uid. cbn [fst snd]. rewrite Hrow. reflexivity.
Qed.

Lemma processMessages_duplicates (mailbox : MailboxRow) :
  (forall n u, faults env n (SelectEmailByUid (mb_id mailbox) u) = Succeeds) ->
  forall messages maxUid w,
    unique_uids (db w) ->
    (forall message, In message messages ->
                     has_email (db w) (mb_id mailbox) (uid message)) ->
    exists w',
      processMessages env mailbox messages maxUid w
      = (Ok (batch_max maxUid messages), w')
      /\ db w' = db w.
Proof.
  intros Hf.
  induction messages as [|message rest IH]; intros maxUid w Hu Hall.
  - exists w. split; reflexivity.
  - cbn [processMessages]. rewrite max_step.
    unfold bind at 1. unfold try_catch at 1. unfold bind at 1.
    rewrite (processMessage_duplicate mailbox message w (Hf _ _) Hu
               (Hall message (or_introl eq_refl))).
    set (w1 := mkWorld (db w) (S (tick w)) (imapClient w)).
    destruct (IH (Z.max maxUid (uid message)) w1 Hu
                (fun m Hm => Hall m (or_intror Hm))) as [w2 [E2 K2]].
    exists w2. split; [|exact K2].
    unfold bind, sync. destruct (isBounceMessage message); exact E2.
Qed.

Lemma selected_id (mailboxId : uuid) (d : DB) (mailbox : MailboxRow) :
  fst (select_active_mailbox mailboxId d) = Data mailbox -> mb_id mailbox = mailboxId.
Proof.
  unfold select_active_mailbox, single. cbn [fst].
  destruct (filter _ (mailboxes d)) as [|row [|row' rest]] eqn:E; try discriminate.
  intros [= <-].
  assert (H : In row (filter (fun r => (mb_id r =? mailboxId)
                                       && status_eqb (mb_status r) ACTIVE)
                             (mailboxes d))) by (rewrite E; now left).
  apply filter_In in H as [_ H]. apply andb_true_iff in H as [H _].
  now apply Nat.eqb_eq.
Qed.

(** What is left of a cycle once the batch has been processed, and
    what its [catch] does, write mailbox rows only. *)
Lemma closing_keeps_ingested (mailboxId : uuid) (maxUid : Z) :
  keeps ingested
    (t <- now env;;
     _ <- supabase env (UpdateMailbox mailboxId)
            (update_mailbox mailboxId (checkpoint maxUid t));;
     ret tt).
Proof. repeat keeps_step. Qed.

Lemma handler_keeps_ingested (mailboxId : uuid) (error : string) :
  keeps ingested
    (try_catch
       (_ <- supabase env (UpdateMailbox mailboxId)
               (update_mailbox mailboxId (mark_error error));;
        ret tt)
       (fun _ => ret tt)).
Proof. repeat keeps_step. Qed.

(** A cycle over messages that are all stored already writes no
    Email, thread, aggregate or event. *)
Lemma processMailbox_rerun (mailboxId : uuid) (w : World) :
  (forall n u, faults env n (SelectEmailByUid mailboxId u) = Succeeds) ->
  unique_uids (db w) ->
  (forall lastUid messages,
      fetched env w lastUid = Ok messages ->
      forall message, In message messages ->
                      has_email (db w) mailboxId (uid message)) ->
  ingested (db (snd (processMailbox env mailboxId w))) = ingested (db w).
Proof.
  intros Hf Hu Hall.
  unfold processMailbox, try_finally.
  match goal with |- context [let (_, _) := try_catch ?m ?h w in _] =>
    set (body := m); set (handler := h) end.
  assert (Hbody : ingested (db (snd (body w))) = ingested (db w)).
  { unfold body. unfold bind at 1. unfold supabase at 1.
    destruct (faults env (tick w) (SelectMailbox mailboxId)); [|reflexivity..].
    destruct (select_active_mailbox mailboxId (db w)) as [r d] eqn:Es.
    assert (Hd : d = db w) by (unfold select_active_mailbox in Es; now injection Es).
    subst d. destruct r as [mailbox|e]; [|reflexivity].
    assert (Hid : mb_id mailbox = mailboxId) by (apply (selected_id _ (db w)); now rewrite Es).
    unfold bind at 1. unfold lift at 1.
    destruct (decrypt env (mb_imap_password_encrypted mailbox)); [|reflexivity].
    unfold bind at 1. unfold set_client at 1.
    unfold bind at 1. unfold connect.
    destruct (connect_error (server env)); [reflexivity|].
    unfold set_client at 1. unfold bind at 1. unfold fetch at 1.
    cbn [imapClient tick db].
    destruct (fetchNewMessages _ _ _ _ _ _ _) as [messages|e] eqn:Ef; [|reflexivity].
    destruct messages as [|m rest]; [reflexivity|].
    unfold bind at 1.
    destruct (processMessages_duplicates mailbox
                ltac:(rewrite Hid; exact Hf) (m :: rest) (mb_last_synced_uid mailbox)
                (mkWorld (db w) (S (tick w)) (Client (Some true))) Hu
                ltac:(rewrite Hid; exact (Hall _ _ Ef)))
      as [w2 [E2 K2]].
    rewrite E2.
    rewrite (closing_keeps_ingested mailboxId _ w2). now rewrite K2. }
  unfold try_catch. destruct (body w) as [[[]|e] w1]; cbn [snd] in *.
  - now rewrite disconnect_db.
  - pose proof (handler_keeps_ingested mailboxId e w1) as Hh.
    unfold handler. destruct (try_catch _ _ w1) as [r w2]. cbn [snd] in *.
    rewrite disconnect_db. now rewrite Hh.
Qed.

(** C2: when the mailbox already has an Email row for the UID of a
    message and the store answers the lookup, processing the message
    again leaves the whole store as it was -- no Email row, no thread
    update, no bounce aggregate, no bounce event --, and so do the
    loop of a cycle over a batch of such messages and, but for the
    mailbox row, the cycle itself. *)
Theorem C2_ingest_is_idempotent (mailbox : MailboxRow) :
  (forall n u, faults env n (SelectEmailByUid (mb_id mailbox) u) = Succeeds) ->
  (forall message w,
      unique_uids (db w) ->
      has_email (db w) (mb_id mailbox) (uid message) ->
      processMessage env mailbox message w
      = (Ok tt, mkWorld (db w) (S (tick w)) (imapClient w)))
  /\ (forall messages maxUid w,
         unique_uids (db w) ->
         (forall message, In message messages ->
                          has_email (db w) (mb_id mailbox) (uid message)) ->
         exists w',
           processMessages env mailbox messages maxUid w
           = (Ok (batch_max maxUid messages), w')
           /\ db w' = db w)
  /\ (forall w,
         unique_uids (db w) ->
         (forall lastUid messages,
             fetched env w lastUid = Ok messages ->
             forall message, In message messages ->
                             has_email (db w) (mb_id mailbox) (uid message)) ->
         ingested (db (snd (processMailbox env (mb_id mailbox) w)))
         = ingested (db w)).
Proof.
  intros Hf. split; [|split].
  - intros message w. apply processMessage_duplicate, Hf.
  - now apply processMessages_duplicates.
  - intros w. now apply processMailbox_rerun.
Qed.

(** ** The unique constraint is an invariant of a cycle *)

Lemma maintains_keeps {A : Type} (m : M A) :
  keeps emails m -> maintains unique_uids m.
Proof. intros H w. unfold unique_uids. now rewrite H. Qed.

Lemma maintains_bind {A B : Type} (inv : DB -> Prop) (m : M A) (k : A -> M B) :
  maintains inv m -> (forall a, maintains inv (k a)) -> maintains inv (bind m k).
Proof.
  intros Hm Hk w Hw. unfold bind. specialize (Hm w Hw).
  destruct (m w) as [[a|e] w']; cbn in *; [|exact Hm].
  now apply Hk.
Qed.

Lemma maintains_try_catch {A : Type} (inv : DB -> Prop) (m : M A) (h : string -> M A) :
  maintains inv m -> (forall e, maintains inv (h e)) -> maintains inv (try_catch m h).
Proof.
  intros Hm Hh w Hw. unfold try_catch. specialize (Hm w Hw).
  destruct (m w) as [[a|e] w']; cbn in *; [exact Hm|].
  now apply Hh.
Qed.

Lemma maintains_supabase {A : Type} (inv : DB -> Prop) (request : Request)
    (run : DB -> Reply A * DB) :
  (forall d, inv d -> inv (snd (run d))) -> maintains inv (supabase env request run).
Proof.
  intros H w Hw. unfold supabase.
  destruct (faults env (tick w) request); [|exact Hw..].
  specialize (H (db w) Hw). now destruct (run (db w)).
Qed.

(** The store refuses a row that would break the constraint. *)
Lemma insert_email_unique (row : uuid -> EmailRow) (d : DB) :
  unique_uids d -> unique_uids (snd (insert_email row d)).
Proof.
  unfold insert_email, unique_uids. intros H.
  destruct (violates_unique (row (next_id d)) d) eqn:E; [exact H|].
  cbn [snd emails]. rewrite map_app. cbn [map].
  apply NoDup_app; [exact H | constructor; [intros [] | constructor] |].
  intros key Hin [<-|[]]. apply in_map_iff in Hin as [r [Hr Hin]].
  unfold violates_unique in E.
  apply not_true_iff_false in E. apply E.
  apply existsb_exists. exists r. split; [exact Hin|].
  injection Hr as H1 H2. now rewrite H1, H2, Nat.eqb_refl, Z.eqb_refl.
Qed.

Lemma processMessage_unique (mailbox : MailboxRow) (message : Message) :
  maintains unique_uids (processMessage env mailbox message).
Proof.
  unfold processMessage.
  repeat first
    [ apply maintains_keeps;
      first [ apply findOrCreateThread_keeps_emails
            | apply updateThreadStats_keeps_emails
            | apply processBounce_keeps_emails
            | solve [repeat keeps_step] ]
    | apply maintains_supabase; intros ?; apply insert_email_unique
    | apply maintains_bind; [|intros ?]
    | apply maintains_try_catch; [|intros ?]
    | match goal with
      | |- maintains _ (match ?x with _ => _ end) => destruct x
      end ].
Qed.

(** At most one Email row for a (mailbox, UID) pair, before a cycle
    and after it. *)
Lemma processMailbox_unique (mailboxId : uuid) :
  maintains unique_uids (processMailbox env mailboxId).
Proof.
  assert (loop : forall mailbox messages maxUid,
             maintains unique_uids (processMessages env mailbox messages maxUid)).
  { intros mailbox messages.
    induction messages as [|message rest IH]; intros maxUid; cbn [processMessages].
    - apply maintains_keeps. repeat keeps_step.
    - apply maintains_bind; [|intros ?; apply IH].
      apply maintains_try_catch; [|intros ?; apply maintains_keeps; repeat keeps_step].
      apply maintains_bind; [apply processMessage_unique|].
      intros ?. apply maintains_keeps. repeat keeps_step. }
  intros w Hw. unfold processMailbox, try_finally.
  match goal with |- context [let (_, _) := ?m w in _] => set (body := m) end.
  assert (Hb : maintains unique_uids body).
  { unfold body.
    repeat first
      [ apply loop
      | apply maintains_keeps; solve [repeat keeps_step]
      | apply maintains_bind; [|intros ?]
      | apply maintains_try_catch; [|intros ?]
      | match goal with
        | |- maintains _ (match ?x with _ => _ end) => destruct x
        end ]. }
  specialize (Hb w Hw). destruct (body w) as [r w']. cbn in *.
  now rewrite disconnect_db.
Qed.

(** ** Failures of the bounce side *)

Lemma processBounce_returns (mailboxId userId : uuid) (message : Message)
    (bounceData : BounceData) (w : World) :
  exists w',
    processBounce env mailboxId userId message bounceData w = (Ok tt, w')
    /\ emails (db w') = emails (db w)
    /\ mailboxes (db w') = mailboxes (db w).
Proof.
  destruct (run_returns (processBounce env mailboxId userId message bounceData) w)
    as [[] [w' E]]; [apply returns_try_catch|].
  exists w'. split; [exact E|].
  pose proof (processBounce_keeps_emails mailboxId userId message bounceData w) as K1.
  pose proof (processBounce_keeps_mailboxes mailboxId userId message bounceData w) as K2.
  rewrite E in K1, K2. now split.
Qed.

Lemma updateThreadStats_returns (threadId : uuid) (w : World) :
  exists w',
    updateThreadStats env threadId w = (Ok tt, w')
    /\ emails (db w') = emails (db w).
Proof.
  destruct (run_returns (updateThreadStats env threadId) w)
    as [[] [w' E]]; [apply returns_try_catch|].
  exists w'. split; [exact E|].
  pose proof (updateThreadStats_keeps_emails threadId w) as K.
  now rewrite E in K.
Qed.

Section EmailSideSucceeds.

Hypothesis email_side :
  forall n r, bounce_side r = false -> faults env n r = Succeeds.

Lemma createThread_returns (mailboxId userId : uuid) (email : ThreadInput)
    (n : string) (w : World) :
  exists id, fst (createThread env mailboxId userId email n w) = Ok id.
Proof.
  unfold createThread, bind.
  rewrite supabase_succeeds by now apply email_side.
  cbn. eauto.
Qed.

Lemma bySubject_returns (mailboxId userId : uuid) (email : ThreadInput) (w : World) :
  exists id, fst (bySubject env mailboxId userId email w) = Ok id.
Proof.
  unfold bySubject.
  destruct (_ && _); [|apply createThread_returns].
  unfold bind at 1. unfold now at 1. unfold bind at 1.
  rewrite supabase_succeeds by now apply email_side.
  cbn [fst]. destruct (data_of _); [cbn; eauto | apply createThread_returns].
Qed.

Lemma byReferences_returns (mailboxId userId : uuid) (email : ThreadInput) (w : World) :
  exists id, fst (byReferences env mailboxId userId email w) = Ok id.
Proof.
  unfold byReferences.
  destruct (ti_references email); [apply bySubject_returns|].
  unfold bind at 1.
  rewrite supabase_succeeds by now apply email_side.
  cbn [fst]. destruct (thread_of _); [cbn; eauto | apply bySubject_returns].
Qed.

Lemma findOrCreateThread_returns (mailboxId userId : uuid) (email : ThreadInput)
    (w : World) :
  exists id w',
    findOrCreateThread env mailboxId userId email w = (Ok id, w')
    /\ emails (db w') = emails (db w).
Proof.
  assert (H : exists id, fst (findOrCreateThread env mailboxId userId email w) = Ok id).
  { unfold findOrCreateThread, try_catch.
    match goal with |- context [let (_, _) := ?m w in _] => set (inner := m) end.
    assert (Hi : exists id, fst (inner w) = Ok id).
    { unfold inner. destruct (truthy (ti_inReplyTo email));
        [|apply byReferences_returns].
      unfold bind at 1.
      rewrite supabase_succeeds by now apply email_side.
      cbn [fst]. destruct (thread_of _); [cbn; eauto | apply byReferences_returns]. }
    destruct Hi as [id Hi]. destruct (inner w) as [r w']. cbn in Hi. subst r.
    cbn. eauto. }
  destruct H as [id H].
  pose proof (findOrCreateThread_keeps_emails mailboxId userId email w) as K.
  destruct (findOrCreateThread env mailboxId userId email w) as [r w'].
  cbn in H, K. subst r. eauto.
Qed.

Lemma no_collision_insert (d d' : DB) (mailbox : MailboxRow) (message : Message)
    (row : EmailRow) :
  no_collision d mailbox message ->
  emails d' = emails d ->
  e_mailbox_id row = mb_id mailbox ->
  e_uid row = uid message ->
  e_message_id row = message_id_for mailbox message ->
  violates_unique row d' = false.
Proof.
  intros Hn He Hm Hu Hi. unfold violates_unique. rewrite He.
  apply not_true_is_false. intros H.
  apply existsb_exists in H as [r [Hin Hr]].
  apply andb_true_iff in Hr as [Hr1 Hr2].
  apply Nat.eqb_eq in Hr1. rewrite Hm in Hr1.
  destruct (Hn r Hin Hr1) as [N1 N2].
  apply orb_true_iff in Hr2 as [Hr2|Hr2].
  - apply Z.eqb_eq in Hr2. apply N1. now rewrite Hr2, Hu.
  - apply String.eqb_eq in Hr2. apply N2. now rewrite Hr2, Hi.
Qed.

Lemma no_collision_lookup (d : DB) (mailbox : MailboxRow) (message : Message) :
  no_collision d mailbox message ->
  filter (fun r => (e_mailbox_id r =? mb_id mailbox) && (e_uid r =? uid message)%Z)
         (emails d) = [].
Proof.
  intros Hn. apply filter_none. intros r Hin.
  apply not_true_is_false. intros H. apply andb_true_iff in H as [H1 H2].
  apply Nat.eqb_eq in H1. apply Z.eqb_eq in H2.
  now destruct (Hn r Hin H1).
Qed.

(** With the email side of the store in order, a bounce with a
    failed recipient is stored and [processMessage] returns, whatever
    the bounce side does. *)
Lemma processMessage_bounce (mailbox : MailboxRow) (message : Message) (w : World)
    (recipient : string) :
  category (classify (normalized message)) = BOUNCE ->
  failedRecipient (parseBounce (normalized message)) = Some recipient ->
  no_collision (db w) mailbox message ->
  exists w' row,
    processMessage env mailbox message w = (Ok tt, w')
    /\ emails (db w') = emails (db w) ++ [row]
    /\ e_uid row = uid message
    /\ e_category row = BOUNCE.
Proof.
  intros Hcat Hrec Hnc.
  unfold processMessage, try_catch. unfold bind at 1.
  rewrite supabase_succeeds by now apply email_side.
  unfold select_email_by_uid. cbn [fst snd].
  rewrite (no_collision_lookup _ _ _ Hnc). cbn [maybeSingle data_of].
  cbv zeta. unfold bind at 1. unfold now at 1. unfold bind at 1.
  match goal with
  | |- context [findOrCreateThread env ?a ?b ?c ?x] =>
      destruct (findOrCreateThread_returns a b c x) as [tid [w2 [E2 K2]]]
  end.
  rewrite E2.
  destruct (parseFromAddress (from (normalized message))) as [fromAddress fromName].
  unfold bind at 1. unfold now at 1. unfold bind at 1.
  rewrite supabase_succeeds by now apply email_side.
  unfold insert_email.
  rewrite (no_collision_insert (db w) (db w2) mailbox message) by (assumption || reflexivity).
  cbn [fst snd]. unfold bind at 1.
  match goal with
  | |- context [updateThreadStats env tid ?x] =>
      destruct (updateThreadStats_returns tid x) as [w3 [E3 K3]]
  end.
  rewrite E3. rewrite Hcat, Hrec.
  match goal with
  | |- context [processBounce env ?a ?b ?c ?d w3] =>
      destruct (processBounce_returns a b c d w3) as [w4 [E4 [K4 _]]]
  end.
  rewrite E4.
  eexists. eexists. split; [reflexivity|].
  rewrite K4, K3. cbn [db emails]. rewrite K2.
  split; [reflexivity|]. split; [reflexivity|]. exact Hcat.
Qed.

End EmailSideSucceeds.

End Cycle.

(** C10: a bounce with a valid failed recipient whose bounce-side
    requests fail -- any of them, in any way -- is still stored as an
    Email row by a [processMessage] that returns normally, because
    [processBounce] returns whatever the store does; and there is a
    cycle that leaves a BOUNCE Email row without any bounce event,
    moves the checkpoint to its UID, and is followed by a cycle which,
    with a store in order, does not write the event either. *)
Theorem C10_bounce_failures_are_swallowed :
  (forall (env : Env) (mailbox : MailboxRow) (message : Message) (w : World)
          (recipient : string),
      (forall n r, bounce_side r = false -> faults env n r = Succeeds) ->
      category (classify (normalized message)) = BOUNCE ->
      failedRecipient (parseBounce (normalized message)) = Some recipient ->
      no_collision (db w) mailbox message ->
      (forall w0, exists w1,
            processBounce env (mb_id mailbox) (mb_user_id mailbox)
              (normalized message) (parseBounce (normalized message)) w0
            = (Ok tt, w1)
            /\ emails (db w1) = emails (db w0)
            /\ mailboxes (db w1) = mailboxes (db w0))
      /\ exists w' row,
           processMessage env mailbox message w = (Ok tt, w')
           /\ emails (db w') = emails (db w) ++ [row]
           /\ e_uid row = uid message
           /\ e_category row = BOUNCE)
  /\ (let w1 := after_cycle S1_lossy_env 1 world_before in
      let w2 := after_cycle S1_env 1 w1 in
      map (fun e => (e_uid e, e_category e)) (emails (db w1)) = [(10%Z, BOUNCE)]
      /\ email_bounce_events (db w1) = []
      /\ map mb_last_synced_uid (mailboxes (db w1)) = [10%Z]
      /\ emails (db w2) = emails (db w1)
      /\ email_bounce_events (db w2) = []).
Proof.
  split.
  - intros env mailbox message w recipient Hside Hcat Hrec Hnc. split.
    + intros w0. apply processBounce_returns.
    + now apply (processMessage_bounce env Hside mailbox message w recipient).
  - vm_compute. repeat split.
Qed.

(** ** The theorems at the scenarios *)

Lemma C1_checkpoint_is_batch_maximum_witness :
  batch_max 9 (parsed_of (clock_of_ticks 1) three_mails) = 12%Z
  /\ exists w' t,
       processMailbox S5_env 1 world_before = (Ok tt, w')
       /\ mailboxes (db w')
          = map (fun r => if mb_id r =? 1
                          then checkpoint
                                 (batch_max 9 (parsed_of (clock_of_ticks 1) three_mails))
                                 t r
                          else r)
                (mailboxes (db world_before)).
Proof.
  split; [reflexivity|].
  apply (C1_checkpoint_is_batch_maximum S5_env 1 world_before inbox_owner "secret"
           (parsed_of (clock_of_ticks 1) three_mails));
    try reflexivity.
  discriminate.
Defined.

Lemma C8_empty_fetch_writes_nothing_witness :
  fetched quiet_env world_before 9 = Ok []
  /\ processMailbox quiet_env 1 world_before
     = (Ok tt, mkWorld store_before 1 (Client None)).
Proof.
  split; [reflexivity|].
  apply (C8_empty_fetch_writes_nothing quiet_env 1 world_before inbox_owner "secret");
    reflexivity.
Defined.

Lemma stored_once : unique_uids (db (after_cycle S1_env 1 world_before)).
Proof.
  unfold unique_uids. vm_compute.
  constructor; [intros [] | constructor].
Qed.

Lemma stored_dsn :
  has_email (db (after_cycle S1_env 1 world_before)) (mb_id inbox_owner)
            (uid dsn_message).
Proof.
  unfold has_email. vm_compute. eexists. split; [left; reflexivity|]. now split.
Qed.

Lemma C2_ingest_is_idempotent_witness :
  processMessage S1_env inbox_owner dsn_message (after_cycle S1_env 1 world_before)
  = (Ok tt, mkWorld (db (after_cycle S1_env 1 world_before)) 1 NoClient)
  /\ (exists w',
       processMessages S1_env inbox_owner [dsn_message] 10
         (after_cycle S1_env 1 world_before)
       = (Ok (batch_max 10 [dsn_message]), w')
       /\ db w' = db (after_cycle S1_env 1 world_before))
  /\ ingested (db (snd (processMailbox S1_env (mb_id inbox_owner)
                          (after_cycle S1_env 1 world_before))))
     = ingested (db (after_cycle S1_env 1 world_before)).
Proof.
  destruct (C2_ingest_is_idempotent S1_env inbox_owner (fun _ _ => eq_refl))
    as [H1 [H2 H3]].
  split; [|split].
  - apply (H1 dsn_message (after_cycle S1_env 1 world_before) stored_once stored_dsn).
  - apply (H2 [dsn_message] 10%Z (after_cycle S1_env 1 world_before) stored_once).
    intros message [<-|[]]. exact stored_dsn.
  - apply (H3 (after_cycle S1_env 1 world_before) stored_once).
    intros lastUid messages Hf message Hin.
    vm_compute in Hf. injection Hf as <-.
    destruct Hin as [<-|[]]. exact stored_dsn.
Defined.

Lemma C9_batch_limit_witness :
  Z.of_nat (List.length (parsed_of 0 three_mails)) = 3%Z
  /\ exists msgs,
       fetchNewMessages (mkProcessEnv None None) (serving three_mails)
         (mkDate 2026 2 5) 0 true 9 (mkFetchOptions (Some 2%Z) None) = Ok msgs
       /\ Z.of_nat (List.length msgs) = 2%Z.
Proof.
  split; [reflexivity|].
  apply (proj2 (C9_batch_limit (mkProcessEnv None None) (serving three_mails)
                  (mkDate 2026 2 5) 0 true 9 (mkFetchOptions (Some 2%Z) None)
                  ltac:(cbn; lia)) three_mails);
    reflexivity.
Defined.

Lemma events_lost_spares_emails (n : nat) (r : Request) :
  bounce_side r = false -> faults S1_lossy_env n r = Succeeds.
Proof. destruct r; cbn; intros H; try reflexivity; discriminate. Qed.

Lemma C10_bounce_failures_are_swallowed_witness :
  failedRecipient (parseBounce (normalized dsn_message)) = Some "alice@example.com"
  /\ exists w' row,
       processMessage S1_lossy_env inbox_owner dsn_message world_before = (Ok tt, w')
       /\ emails (db w') = emails (db world_before) ++ [row]
       /\ e_uid row = uid dsn_message
       /\ e_category row = BOUNCE.
Proof.
  split; [reflexivity|].
  apply (proj1 C10_bounce_failures_are_swallowed S1_lossy_env inbox_owner dsn_message
           world_before "alice@example.com").
  - exact events_lost_spares_emails.
  - reflexivity.
  - reflexivity.
  - intros row [].
Defined.

(** ** Scenarios of the specification, run on the model *)

(** S1: one delivery status notification gives one BOUNCE Email, one
    thread, one aggregate for the failed recipient and one event. *)
Example S1_bounce_ingest :
  let d := db (after_cycle S1_env 1 world_before) in
  map (fun e => (e_uid e, e_category e, e_category_confidence e)) (emails d)
  = [(10%Z, BOUNCE, 100)]
  /\ List.length (email_threads d) = 1
  /\ map (fun b => (b_email b, b_bounce_type b, b_error_code b, b_reason b,
                    b_failure_count b)) (email_bounces d)
     = [("alice@example.com", HARD, "550", "User unknown in local table", 1)]
  /\ map ev_message_uid (email_bounce_events d) = [10%Z].
Proof. vm_compute. repeat split. Qed.

(** S2: the same UID again changes no table but the mailbox row; a
    new UID for the same recipient raises the count to two. *)
Example S2_duplicate_bounce :
  let w1 := after_cycle S1_env 1 world_before in
  let w2 := after_cycle S1_env 1 w1 in
  let w3 := after_cycle (cycle_env no_fault [dsn_again]) 1 w2 in
  emails (db w2) = emails (db w1)
  /\ email_bounces (db w2) = email_bounces (db w1)
  /\ email_bounce_events (db w2) = email_bounce_events (db w1)
  /\ map (fun b => (b_email b, b_failure_count b)) (email_bounces (db w3))
     = [("alice@example.com", 2)]
  /\ map ev_message_uid (email_bounce_events (db w3)) = [10%Z; 11%Z].
Proof. vm_compute. repeat split. Qed.

(** The reply of scenario S5 joins the thread of the first message by
    its normalized subject. *)
Example S5_reply_joins_thread :
  let d := db (after_cycle S5_env 1 world_before) in
  map (fun e => (e_uid e, e_thread_id e)) (emails d)
  = [(10%Z, Some 1000); (12%Z, Some 1000)]
  /\ map (fun t => (t_id t, t_normalized_subject t, t_message_count t))
         (email_threads d)
     = [(1000, "project plan", 2); (1002, "lunch on friday", 1)].
Proof. vm_compute. repeat split. Qed.

(** S6 with the headers in a [Map], as [simpleParser] gives them: the
    classifier reads [headers["list-unsubscribe"]], finds nothing, and
    the transactional rule applies. *)
Example S6_headers_in_a_map :
  classify promo_from_noreply = mkClassification MARKETING 80
  /\ classify promo_fetched = mkClassification TRANSACTIONAL 90.
Proof. vm_compute. split; reflexivity. Qed.

(** B1: the first synchronization searches by date only. *)
Example B1_first_sync (since : string) :
  searchCriteria 0 since = mkCriteria None since
  /\ searchCriteria 41 since = mkCriteria (Some 42%Z) since.
Proof. split; reflexivity. Qed.

(** ** More on the string functions *)

Lemma length_trimEnd (s : string) : String.length (trimEnd s) <= String.length s.
Proof.
  induction s as [|c r IH]; cbn; [lia|].
  destruct (trimEnd r); cbn in *; [destruct (is_space c); cbn; lia | lia].
Qed.

Lemma length_trim (s : string) : String.length (trim s) <= String.length s.
Proof.
  unfold trim. pose proof (length_trimEnd (trimStart s)).
  pose proof (length_trimStart s). lia.
Qed.

Lemma length_collapse (s : string) (b : bool) :
  String.length (collapse_from b s) <= String.length s.
Proof.
  revert b; induction s as [|c r IH]; intros b; cbn; [lia|].
  destruct (is_space c); [destruct b|]; cbn;
    match goal with |- context [collapse_from ?x r] => pose proof (IH x) end; lia.
Qed.

Lemma length_remove_external (s : string) (k : nat) :
  String.length (remove_external_from k s) <= String.length s.
Proof.
  revert k; induction s as [|c r IH]; intros k; cbn [remove_external_from]; [cbn; lia|].
  destruct k as [|k].
  - destruct (starts_ci (String c r) "[external]"); cbn [String.length];
      match goal with |- context [remove_external_from ?x r] => pose proof (IH x) end; lia.
  - cbn [String.length]. pose proof (IH k). lia.
Qed.

Lemma length_strip (s : string) :
  String.length (strip_reply_prefix s) <= String.length s.
Proof.
  destruct (has_reply_prefix s) eqn:E.
  - pose proof (strip_shorter s E). lia.
  - rewrite (no_prefix_fixed s E). lia.
Qed.

(** X1: For every subject, normalizeSubject returns a string that is
    in lower case, has no white space at either end and has every run
    of white space reduced to one space character; and it is the
    lower-case form of a string that is no longer than the subject it
    was given (the steps before the final toLowerCase only remove or
    shorten). *)
Theorem X1_normalizeSubject_shape (subject : string) :
  toLowerCase (normalizeSubject subject) = normalizeSubject subject
  /\ trim (normalizeSubject subject) = normalizeSubject subject
  /\ collapse_spaces (normalizeSubject subject) = normalizeSubject subject
  /\ exists x, normalizeSubject subject = toLowerCase x
               /\ String.length x <= String.length subject.
Proof.
  rewrite normalizeSubject_steps. unfold normalize_steps.
  destruct (truthy subject); cbn [negb];
    [|repeat split; exists EmptyString; split; [reflexivity | cbn; lia]].
  set (x := remove_external (strip_reply_prefix subject)).
  split; [apply toLowerCase_idem|].
  split; [now rewrite trim_lower, trim_idem|].
  split.
  - unfold collapse_spaces at 1. apply collapsed_fixed.
    rewrite collapsed_lower. unfold trim.
    apply collapsed_trimEnd, collapsed_trimStart, collapse_is_collapsed.
  - exists (trim (collapse_spaces x)). split; [reflexivity|].
    pose proof (length_trim (collapse_spaces x)).
    pose proof (length_collapse x false).
    pose proof (length_remove_external (strip_reply_prefix subject) 0).
    pose proof (length_strip subject).
    unfold collapse_spaces, x, remove_external in *. lia.
Qed.

(** ** Participants *)

Lemma extractEmailAddress_lower (a : string) :
  toLowerCase (extractEmailAddress a) = extractEmailAddress a.
Proof.
  unfold extractEmailAddress.
  destruct (truthy a); cbn [negb]; [|reflexivity].
  destruct (exec angle_re a); apply toLowerCase_idem.
Qed.

Lemma existsb_eqb_false (x : string) (l : list string) :
  existsb (String.eqb x) l = false -> ~ In x l.
Proof.
  intros H Hin. assert (T : existsb (String.eqb x) l = true).
  { apply existsb_exists. exists x. split; [exact Hin | apply String.eqb_refl]. }
  congruence.
Qed.

Lemma set_add_NoDup (x : string) (l : list string) : NoDup l -> NoDup (set_add x l).
Proof.
  intros H. unfold set_add. destruct (existsb (String.eqb x) l) eqn:E; [exact H|].
  apply NoDup_app; [exact H | repeat constructor; intros [] | ].
  intros a Ha [<-|[]]. now apply existsb_eqb_false in E.
Qed.

Lemma set_add_Forall (P : string -> Prop) (x : string) (l : list string) :
  P x -> Forall P l -> Forall P (set_add x l).
Proof.
  intros Hx Hl. unfold set_add. destruct (existsb _ l); [exact Hl|].
  apply Forall_app. split; [exact Hl | now constructor].
Qed.

Lemma add_addresses (P : string -> Prop) (f : string -> string) (l acc : list string) :
  (forall a, P (f a)) -> NoDup acc -> Forall P acc ->
  NoDup (fold_left (fun acc addr => set_add (f addr) acc) l acc)
  /\ Forall P (fold_left (fun acc addr => set_add (f addr) acc) l acc).
Proof.
  intros Hf. revert acc; induction l as [|a l IH]; intros acc Hn Hp; cbn; [now split|].
  apply IH; [now apply set_add_NoDup | now apply set_add_Forall].
Qed.

(** X2: For every from, to and cc, the list that extractParticipants
    returns has no duplicate entry, and each entry is a non-empty
    string in lower case. *)
Theorem X2_extractParticipants_distinct (from : string) (to cc : field) :
  NoDup (extractParticipants from to cc)
  /\ Forall (fun a => a <> EmptyString /\ toLowerCase a = a)
            (extractParticipants from to cc).
Proof.
  unfold extractParticipants.
  set (P := fun a => toLowerCase a = a).
  assert (H0 : NoDup (if truthy from then set_add (extractEmailAddress from) [] else [])
               /\ Forall P (if truthy from then set_add (extractEmailAddress from) []
                            else [])).
  { destruct (truthy from); [|split; constructor].
    split; [apply set_add_NoDup; constructor|].
    apply set_add_Forall; [apply extractEmailAddress_lower | constructor]. }
  destruct H0 as [N0 F0].
  assert (H1 : forall (f : field) acc, NoDup acc -> Forall P acc ->
             NoDup (match f with
                    | FArray l => fold_left (fun acc addr =>
                                    set_add (extractEmailAddress addr) acc) l acc
                    | _ => acc end)
             /\ Forall P (match f with
                          | FArray l => fold_left (fun acc addr =>
                                          set_add (extractEmailAddress addr) acc) l acc
                          | _ => acc end)).
  { intros f acc Hn Hp. destruct f; try (now split).
    apply add_addresses; try assumption. apply extractEmailAddress_lower. }
  destruct (H1 to _ N0 F0) as [N1 F1].
  destruct (H1 cc _ N1 F1) as [N2 F2].
  split; [now apply NoDup_filter|].
  apply Forall_forall. intros a Ha. apply filter_In in Ha as [Ha Ht].
  split; [now destruct a | exact (proj1 (Forall_forall _ _) F2 a Ha)].
Qed.

(** ** The bounce parser *)

Lemma code_here_shape (prev : option ascii) (s code : string) :
  code_here prev s = Some code ->
  exists a b c, code = String a (String b (String c EmptyString))
                /\ one_of "245" a = true /\ is_digit b = true /\ is_digit c = true.
Proof.
  destruct s as [|a [|b [|c r]]]; cbn [code_here]; try discriminate.
  destruct (negb (word_char prev) && one_of "245" a && is_digit b && is_digit c
            && negb (word_char (head r))) eqn:E; [|discriminate].
  intros [= <-]. exists a, b, c.
  repeat (apply andb_true_iff in E as [E ?]). now repeat split.
Qed.

Lemma extracted_code_shape (body code : string) :
  extractErrorCode body = Some code ->
  exists a b c, code = String a (String b (String c EmptyString))
                /\ one_of "245" a = true /\ is_digit b = true /\ is_digit c = true.
Proof.
  rewrite extractErrorCode_first. intros H.
  apply first_code_some in H as [i [H _]]. now apply code_here_shape in H.
Qed.

Lemma one_of_245 (a : ascii) :
  one_of "245" a = true -> a = "2"%char \/ a = "4"%char \/ a = "5"%char.
Proof.
  unfold one_of. cbn. intros H.
  repeat (apply orb_true_iff in H as [H|H]); try discriminate;
    apply Ascii.eqb_eq in H; auto.
Qed.

(** X3: Whenever extractErrorCode finds a code in the body of a
    message, the code has three characters, parseBounce reports it as
    errorCode, and the bounceType is HARD if the code begins with 5,
    SOFT if it begins with 4 and UNKNOWN otherwise (a 2xx code): the
    tables hardBounceCodes and softBounceCodes never change the
    outcome. *)
Theorem X3_bounce_type_by_first_digit (email : Message) (code : string) :
  extractErrorCode (body email) = Some code ->
  String.length code = 3
  /\ errorCode (parseBounce email) = code
  /\ bounceType (parseBounce email)
     = if startsWith code "5" then HARD
       else if startsWith code "4" then SOFT
       else UNKNOWN_TYPE.
Proof.
  intros H. unfold parseBounce. cbn [bounceType errorCode]. rewrite H.
  apply extracted_code_shape in H as [a [b [c [-> [Ha _]]]]].
  split; [reflexivity|]. split; [reflexivity|].
  unfold classifyBounceType, hardBounceCodes, softBounceCodes.
  apply one_of_245 in Ha as [-> | [-> | ->]]; cbn [existsb String.eqb Ascii.eqb Bool.eqb
                                                 orb andb startsWith].
  - reflexivity.
  - now destruct (_ || _).
  - now destruct (_ || _).
Qed.

Lemma length_take (n : nat) (s : string) :
  String.length (take n s) = Nat.min n (String.length s).
Proof.
  unfold take. revert n; induction s as [|c r IH]; intros n; destruct n; cbn;
    try reflexivity. now rewrite IH.
Qed.

Lemma valid_diagnostic_length (text : string) :
  isValidDiagnostic text = true -> 10 <= String.length text.
Proof.
  unfold isValidDiagnostic.
  destruct (String.length text <? 10) eqn:E.
  - rewrite orb_true_r. discriminate.
  - intros _. apply Nat.ltb_ge in E. exact E.
Qed.

(** X4: A diagnostic that extractDiagnostic returns has at least 10
    and at most 300 characters, and it is the first 300 characters of
    a text that isValidDiagnostic accepts. *)
Theorem X4_extractDiagnostic_bounds (body d : string) :
  extractDiagnostic body = Some d ->
  10 <= String.length d <= 300
  /\ exists text, isValidDiagnostic text = true /\ d = take 300 text.
Proof.
  unfold extractDiagnostic.
  set (P := fun found : option string =>
              forall d, found = Some d ->
                        10 <= String.length d <= 300
                        /\ exists text, isValidDiagnostic text = true /\ d = take 300 text).
  assert (H : forall patterns found, P found ->
                P (fold_left
                     (fun found pattern =>
                        match found with
                        | Some d => Some d
                        | None =>
                            match exec pattern body with
                            | Some m =>
                                let g := or_empty (group 1 m) in
                                if truthy g then
                                  let diagnostic := cleanDiagnostic (trim g) in
                                  if isValidDiagnostic diagnostic
                                  then Some (take 300 diagnostic) else None
                                else None
                            | None => None
                            end
                        end) patterns found)).
  { induction patterns as [|p ps IH]; intros found Hf; cbn [fold_left]; [exact Hf|].
    apply IH. destruct found as [d0|]; [exact Hf|].
    destruct (exec p body) as [m|]; [|exact Hf]. cbv zeta.
    destruct (truthy _); [|exact Hf].
    destruct (isValidDiagnostic _) eqn:V; [|exact Hf].
    intros d1 [= <-]. pose proof (valid_diagnostic_length _ V) as L.
    rewrite length_take. split; [lia | eauto]. }
  intros E. apply (H diagnosticPatterns None); [discriminate | exact E].
Qed.

(** ** The failed recipient *)

Lemma add_candidate_Forall (P : string -> Prop) (m : rresult) (l : list string) :
  (forall g, isValidEmail (toLowerCase (trim g)) = true -> P (toLowerCase (trim g))) ->
  Forall P l -> Forall P (add_candidate m l).
Proof.
  intros HP Hl. unfold add_candidate.
  destruct (group 1 m) as [g|]; [|exact Hl].
  destruct (truthy g); [|exact Hl]. cbv zeta.
  destruct (isValidEmail _) eqn:V; [|exact Hl].
  apply set_add_Forall; [now apply HP | exact Hl].
Qed.

Lemma candidates_Forall (P : string -> Prop) (ms : list rresult) (l : list string) :
  (forall g, isValidEmail (toLowerCase (trim g)) = true -> P (toLowerCase (trim g))) ->
  Forall P l -> Forall P (fold_left (fun acc m => add_candidate m acc) ms l).
Proof.
  intros HP. revert l; induction ms as [|m ms IH]; intros l Hl; cbn; [exact Hl|].
  apply IH. now apply add_candidate_Forall.
Qed.

Lemma normal_form (g : string) :
  toLowerCase (trim (toLowerCase (trim g))) = toLowerCase (trim g).
Proof. now rewrite trim_lower, trim_idem, toLowerCase_idem. Qed.

(** X5: An address that extractRecipientEmail returns is accepted by
    isValidEmail, does not begin with any of the system addresses
    (mailer-daemon@, postmaster@, noreply@, no-reply@), and is trimmed
    and in lower case. *)
Theorem X5_extractRecipientEmail_sound (body subject email : string) :
  extractRecipientEmail body subject = Some email ->
  isValidEmail email = true
  /\ existsb (fun sys => startsWith email sys) systemAddresses = false
  /\ toLowerCase (trim email) = email.
Proof.
  unfold extractRecipientEmail.
  set (P := fun e => isValidEmail e = true /\ toLowerCase (trim e) = e).
  assert (HP : forall g, isValidEmail (toLowerCase (trim g)) = true ->
                         P (toLowerCase (trim g))).
  { intros g V. split; [exact V | apply normal_form]. }
  assert (H : forall patterns acc, Forall P acc ->
              Forall P (fold_left
                (fun acc (pattern : bool * (bool -> regex)) =>
                   let acc1 := fold_left (fun acc m => add_candidate m acc)
                                         (matchAll (snd pattern true) body) acc in
                   match exec (snd pattern (fst pattern)) subject with
                   | Some subjectMatch => add_candidate subjectMatch acc1
                   | None => acc1
                   end) patterns acc)).
  { induction patterns as [|p ps IH]; intros acc Ha; cbn [fold_left]; [exact Ha|].
    apply IH. cbv zeta.
    destruct (exec _ subject); [apply add_candidate_Forall; [exact HP|]|];
      now apply candidates_Forall. }
  specialize (H recipientPatterns [] (Forall_nil _)).
  match goal with |- context [filter ?f ?l] =>
    set (keep := f) in *; set (found := l) in * end.
  destruct (filter keep found) as [|e rest] eqn:E; [discriminate|].
  intros [= <-].
  assert (Hin : In e (filter keep found)) by (rewrite E; now left).
  apply filter_In in Hin as [Hin Hk].
  destruct (proj1 (Forall_forall _ _) H e Hin) as [V N].
  split; [exact V|]. split; [|exact N].
  unfold keep in Hk. now apply negb_true_iff in Hk.
Qed.

(** ** The classifier *)

(** X6: The category that classify returns is one of getCategories(),
    and its confidence is the one the constructor's categories table
    gives to that category, except for HUMAN: classify returns HUMAN
    with confidence 0.7 while the table holds 0.6. *)
Theorem X6_classify_confidence_table (email : Message) :
  In (category (classify email)) getCategories
  /\ (category (classify email) <> HUMAN ->
      In (category (classify email), confidence (classify email)) categories)
  /\ (category (classify email) = HUMAN ->
      confidence (classify email) = 70 /\ In (HUMAN, 60) categories).
Proof.
  unfold classify.
  destruct (isBounce email); [|destruct (isTransactional email);
    [|destruct (isNotification email); [|destruct (isNewsletter email);
      [|destruct (isMarketing email); [|destruct (isHuman email)]]]]];
    cbn [category confidence]; (split; [|split]);
    try (intros H; try discriminate H; try contradiction);
    cbn; intuition congruence.
Qed.

(** X7: For a message as fetchNewMessages delivers it and
    processMessage normalizes it, the header lines have no influence
    on the classification: it is the same as for the mail without any
    header line, the List-Unsubscribe lookup finds nothing,
    isTransactional is decided by its from and subject patterns alone,
    and isHuman holds exactly when the sender contains none of the
    automated sender words and the mail has a to field. *)
Theorem X7_classify_fetched_ignores_headers (now : Z) (sm : ServerMessage)
    (parsed : ParsedMail) :
  classify (normalized (parsedMessage now sm parsed))
  = classify (normalized (parsedMessage now sm (without_headers parsed)))
  /\ hasListUnsubscribe (headers (normalized (parsedMessage now sm parsed))) = false
  /\ isTransactional (normalized (parsedMessage now sm parsed))
     = some_test transactionalPatterns_from (toLowerCase (p_from_text parsed))
       || some_test transactionalPatterns_subject (toLowerCase (p_subject parsed))
  /\ isHuman (normalized (parsedMessage now sm parsed))
     = negb (existsb (fun sender => includes (toLowerCase (p_from_text parsed)) sender)
                     automatedSenders)
       && truthy (p_to_text parsed).
Proof.
  split; [reflexivity|]. split; [reflexivity|]. split.
  - unfold isTransactional.
    change (hasListUnsubscribe (headers (normalized (parsedMessage now sm parsed))))
      with false.
    cbn [negb]. now rewrite andb_true_r.
  - unfold isHuman.
    change (headers (normalized (parsedMessage now sm parsed)))
      with (HMap (p_headers parsed)).
    change (from (normalized (parsedMessage now sm parsed))) with (p_from_text parsed).
    change (to (normalized (parsedMessage now sm parsed)))
      with (FArray (if truthy (p_to_text parsed) then [p_to_text parsed] else [])).
    cbv zeta. cbn [prop or_else truthy andb orb negb normalizeEmailArray].
    rewrite andb_true_r. f_equal.
    now destruct (truthy (p_to_text parsed)).
Qed.

(** ** Address validation *)

Lemma trimEnd_cons (c : ascii) (r : string) :
  is_space c = false -> trimEnd (String c r) = String c (trimEnd r).
Proof. intros H. cbn. destruct (trimEnd r); now rewrite ?H. Qed.

Lemma split_on_cons (sep c : ascii) (r : string) :
  Ascii.eqb c sep = false ->
  nth_string 0 (split_on sep (String c r)) = String c (nth_string 0 (split_on sep r)).
Proof.
  intros H. cbn [split_on]. rewrite H.
  destruct (split_on sep r) eqn:E; [|reflexivity].
  destruct r; cbn in E; [discriminate|].
  destruct (Ascii.eqb a sep); [discriminate|]. now destruct (split_on sep r).
Qed.

Lemma hex_facts (c : ascii) :
  is_hex c = true ->
  is_space c = false /\ Ascii.eqb (lower_char c) "@" = false
  /\ is_hex_lower (lower_char c) = true.
Proof. each_char c; intros _; repeat split. Qed.

(** X8: isValidEmail rejects every address that begins with eight
    hexadecimal digits, whatever follows them: an address with a
    numeric local part such as 12345678@qq.com is never valid. *)
Theorem X8_isValidEmail_rejects_hex_prefix (h rest : string) :
  String.length h = 8 ->
  forallb is_hex (chars h) = true ->
  isValidEmail (h ++ rest) = false.
Proof.
  intros Hl Hh.
  destruct h as [|c1 [|c2 [|c3 [|c4 [|c5 [|c6 [|c7 [|c8 [|c9 h]]]]]]]]];
    try discriminate Hl. clear Hl.
  cbn [chars list_ascii_of_string forallb] in Hh.
  repeat (apply andb_true_iff in Hh as [?H Hh]).
  repeat match goal with
         | H : is_hex ?c = true |- _ =>
             apply hex_facts in H; destruct H as [?S [?A ?L]]
         end.
  unfold isValidEmail. cbn [append truthy negb].
  set (email := toLowerCase (trim _)).
  assert (E : exists tail, email = String (lower_char c1) (String (lower_char c2)
                (String (lower_char c3) (String (lower_char c4) (String (lower_char c5)
                (String (lower_char c6) (String (lower_char c7) (String (lower_char c8)
                tail)))))))).
  { unfold email, trim. cbn [trimStart]. rewrite S6.
    rewrite !trimEnd_cons by assumption. cbn [toLowerCase]. eauto. }
  destruct E as [tail E]. rewrite E. clearbody email. cbv zeta.
  rewrite !split_on_cons by assumption.
  replace (test (RSeqs [RBol; RRepeat 8 (RChar is_hex_lower)]) _) with true.
  2:{ unfold test, exec. cbn [search_from RSeqs RRepeat rmatch m_rest m_prev m_caps].
      now rewrite L, L0, L1, L2, L3, L4, L5, L6. }
  repeat match goal with
         | |- (if ?b then false else _) = false => destruct b; [reflexivity|]
         end.
  reflexivity.
Qed.

Lemma isValidEmail_of_lower (e : string) :
  isValidEmail (toLowerCase (trim e)) = isValidEmail e.
Proof.
  unfold isValidEmail. rewrite normal_form.
  destruct (truthy e) eqn:T; destruct (truthy (toLowerCase (trim e))) eqn:T';
    cbn [negb]; try reflexivity.
  - destruct (toLowerCase (trim e)); [reflexivity | discriminate].
  - destruct e; [discriminate T' | discriminate T].
Qed.

(** ** Addresses in angle brackets *)

Lemma all_of_cons (p : ascii -> bool) (c : ascii) (r : string) :
  all_of p (String c r) = p c && all_of p r.
Proof. reflexivity. Qed.

Lemma length_append (a b : string) :
  String.length (a ++ b)%string = String.length a + String.length b.
Proof. induction a as [|c r IH]; cbn; [reflexivity | now rewrite IH]. Qed.

Lemma take_append (a b : string) :
  take (String.length (a ++ b)%string - String.length b) (a ++ b)%string = a.
Proof.
  rewrite length_append. replace (_ + _ - _) with (String.length a) by lia.
  unfold take. induction a as [|c r IH]; cbn.
  - now destruct b.
  - now rewrite IH.
Qed.

(** A lazy [c*?] gives way to its continuation as soon as that
    answers. *)
Lemma lazy_now {A : Type} (step : mstate -> (mstate -> option A) -> option A)
    (k : mstate -> option A) (fuel : nat) (st : mstate) (x : A) :
  k st = Some x -> star_loop step false k fuel st = Some x.
Proof. intros H. destruct fuel; cbn; now rewrite H. Qed.

(** A lazy [c*?] moves over the characters at which its continuation
    fails. *)
Lemma lazy_skip {A : Type} (p : ascii -> bool)
    (step : mstate -> (mstate -> option A) -> option A) (k : mstate -> option A)
    (rest : string) (caps : list (nat * string)) :
  (forall st k', step st k' = rmatch (RChar p) st k') ->
  forall (a : string) (fuel : nat) (prev : option ascii),
    all_of p a = true ->
    (forall pre c post pv, a = (pre ++ String c post)%string ->
                           k (MState pv (String c post ++ rest)%string caps) = None) ->
    String.length a <= fuel ->
    star_loop step false k fuel (MState prev (a ++ rest)%string caps)
    = star_loop step false k (fuel - String.length a) (MState (last_of prev a) rest caps).
Proof.
  intros Hstep. induction a as [|c a IH]; intros fuel prev Hp Hk Hf.
  - cbn. now rewrite Nat.sub_0_r.
  - destruct fuel as [|fuel]; [cbn in Hf; lia|].
    rewrite all_of_cons in Hp. apply andb_true_iff in Hp as [Hc Hp].
    cbn [star_loop append].
    pose proof (Hk EmptyString c a prev eq_refl) as H0. cbn [append] in H0.
    rewrite H0. cbn [first_some].
    rewrite Hstep. cbn [rmatch m_rest m_caps]. rewrite Hc.
    cbn [m_rest String.length].
    replace (String.length (a ++ rest)%string <? S (String.length (a ++ rest)%string)) with true
      by (symmetry; apply Nat.ltb_lt; lia).
    rewrite IH; [reflexivity | exact Hp | | cbn in Hf; lia].
    intros pre d post pv E. apply (Hk (String c pre) d post pv). cbn. now rewrite E.
Qed.

(** A greedy [c*] before a continuation that fails in front of a
    character of the class takes all the characters there are. *)
Lemma star_class_then {A : Type} (p : ascii -> bool)
    (step : mstate -> (mstate -> option A) -> option A) (k : mstate -> option A) :
  (forall st k', step st k' = rmatch (RChar p) st k') ->
  (forall pv c r caps, p c = true -> k (MState pv (String c r) caps) = None) ->
  forall (fuel : nat) (s : string) (prev : option ascii) (caps : list (nat * string)),
    String.length s <= fuel ->
    star_loop step true k fuel (MState prev s caps)
    = k (MState (skip_prev p prev s) (skip p s) caps).
Proof.
  intros Hstep Hk. induction fuel as [|fuel IH]; intros s prev caps Hlen.
  - destruct s; [reflexivity | cbn in Hlen; lia].
  - cbn [star_loop]. rewrite Hstep. cbn [rmatch m_rest m_caps].
    destruct s as [|c r]; [reflexivity|].
    cbn [skip skip_prev]. destruct (p c) eqn:Ec; [|reflexivity].
    cbn [m_rest String.length].
    replace (String.length r <? S (String.length r)) with true
      by (symmetry; apply Nat.ltb_lt; lia).
    rewrite IH by (cbn in Hlen; lia).
    rewrite (Hk prev c r caps Ec). now destruct (k _).
Qed.

(** [exec] moves over the positions at which the pattern does not
    match. *)
Lemma search_skip (r : regex) (rest : string) :
  forall (pre : string) (prev : option ascii) (acc : string),
    (forall p1 c p2, pre = (p1 ++ String c p2)%string ->
                     head_match r (last_of prev p1) (String c p2 ++ rest)%string = None) ->
    search_from r prev (pre ++ rest)%string acc
    = option_map (prepend (acc ++ pre)%string)
                 (search_from r (last_of prev pre) rest EmptyString).
Proof.
  induction pre as [|c pre IH]; intros prev acc H.
  - cbn [append last_of]. rewrite append_empty.
    rewrite (search_from_head r rest prev acc), (search_from_head r rest prev EmptyString).
    destruct (head_match r prev rest); cbn [option_map].
    + unfold prepend. cbn. reflexivity.
    + destruct rest as [|d rest']; [reflexivity|].
      destruct (search_from r (Some d) rest' EmptyString); cbn [option_map];
        [|reflexivity].
      now rewrite prepend_prepend.
  - cbn [append last_of]. rewrite search_from_head.
    pose proof (H EmptyString c pre eq_refl) as H0. cbn [append last_of] in H0.
    rewrite H0. rewrite IH.
    + destruct (search_from r (last_of (Some c) pre) rest EmptyString);
        cbn [option_map]; [|reflexivity].
      rewrite prepend_prepend. cbn [append]. now rewrite append_assoc.
    + intros p1 d p2 E. apply (H (String c p1) d p2). cbn. now rewrite E.
Qed.

Lemma group_prepend (n : nat) (acc : string) (res : rresult) :
  group n (prepend acc res) = group n res.
Proof. reflexivity. Qed.

(** The equations of the matcher. *)
Lemma rmatch_seq {A : Type} (a b : regex) (st : mstate) (k : mstate -> option A) :
  rmatch (RSeq a b) st k = rmatch a st (fun st' => rmatch b st' k).
Proof. reflexivity. Qed.

Lemma rmatch_char {A : Type} (p : ascii -> bool) (prev : option ascii) (c : ascii)
    (s : string) (caps : list (nat * string)) (k : mstate -> option A) :
  rmatch (RChar p) (MState prev (String c s) caps) k
  = if p c then k (MState (Some c) s caps) else None.
Proof. reflexivity. Qed.

Lemma rmatch_char_end {A : Type} (p : ascii -> bool) (prev : option ascii)
    (caps : list (nat * string)) (k : mstate -> option A) :
  rmatch (RChar p) (MState prev EmptyString caps) k = None.
Proof. reflexivity. Qed.

Lemma rmatch_group {A : Type} (n : nat) (a : regex) (st : mstate)
    (k : mstate -> option A) :
  rmatch (RGroup n a) st k
  = rmatch a st (fun st' =>
      k (MState (m_prev st') (m_rest st')
           ((n, take (consumed st st') (m_rest st)) :: m_caps st'))).
Proof. reflexivity. Qed.

Lemma rmatch_star {A : Type} (greedy : bool) (a : regex) (st : mstate)
    (k : mstate -> option A) :
  rmatch (RStar greedy a) st k
  = star_loop (fun st' k' => rmatch a st' k') greedy k (String.length (m_rest st)) st.
Proof. reflexivity. Qed.

Lemma rmatch_bol {A : Type} (s : string) (caps : list (nat * string))
    (k : mstate -> option A) :
  rmatch RBol (MState None s caps) k = k (MState None s caps).
Proof. reflexivity. Qed.

Lemma rmatch_eol {A : Type} (prev : option ascii) (caps : list (nat * string))
    (k : mstate -> option A) :
  rmatch REol (MState prev EmptyString caps) k = k (MState prev EmptyString caps).
Proof. reflexivity. Qed.

Lemma all_of_mid (p : ascii -> bool) (pre : string) (c : ascii) (post : string) :
  all_of p (pre ++ String c post)%string = true -> p c = true.
Proof.
  induction pre as [|d pre IH]; cbn [append]; rewrite all_of_cons; intros H;
    apply andb_true_iff in H as [H1 H2]; [exact H1 | now apply IH].
Qed.

(** ** Addresses in angle brackets *)

Lemma head_angle_miss (prev : option ascii) (c : ascii) (s : string) :
  Ascii.eqb "<" c = false -> head_match angle_re prev (String c s) = None.
Proof.
  intros H. unfold head_match, angle_re. cbn [RSeqs RLit].
  now rewrite rmatch_seq, rmatch_char, H.
Qed.

Lemma head_angle_hit (prev : option ascii) (a : ascii) (addr post : string) :
  all_of (fun c => negb (is_newline c) && negb (Ascii.eqb c ">")) (String a addr) = true ->
  exists res,
    head_match angle_re prev ("<" ++ String a addr ++ ">" ++ post)%string = Some res
    /\ group 1 res = Some (String a addr).
Proof.
  intros H. rewrite all_of_cons in H. apply andb_true_iff in H as [Ha Hr].
  apply andb_true_iff in Ha as [Ha _].
  unfold head_match, angle_re, RPlus, RAny.
  cbn [RSeqs RLit append].
  rewrite rmatch_seq, rmatch_char, Ascii.eqb_refl.
  rewrite rmatch_seq, rmatch_group, rmatch_seq, rmatch_char, Ha, rmatch_star.
  cbn [m_rest m_prev m_caps].
  rewrite (lazy_skip (fun c => negb (is_newline c))
             (fun st' k' => rmatch (RChar (fun c => negb (is_newline c))) st' k')
             _ (String ">" post) [] (fun _ _ => eq_refl) addr).
  - eexists. split.
    + apply lazy_now. cbn [m_rest m_prev m_caps].
      rewrite rmatch_char, Ascii.eqb_refl. reflexivity.
    + unfold group. cbn [r_caps m_caps capture Nat.eqb]. unfold consumed.
      cbn [m_rest]. f_equal. apply (take_append (String a addr) (String ">" post)).
  - unfold all_of in *. clear -Hr. induction (chars addr) as [|c l IH]; [reflexivity|].
    cbn [forallb] in *. apply andb_true_iff in Hr as [Hc Hl].
    apply andb_true_iff in Hc as [Hc _]. now rewrite Hc, IH.
  - intros pre c post0 pv E. subst addr. apply all_of_mid in Hr.
    apply andb_true_iff in Hr as [_ Hc]. apply negb_true_iff in Hc.
    cbn [m_rest m_prev m_caps append].
    rewrite rmatch_char, Ascii.eqb_sym. now rewrite Hc.
  - rewrite length_append. lia.
Qed.

Lemma head_angle_end (prev : option ascii) : head_match angle_re prev EmptyString = None.
Proof. reflexivity. Qed.

Lemma truthy_append (a : string) (c : ascii) (b : string) :
  truthy (a ++ String c b)%string = true.
Proof. now destruct a. Qed.

Lemma angle_skips (pre rest : string) (prev : option ascii) :
  all_of (fun c => negb (Ascii.eqb c "<")) pre = true ->
  forall p1 c p2, pre = (p1 ++ String c p2)%string ->
                  head_match angle_re (last_of prev p1) (String c p2 ++ rest)%string = None.
Proof.
  intros H p1 c p2 E. subst pre. apply all_of_mid in H. apply negb_true_iff in H.
  apply head_angle_miss. now rewrite Ascii.eqb_sym.
Qed.

(** X9: The thread builder's extractEmailAddress returns, for a string
    of the form pre<addr>post in which pre has no < and addr is
    non-empty and has neither a line break nor a >, the text addr in
    lower case, not trimmed; and for a string without any < it returns
    the trimmed string in lower case. *)
Theorem X9_extractEmailAddress_forms :
  (forall pre addr post : string,
      all_of (fun c => negb (Ascii.eqb c "<")) pre = true ->
      addr <> EmptyString ->
      all_of (fun c => negb (is_newline c) && negb (Ascii.eqb c ">")) addr = true ->
      extractEmailAddress (pre ++ "<" ++ addr ++ ">" ++ post) = toLowerCase addr)
  /\ (forall a : string,
         all_of (fun c => negb (Ascii.eqb c "<")) a = true ->
         extractEmailAddress a = toLowerCase (trim a)).
Proof.
  split.
  - intros pre addr post Hpre Hne Haddr.
    destruct addr as [|a addr]; [contradiction|].
    unfold extractEmailAddress. cbn [append]. rewrite truthy_append. cbn [negb].
    unfold exec. rewrite search_skip by now apply angle_skips.
    rewrite search_from_head.
    destruct (head_angle_hit (last_of None pre) a addr post Haddr) as [res [E G]].
    cbn [append] in E. rewrite E. cbn [option_map]. rewrite !group_prepend, G. reflexivity.
  - intros a Ha. unfold extractEmailAddress.
    destruct (truthy a) eqn:T; cbn [negb]; [|destruct a; [reflexivity | discriminate]].
    unfold exec. rewrite <- (append_empty a) at 1.
    rewrite search_skip by now apply angle_skips.
    rewrite search_from_head, head_angle_end. reflexivity.
Qed.

(** ** The sender of a message *)

(** A lazy [c*?] whose continuation fails wherever it is tried
    fails. *)
Lemma lazy_none {A : Type} (p : ascii -> bool) (Q : string -> Prop)
    (step : mstate -> (mstate -> option A) -> option A) (k : mstate -> option A)
    (caps : list (nat * string)) :
  (forall st k', step st k' = rmatch (RChar p) st k') ->
  (forall c r, Q (String c r) -> Q r) ->
  (forall pv t, Q t -> k (MState pv t caps) = None) ->
  forall (fuel : nat) (s : string) (prev : option ascii),
    Q s -> star_loop step false k fuel (MState prev s caps) = None.
Proof.
  intros Hstep Htail Hk. induction fuel as [|fuel IH]; intros s prev Hs; cbn [star_loop].
  - now apply Hk.
  - rewrite (Hk prev s Hs). cbn [first_some]. rewrite Hstep.
    destruct s as [|c r]; [reflexivity|]. rewrite rmatch_char.
    destruct (p c); [|reflexivity]. cbn [m_rest].
    destruct (_ <? _); [|reflexivity]. apply IH. now apply (Htail c).
Qed.

Lemma replace_class (p : ascii -> bool) (n : nat) :
  forall (s : string) (f : nat) (prev : option ascii),
    String.length s <= n -> String.length s < f ->
    replace_from f (RChar p) erase prev s = without p s.
Proof.
  induction n as [|n IH]; intros s f prev Hn Hf;
    (destruct f as [|f]; [lia|]);
    rewrite (replace_from_head (RChar p) erase f prev s erase_prepend).
  - destruct s; [reflexivity | cbn in Hn; lia].
  - destruct s as [|c r]; [reflexivity|]. cbn in Hn, Hf.
    unfold head_match. rewrite rmatch_char. cbn [without].
    destruct (p c).
    + cbn [r_text r_after m_rest m_prev String.length take substring erase append].
      replace (S (String.length r) - String.length r) with 1 by lia.
      cbn [substring]. destruct r; cbn [substring]; now rewrite IH by (cbn in *; lia).
    + now rewrite IH by lia.
Qed.

Lemma trimEnd_suffix (pre post : string) :
  trimEnd (pre ++ post)%string = (pre ++ post)%string -> post <> EmptyString ->
  trimEnd post = post.
Proof.
  intros H Hne. induction pre as [|c pre IH]; [exact H|].
  apply IH. cbn [append trimEnd] in H.
  destruct (trimEnd (pre ++ post)%string) as [|d t] eqn:E.
  - destruct (is_space c); [discriminate H|]. injection H as H.
    destruct pre; [now destruct post | discriminate H].
  - now injection H.
Qed.

Lemma solid_has_nonspace (post : string) :
  trimEnd post = post -> post <> EmptyString ->
  exists p1 c p2, post = (p1 ++ String c p2)%string
                  /\ all_of is_space p1 = true /\ is_space c = false.
Proof.
  induction post as [|c r IH]; [contradiction|]. intros H _.
  destruct (is_space c) eqn:Ec.
  - cbn [trimEnd] in H. destruct (trimEnd r) as [|d t] eqn:E.
    + rewrite Ec in H. discriminate H.
    + injection H as H.
      assert (H2 : r <> EmptyString) by (rewrite <- H; discriminate).
      destruct (IH H H2) as [p1 [c' [p2 [E' [Hp Hc]]]]].
      exists (String c p1), c', p2. rewrite all_of_cons, Ec, Hp, E'.
      now repeat split.
  - exists EmptyString, c, r. now repeat split.
Qed.

Lemma skip_spaces_app (p1 rest : string) :
  all_of is_space p1 = true ->
  skip is_space (p1 ++ rest)%string = skip is_space rest.
Proof.
  induction p1 as [|c p1 IH]; [reflexivity|]. rewrite all_of_cons. intros H.
  apply andb_true_iff in H as [Hc H]. cbn [append skip]. rewrite Hc. now apply IH.
Qed.

Lemma space_not_lt (c : ascii) : is_space c = true -> Ascii.eqb "<" c = false.
Proof. each_char c. Qed.

Lemma spaces_then_lt_fails {A : Type} (X : regex) (t : string) (pv : option ascii)
    (caps : list (nat * string)) (k : mstate -> option A) :
  match skip is_space t with
  | EmptyString => True
  | String c _ => Ascii.eqb "<" c = false
  end ->
  rmatch (RSeq (RStar true RSpace) (RSeq (RChar (Ascii.eqb "<")) X)) (MState pv t caps) k
  = None.
Proof.
  intros H. rewrite rmatch_seq, rmatch_star. unfold RSpace.
  rewrite (star_class_then is_space).
  - rewrite rmatch_seq. destruct (skip is_space t); [reflexivity|].
    now rewrite rmatch_char, H.
  - reflexivity.
  - intros pv0 c r caps0 Hc. now rewrite rmatch_seq, rmatch_char, space_not_lt.
  - cbn. lia.
Qed.

Lemma spaces_then_lt_hit {A : Type} (X : regex) (ws r : string) (pv : option ascii)
    (caps : list (nat * string)) (k : mstate -> option A) :
  all_of is_space ws = true ->
  rmatch (RSeq (RStar true RSpace) (RSeq (RChar (Ascii.eqb "<")) X))
         (MState pv (ws ++ String "<" r)%string caps) k
  = rmatch X (MState (Some "<"%char) r caps) k.
Proof.
  intros H. rewrite rmatch_seq, rmatch_star. unfold RSpace.
  rewrite (star_class_then is_space).
  - rewrite (skip_spaces_app ws _ H).
    change (skip is_space (String "<" r)) with (String "<" r).
    now rewrite rmatch_seq, rmatch_char, Ascii.eqb_refl.
  - reflexivity.
  - intros pv0 c r0 caps0 Hc. now rewrite rmatch_seq, rmatch_char, space_not_lt.
  - cbn. lia.
Qed.

Lemma all_of_app (p : ascii -> bool) (a b : string) :
  all_of p (a ++ b)%string = all_of p a && all_of p b.
Proof.
  induction a as [|c a IH]; [reflexivity|]. cbn [append].
  now rewrite !all_of_cons, IH, andb_assoc.
Qed.

Lemma all_of_weaken (p q : ascii -> bool) (s : string) :
  (forall c, p c = true -> q c = true) -> all_of p s = true -> all_of q s = true.
Proof.
  intros H. induction s as [|c s IH]; [reflexivity|]. rewrite !all_of_cons.
  intros E. apply andb_true_iff in E as [Ec Es]. now rewrite (H c Ec), IH.
Qed.

Lemma head_from_hit (name ws addr : string) :
  name <> EmptyString ->
  all_of (fun c => negb (is_newline c) && negb (Ascii.eqb c "<")) name = true ->
  trimEnd name = name ->
  all_of is_space ws = true ->
  addr <> EmptyString ->
  all_of (fun c => negb (is_newline c) && negb (Ascii.eqb c ">")) addr = true ->
  exists res,
    head_match from_re None (name ++ ws ++ "<" ++ addr ++ ">")%string = Some res
    /\ group 1 res = Some name /\ group 2 res = Some addr.
Proof.
  intros Hne Hname Hsolid Hws Hae Haddr.
  destruct name as [|n0 name]; [contradiction|].
  destruct addr as [|a0 addr]; [contradiction|].
  pose proof Hname as Hn. rewrite all_of_cons in Hn.
  apply andb_true_iff in Hn as [Hn0 Hn]. apply andb_true_iff in Hn0 as [Hn0 _].
  pose proof Haddr as Ha. rewrite all_of_cons in Ha.
  apply andb_true_iff in Ha as [Ha0 Ha]. apply andb_true_iff in Ha0 as [Ha0 _].
  unfold head_match, from_re, RPlus, RAny. cbn [RSeqs RLit append].
  rewrite rmatch_seq, rmatch_bol, rmatch_seq, rmatch_group, rmatch_seq, rmatch_char,
    Hn0, rmatch_star.
  cbn [m_rest m_prev m_caps].
  rewrite (lazy_skip (fun c => negb (is_newline c))
             (fun st' k' => rmatch (RChar (fun c => negb (is_newline c))) st' k')
             _ (ws ++ String "<" (String a0 (addr ++ ">")))%string []
             (fun _ _ => eq_refl) name).
  - eexists. split.
    + apply lazy_now. cbn [m_rest m_prev m_caps].
      rewrite spaces_then_lt_hit by exact Hws.
      rewrite rmatch_seq, rmatch_group, rmatch_seq, rmatch_char, Ha0, rmatch_star.
      cbn [m_rest m_prev m_caps].
      rewrite (lazy_skip (fun c => negb (is_newline c))
                 (fun st' k' => rmatch (RChar (fun c => negb (is_newline c))) st' k')
                 _ ">" _ (fun _ _ => eq_refl) addr).
      * apply lazy_now. cbn [m_rest m_prev m_caps].
        rewrite rmatch_seq, rmatch_char, Ascii.eqb_refl, rmatch_eol. reflexivity.
      * revert Ha. apply all_of_weaken. intros c Hc.
        now apply andb_true_iff in Hc as [Hc _].
      * intros pre c post pv E. subst addr. apply all_of_mid in Ha.
        apply andb_true_iff in Ha as [_ Hc]. apply negb_true_iff in Hc.
        cbn [m_rest m_prev m_caps append].
        rewrite rmatch_seq, rmatch_char, Ascii.eqb_sym. now rewrite Hc.
      * rewrite length_append. lia.
    + unfold group. cbn [r_caps m_caps capture Nat.eqb]. unfold consumed.
      cbn [m_rest]. split; f_equal.
      * apply (take_append (String n0 name)).
      * apply (take_append (String a0 addr) ">").
  - revert Hn. apply all_of_weaken. intros c Hc.
    now apply andb_true_iff in Hc as [Hc _].
  - intros pre c post pv E. cbn [m_rest m_prev m_caps].
    apply spaces_then_lt_fails.
    assert (Hs : trimEnd (String c post) = String c post).
    { apply (trimEnd_suffix (String n0 pre)); [|discriminate].
      cbn [append]. now rewrite <- E. }
    destruct (solid_has_nonspace _ Hs) as [p1 [c' [p2 [E' [Hp Hc']]]]]; [discriminate|].
    rewrite E', append_assoc, (skip_spaces_app p1 _ Hp). cbn [append skip].
    rewrite Hc'.
    assert (Hin : all_of (fun c => negb (is_newline c) && negb (Ascii.eqb c "<"))
                    ((pre ++ p1) ++ String c' p2)%string = true).
    { rewrite append_assoc, <- E', <- E. exact Hn. }
    apply all_of_mid in Hin. apply andb_true_iff in Hin as [_ Hin].
    apply negb_true_iff in Hin. now rewrite Ascii.eqb_sym.
  - rewrite length_append. lia.
Qed.

Lemma skip_head (p q : ascii -> bool) (t : string) :
  all_of p t = true ->
  match skip q t with
  | EmptyString => True
  | String c _ => p c = true
  end.
Proof.
  induction t as [|c t IH]; [exact (fun _ => I)|]. rewrite all_of_cons. intros H.
  apply andb_true_iff in H as [Hc Ht]. cbn [skip].
  destruct (q c); [now apply IH | exact Hc].
Qed.

Lemma head_from_miss (s : string) :
  all_of (fun c => negb (Ascii.eqb c "<")) s = true ->
  head_match from_re None s = None.
Proof.
  intros H. unfold head_match, from_re, RPlus, RAny. cbn [RSeqs RLit].
  rewrite rmatch_seq, rmatch_bol, rmatch_seq, rmatch_group, rmatch_seq.
  destruct s as [|c r]; [reflexivity|].
  rewrite rmatch_char. destruct (negb (is_newline c)); [|reflexivity].
  rewrite rmatch_star. cbn [m_rest m_prev m_caps].
  rewrite all_of_cons in H. apply andb_true_iff in H as [_ H].
  apply (lazy_none (fun c => negb (is_newline c))
           (fun t => all_of (fun c => negb (Ascii.eqb c "<")) t = true)).
  - reflexivity.
  - intros d t Ht. rewrite all_of_cons in Ht. now apply andb_true_iff in Ht as [_ Ht].
  - intros pv t Ht. cbn [m_rest m_prev m_caps]. apply spaces_then_lt_fails.
    pose proof (skip_head _ is_space t Ht) as Hs.
    destruct (skip is_space t); [exact I|].
    apply negb_true_iff in Hs. now rewrite Ascii.eqb_sym.
  - exact H.
Qed.

Lemma head_from_later (c : ascii) (s : string) : head_match from_re (Some c) s = None.
Proof. reflexivity. Qed.

Lemma last_of_some (c : ascii) (p : string) : exists d, last_of (Some c) p = Some d.
Proof. revert c; induction p as [|e p IH]; intros c; cbn; eauto. Qed.

Lemma exec_from_miss (s : string) :
  all_of (fun c => negb (Ascii.eqb c "<")) s = true -> exec from_re s = None.
Proof.
  intros H. unfold exec. rewrite <- (append_empty s) at 1.
  rewrite search_skip.
  - rewrite search_from_head.
    destruct s as [|c s]; cbn [last_of]; [now rewrite (head_from_miss EmptyString)|].
    destruct (last_of_some c s) as [d ->].
    now rewrite head_from_later.
  - intros p1 c p2 E. rewrite append_empty.
    destruct p1 as [|d p1].
    + cbn [last_of]. apply head_from_miss. cbn [append] in E. now rewrite <- E.
    + cbn [last_of]. destruct (last_of_some d p1) as [e ->]. apply head_from_later.
Qed.

(** X10: parseFromAddress returns, for a sender of the form name,
    white space, <addr> (name non-empty, without line break or <, not
    ending in white space; addr non-empty, without line break or >),
    the address trimmed and in lower case and the name without
    quotation marks, trimmed; for a sender without any < it returns
    the trimmed sender in lower case as the address and, as the name,
    what stands before the first @ of the trimmed sender. *)
Theorem X10_parseFromAddress_forms :
  (forall name ws addr : string,
      name <> EmptyString ->
      all_of (fun c => negb (is_newline c) && negb (Ascii.eqb c "<")) name = true ->
      trimEnd name = name ->
      all_of is_space ws = true ->
      addr <> EmptyString ->
      all_of (fun c => negb (is_newline c) && negb (Ascii.eqb c ">")) addr = true ->
      parseFromAddress (name ++ ws ++ "<" ++ addr ++ ">")
      = (toLowerCase (trim addr), trim (without is_quote name)))
  /\ (forall from : string,
         all_of (fun c => negb (Ascii.eqb c "<")) from = true ->
         parseFromAddress from
         = (toLowerCase (trim from), nth_string 0 (split_on "@" (trim from)))).
Proof.
  split.
  - intros name ws addr H1 H2 H3 H4 H5 H6.
    destruct (head_from_hit name ws addr H1 H2 H3 H4 H5 H6) as [res [E [G1 G2]]].
    unfold parseFromAddress.
    replace (truthy (name ++ ws ++ "<" ++ addr ++ ">")%string) with true
      by (now destruct name).
    cbn [negb]. unfold exec. rewrite search_from_head, E.
    rewrite !group_prepend, G1, G2. cbn [or_empty]. f_equal. f_equal.
    unfold replace_all. apply (replace_class is_quote (String.length name)); lia.
  - intros from H. unfold parseFromAddress.
    destruct (truthy from) eqn:T; cbn [negb];
      [|destruct from; [reflexivity | discriminate]].
    now rewrite exec_from_miss.
Qed.

(** ** The body preview *)

Lemma collapsed_take (n : nat) (s : string) (b : bool) :
  collapsed_from b s = true -> collapsed_from b (take n s) = true.
Proof.
  unfold take. revert n b; induction s as [|c r IH]; intros n b H;
    destruct n; cbn; try reflexivity.
  cbn in H. destruct (is_space c).
  - apply andb_true_iff in H as [H1 H2]. rewrite H1. now apply IH.
  - now apply IH.
Qed.

Lemma no_leading_take (n : nat) (s : string) :
  no_leading_space s = true -> no_leading_space (take n s) = true.
Proof. destruct s, n; cbn; auto. Qed.

(** X11: For every body, extractPreview returns at most 300
    characters, in which every run of white space is one space
    character and which do not begin with white space. *)
Theorem X11_extractPreview_shape (body : string) :
  String.length (extractPreview body) <= 300
  /\ collapsed_from false (extractPreview body) = true
  /\ no_leading_space (extractPreview body) = true.
Proof.
  unfold extractPreview. destruct (truthy body); cbn [negb]; [|repeat split; cbn; lia].
  set (text := replace_all _ _ body).
  unfold replace_all.
  rewrite (replace_spaces (String.length text)) by lia.
  split; [rewrite length_take; lia|]. split.
  - apply collapsed_take. unfold trim, collapse_spaces.
    apply collapsed_trimEnd, collapsed_trimStart, collapse_is_collapsed.
  - apply no_leading_take. unfold trim.
    apply no_leading_trimEnd, no_leading_trimStart.
Qed.

(** ** Where a match can end *)

Lemma star_loop_reaches {A : Type} (Q : string -> Prop)
    (step : mstate -> (mstate -> option A) -> option A) (greedy : bool)
    (k : mstate -> option A) :
  (forall st k1 x, Q (m_rest st) -> step st k1 = Some x ->
                   exists st', Q (m_rest st') /\ k1 st' = Some x) ->
  forall fuel st x,
    Q (m_rest st) -> star_loop step greedy k fuel st = Some x ->
    exists st', Q (m_rest st') /\ k st' = Some x.
Proof.
  intros Hs. induction fuel as [|fuel IH]; intros st x Hq; cbn; [eauto|].
  assert (Hagain : forall y,
             step st (fun st' =>
                        if String.length (m_rest st') <? String.length (m_rest st)
                        then star_loop step greedy k fuel st' else None) = Some y ->
             exists st', Q (m_rest st') /\ k st' = Some y).
  { intros y Hy. apply Hs in Hy as [st' [Hq' Hy]]; [|exact Hq].
    destruct (_ <? _) in Hy; [now apply IH in Hy | discriminate]. }
  destruct greedy.
  - destruct (step st _) as [y|] eqn:E; cbn; [intros [= <-]; now apply Hagain | eauto].
  - destruct (k st) as [y|] eqn:E; cbn; [intros [= <-]; eauto | apply Hagain].
Qed.

(** A match ends in what is left of the input: a property of the
    input that its tails inherit holds where the continuation is
    called. *)
Lemma rmatch_reaches {A : Type} (Q : string -> Prop) (r : regex) :
  (forall c t, Q (String c t) -> Q t) ->
  forall (st : mstate) (k : mstate -> option A) (x : A),
    Q (m_rest st) -> rmatch r st k = Some x ->
    exists st', Q (m_rest st') /\ k st' = Some x.
Proof.
  intros Ht.
  induction r as [p| |a IHa b IHb|a IHa b IHb|g a IHa|n a IHa| | |];
    intros st k x Hq; cbn.
  - destruct (m_rest st) as [|c t] eqn:E; [discriminate|].
    destruct (p c); [|discriminate]. intros H.
    exists (MState (Some c) t (m_caps st)). split; [|exact H].
    exact (Ht c t Hq).
  - eauto.
  - intros H. apply IHa in H as [st1 [Hq1 H]]; [|exact Hq]. now apply IHb in H.
  - destruct (rmatch a st k) as [y|] eqn:E; cbn.
    + intros [= <-]. now apply IHa in E.
    + now apply IHb.
  - apply star_loop_reaches; [|exact Hq]. intros st0 k1 y Hq0. now apply IHa.
  - intros H. apply IHa in H as [st1 [Hq1 H]]; [|exact Hq]. eexists. split; [|exact H].
    exact Hq1.
  - destruct (m_prev st); [discriminate|]. intros H. exists st. now split.
  - destruct (m_rest st) eqn:E; [|discriminate]. intros H. exists st.
    split; [now rewrite E | exact H].
  - destruct (xorb _ _); [|discriminate]. intros H. exists st. now split.
Qed.

(** [exec] finds nothing where the pattern matches at no position. *)
Lemma search_none (Q : string -> Prop) (r : regex) :
  (forall c t, Q (String c t) -> Q t) ->
  (forall prev t, Q t -> head_match r prev t = None) ->
  forall (s : string) (prev : option ascii) (acc : string),
    Q s -> search_from r prev s acc = None.
Proof.
  intros Ht Hh. induction s as [|c s IH]; intros prev acc Hq;
    rewrite search_from_head, (Hh prev _ Hq); [reflexivity|].
  now rewrite IH by now apply (Ht c).
Qed.

Lemma matchAll_none (Q : string -> Prop) (r : regex) (s : string) :
  (forall c t, Q (String c t) -> Q t) ->
  (forall prev t, Q t -> head_match r prev t = None) ->
  Q s -> matchAll r s = [] /\ exec r s = None.
Proof.
  intros Ht Hh Hq. unfold matchAll, exec. cbn [matches_from].
  now rewrite (search_none Q r Ht Hh s None EmptyString Hq).
Qed.

(** ** Literal patterns *)

Lemma head_literal (p : string) (prev : option ascii) (s : string) :
  p <> EmptyString ->
  head_match (RLitI p) prev s = None <-> starts_ci s p = false.
Proof.
  intros Hp. unfold head_match. rewrite rmatch_literal by exact Hp.
  destruct (starts_ci s p); split; intros H; try discriminate; reflexivity.
Qed.

Lemma test_literal (p s : string) :
  p <> EmptyString -> test (RLitI p) s = includes_ci s p.
Proof.
  intros Hp. unfold test, exec.
  assert (H : forall prev acc,
             match search_from (RLitI p) prev s acc with
             | Some _ => true | None => false end = includes_ci s p).
  { induction s as [|c s IH]; intros prev acc; rewrite search_from_head;
      cbn [includes_ci];
      destruct (starts_ci _ p) eqn:E.
    - destruct (head_match _ _ _) eqn:F; [reflexivity|].
      apply head_literal in F; [congruence | exact Hp].
    - apply (head_literal p prev) in E; [|exact Hp]. now rewrite E.
    - destruct (head_match _ _ _) eqn:F; [reflexivity|].
      apply head_literal in F; [congruence | exact Hp].
    - apply (head_literal p prev) in E; [|exact Hp]. rewrite E. cbn [orb].
      rewrite <- (IH (Some c) EmptyString).
      now destruct (search_from _ _ s EmptyString). }
  apply H.
Qed.

Lemma rmatch_alt {A : Type} (a b : regex) (st : mstate) (k : mstate -> option A) :
  rmatch (RAlt a b) st k = first_some (rmatch a st k) (rmatch b st k).
Proof. reflexivity. Qed.

Lemma includes_ci_tail (c : ascii) (t p : string) :
  includes_ci (String c t) p = false ->
  starts_ci (String c t) p = false /\ includes_ci t p = false.
Proof. cbn [includes_ci]. intros H. now apply orb_false_iff in H. Qed.

Lemma includes_ci_head (t p : string) :
  includes_ci t p = false -> starts_ci t p = false.
Proof. destruct t; cbn [includes_ci]; intros H; now apply orb_false_iff in H. Qed.

(** ** Addresses that are not found *)

Lemma plain_text_parts (t : string) :
  plain_text t = true ->
  all_of (fun c => negb (Ascii.eqb c "\") && negb (Ascii.eqb c "<")) t = true
  /\ starts_ci t "failed" = false /\ starts_ci t "undelivered" = false
  /\ starts_ci t "Final-Recipient:" = false
  /\ starts_ci t "Original-Recipient:" = false.
Proof.
  unfold plain_text. intros H.
  do 4 (apply andb_true_iff in H as [H ?H]).
  repeat match goal with
         | E : negb _ = true |- _ => apply negb_true_iff, includes_ci_head in E
         end.
  now repeat split.
Qed.

Lemma plain_text_tail (c : ascii) (t : string) :
  plain_text (String c t) = true -> plain_text t = true.
Proof.
  unfold plain_text. intros H.
  do 4 (apply andb_true_iff in H as [H ?H]).
  repeat match goal with
         | E : negb _ = true |- _ =>
             apply negb_true_iff, includes_ci_tail in E; destruct E as [_ E]
         end.
  rewrite all_of_cons in H. apply andb_true_iff in H as [_ H].
  rewrite H, H0, H1, H2, H3. reflexivity.
Qed.

Lemma plain_text_head (c : ascii) (t : string) :
  plain_text (String c t) = true ->
  Ascii.eqb "\" c = false /\ Ascii.eqb "<" c = false.
Proof.
  intros H. apply plain_text_parts in H as [H _]. rewrite all_of_cons in H.
  apply andb_true_iff in H as [H _]. apply andb_true_iff in H as [H1 H2].
  apply negb_true_iff in H1, H2. now rewrite !(Ascii.eqb_sym _ c).
Qed.

Lemma recipient_patterns_need_more :
  Forall (fun pattern : bool * (bool -> regex) =>
            forall ci prev t,
              ci = true \/ ci = fst pattern ->
              plain_text t = true -> head_match (snd pattern ci) prev t = None)
         recipientPatterns.
Proof.
  unfold recipientPatterns.
  repeat apply Forall_cons; try apply Forall_nil;
    cbn [fst snd]; intros ci prev t Hci Ht;
    try (assert (E : ci = true) by (now destruct Hci); subst ci);
    unfold head_match, lit; cbn [RSeqs RAlts RLit];
    pose proof (plain_text_parts t Ht) as [_ [F1 [F2 [F3 F4]]]].
  - rewrite rmatch_seq, rmatch_alt, !rmatch_literal by discriminate.
    now rewrite F1, F2.
  - rewrite rmatch_seq, rmatch_literal by discriminate. now rewrite F3.
  - rewrite rmatch_seq, rmatch_literal by discriminate. now rewrite F4.
  - rewrite rmatch_seq. destruct t as [|c t]; [reflexivity|].
    rewrite rmatch_char. now rewrite (proj2 (plain_text_head c t Ht)).
  - match goal with |- ?m = None => destruct m as [x|] eqn:E; [exfalso|reflexivity] end.
    rewrite rmatch_seq in E.
    apply (rmatch_reaches (fun t => plain_text t = true)) in E as [st [Hq E]];
      [|exact plain_text_tail|exact Ht].
    destruct st as [pv [|c [|d u]] caps]; cbn [m_rest] in Hq;
      rewrite !rmatch_seq in E; try discriminate E;
      rewrite rmatch_char in E; destruct (Ascii.eqb ":" c); try discriminate E.
    rewrite rmatch_char in E. apply plain_text_tail in Hq.
    now rewrite (proj1 (plain_text_head d u Hq)) in E.
  - rewrite rmatch_seq. destruct t as [|c t]; [reflexivity|].
    rewrite rmatch_char. now rewrite (proj1 (plain_text_head c t Ht)).
Qed.

(** X12: extractRecipientEmail returns null when neither the body nor
    the subject contains a <, a backslash, or one of the words failed,
    undelivered, Final-Recipient: and Original-Recipient: (in any
    letter case): the fifth and the sixth pattern ask for a backslash
    in the text, so an address that merely stands in the text is not
    found. *)
Theorem X12_bare_address_is_not_extracted (body subject : string) :
  plain_text body = true -> plain_text subject = true ->
  extractRecipientEmail body subject = None.
Proof.
  intros Hb Hs. unfold extractRecipientEmail.
  assert (H : forall patterns,
             Forall (fun pattern : bool * (bool -> regex) =>
                       forall ci prev t,
                         ci = true \/ ci = fst pattern ->
                         plain_text t = true ->
                         head_match (snd pattern ci) prev t = None) patterns ->
             fold_left
               (fun acc (pattern : bool * (bool -> regex)) =>
                  let acc1 := fold_left (fun acc m => add_candidate m acc)
                                        (matchAll (snd pattern true) body) acc in
                  match exec (snd pattern (fst pattern)) subject with
                  | Some subjectMatch => add_candidate subjectMatch acc1
                  | None => acc1
                  end) patterns [] = []).
  { induction patterns as [|p ps IH]; intros F; [reflexivity|].
    inversion F as [|p' ps' Hp Hps]; subst. cbn [fold_left]. cbv zeta.
    rewrite (proj1 (matchAll_none (fun t => plain_text t = true) (snd p true) body
                      plain_text_tail (fun prev t => Hp true prev t (or_introl eq_refl))
                      Hb)).
    rewrite (proj2 (matchAll_none (fun t => plain_text t = true) (snd p (fst p)) subject
                      plain_text_tail (fun prev t => Hp (fst p) prev t (or_intror eq_refl))
                      Hs)).
    cbn [fold_left]. now apply IH. }
  specialize (H recipientPatterns recipient_patterns_need_more).
  cbv zeta in H |- *. now rewrite H.
Qed.

(** ** The two bounce tests *)

Lemma eqb_to_ci (a c : ascii) : Ascii.eqb a c = true -> eqb_ci a c = true.
Proof. intros H. apply Ascii.eqb_eq in H. subst. unfold eqb_ci. apply Ascii.eqb_refl. Qed.

Lemma startsWith_to_ci (s p : string) : startsWith s p = true -> starts_ci s p = true.
Proof.
  revert s; induction p as [|a p IH]; intros s; [reflexivity|].
  destruct s as [|c s]; cbn; [discriminate|]. intros H.
  apply andb_true_iff in H as [H1 H2]. now rewrite (eqb_to_ci a c H1), IH.
Qed.

Lemma includes_to_ci (s p : string) : includes s p = true -> includes_ci s p = true.
Proof.
  induction s as [|c s IH]; cbn [includes includes_ci]; intros H;
    apply orb_true_iff in H as [H|H]; try discriminate;
    try (now rewrite (startsWith_to_ci _ _ H)).
  rewrite (IH H). apply orb_true_r.
Qed.

Lemma startsWith_shorter (s p q : string) :
  startsWith s (p ++ q)%string = true -> startsWith s p = true.
Proof.
  revert s; induction p as [|a p IH]; intros s; [now destruct s|].
  destruct s as [|c s]; cbn; [discriminate|]. intros H.
  apply andb_true_iff in H as [H1 H2]. now rewrite H1, (IH s H2).
Qed.

Lemma includes_shorter (s p q : string) :
  includes s (p ++ q)%string = true -> includes s p = true.
Proof.
  induction s as [|c s IH]; cbn [includes]; intros H;
    apply orb_true_iff in H as [H|H]; try discriminate;
    try (now rewrite (startsWith_shorter _ _ _ H)).
  rewrite (IH H). apply orb_true_r.
Qed.

(** X13: Every message that the classifier's isBounce accepts although
    its sender contains none of mailer-daemon, postmaster and
    mail-daemon (so on account of its subject) is also a bounce for
    the detector's isBounceMessage, provided its headers are absent or
    a Map. *)
Theorem X13_subject_bounces_are_detected (email : Message) :
  isBounce email = true ->
  includes (toLowerCase (from email)) "mailer-daemon" = false ->
  includes (toLowerCase (from email)) "postmaster" = false ->
  includes (toLowerCase (from email)) "mail-daemon" = false ->
  (forall entries, headers email <> HObject entries) ->
  isBounceMessage email = Some true.
Proof.
  intros H F1 F2 F3 Hh. unfold isBounce in H. cbv zeta in H.
  rewrite F1, F2, F3 in H. cbn [existsb orb] in H.
  assert (S : some_test bounce_subjectPatterns (toLowerCase (subject email)) = true).
  { unfold some_test, bounce_subjectPatterns. cbn [existsb].
    rewrite !test_literal by discriminate.
    repeat (apply orb_true_iff in H as [H|H]); try discriminate H;
      try (apply includes_to_ci in H; rewrite H; now rewrite ?orb_true_r).
    apply (includes_shorter _ "failure" " notice"), includes_to_ci in H.
    rewrite H. now rewrite ?orb_true_r. }
  unfold isBounceMessage. cbv zeta. rewrite S, orb_true_r. cbn [orb].
  destruct (headers email) as [|l|l]; [reflexivity..|]. now destruct (Hh l).
Qed.

Section Worker.

Variable env : Env.

(** ** A cycle always ends *)

Lemma disconnect_disconnected (w : World) : disconnected (disconnect w).
Proof.
  unfold disconnected, disconnect.
  destruct (imapClient w) as [|[c|]] eqn:E; cbn; auto.
Qed.

(** A [try] whose [catch] returns does not throw. *)
Lemma try_catch_returns (m : M unit) (h : string -> M unit) (w : World) :
  (forall e, returns (h e)) -> exists w', try_catch m h w = (Ok tt, w').
Proof.
  intros H. unfold try_catch. destruct (m w) as [[[]|e] w0]; [eauto|].
  destruct (run_returns (h e) w0 (H e)) as [[] [w' E]]. eauto.
Qed.

(** X14: Whatever the store, the server and the credentials do,
    processMailbox returns without throwing, and when it returns no
    IMAP connection is open. *)
Theorem X14_processMailbox_returns_disconnected (mailboxId : uuid) (w : World) :
  exists w', processMailbox env mailboxId w = (Ok tt, w') /\ disconnected w'.
Proof.
  unfold processMailbox, try_finally.
  match goal with |- context [try_catch ?m ?h w] =>
    destruct (try_catch_returns m h w) as [w1 E]
  end.
  - intros e. apply returns_try_catch.
  - rewrite E. eexists. split; [reflexivity | apply disconnect_disconnected].
Qed.

(** ** A failed connection *)

Lemma no_active_row (mailboxId : uuid) (f : MailboxRow -> MailboxRow) (d : DB) :
  (forall r, mb_status (f r) <> ACTIVE) ->
  (forall r, mb_id (f r) = mb_id r) ->
  filter (fun r => (mb_id r =? mailboxId) && status_eqb (mb_status r) ACTIVE)
         (map (fun r => if mb_id r =? mailboxId then f r else r) (mailboxes d)) = [].
Proof.
  intros Hs Hi. apply filter_none. intros x Hx.
  apply in_map_iff in Hx as [r [<- _]].
  destruct (mb_id r =? mailboxId) eqn:E.
  - rewrite Hi, E. cbn [andb]. specialize (Hs r). now destruct (mb_status (f r)).
  - now rewrite E.
Qed.

(** A cycle on a mailbox that has no ACTIVE row writes nothing, as
    long as the store answers. *)
Lemma inactive_cycle_writes_nothing (mailboxId : uuid) (w : World) :
  filter (fun r => (mb_id r =? mailboxId) && status_eqb (mb_status r) ACTIVE)
         (mailboxes (db w)) = [] ->
  answered (faults env (tick w) (SelectMailbox mailboxId)) ->
  db (snd (processMailbox env mailboxId w)) = db w.
Proof.
  intros Hf Ha. unfold processMailbox, try_finally, try_catch.
  unfold bind at 1. unfold supabase at 1.
  destruct (faults env (tick w) (SelectMailbox mailboxId)); [| |contradiction].
  - unfold select_active_mailbox. rewrite Hf. cbn [single ret snd].
    now rewrite disconnect_db.
  - cbn [ret snd]. now rewrite disconnect_db.
Qed.

End Worker.

(** X15: If the mailbox is ACTIVE, its password decrypts, and the IMAP
    connection fails or the fetch throws, then (the store carrying out
    the two requests) processMailbox returns, leaves no connection
    open and changes nothing but the mailbox row, which gets status
    ERROR and the error message as last_error; and every later cycle
    on that store whose mailbox lookup is answered leaves the store as
    it is. *)
Theorem X15_failed_connection_parks_mailbox (env : Env) (mailboxId : uuid) (w : World)
    (mailbox : MailboxRow) (password message : string) :
  faults env (tick w) (SelectMailbox mailboxId) = Succeeds ->
  fst (select_active_mailbox mailboxId (db w)) = Data mailbox ->
  decrypt env (mb_imap_password_encrypted mailbox) = Ok password ->
  (exists error, connect_error (server env) = Some error
                 /\ message = ("IMAP connection failed: " ++ error)%string)
  \/ (connect_error (server env) = None
      /\ fetched env w (mb_last_synced_uid mailbox) = Throw message) ->
  faults env (S (tick w)) (UpdateMailbox mailboxId) = Succeeds ->
  exists w',
    processMailbox env mailboxId w = (Ok tt, w')
    /\ disconnected w'
    /\ db w' = set_mailboxes (db w)
                 (map (fun r => if mb_id r =? mailboxId then mark_error message r else r)
                      (mailboxes (db w)))
    /\ forall (env2 : Env) (w2 : World),
         db w2 = db w' ->
         answered (faults env2 (tick w2) (SelectMailbox mailboxId)) ->
         db (snd (processMailbox env2 mailboxId w2)) = db w'.
Proof.
  intros Hsel Hrow Hdec Hfail Hupd.
  assert (E : processMailbox env mailboxId w
              = (Ok tt, mkWorld (set_mailboxes (db w)
                   (map (fun r => if mb_id r =? mailboxId then mark_error message r else r)
                        (mailboxes (db w))))
                   (S (S (tick w))) (Client None))).
  { unfold processMailbox, try_finally, try_catch.
    unfold bind at 1. rewrite (supabase_succeeds _ _ _ _ Hsel), Hrow.
    change (snd (select_active_mailbox mailboxId (db w))) with (db w).
    unfold bind at 1. unfold lift at 1. rewrite Hdec.
    unfold bind at 1. unfold set_client at 1.
    unfold bind at 1. unfold connect.
    destruct Hfail as [[error [Hcon ->]]|[Hcon Hfetch]]; rewrite Hcon.
    - unfold bind at 1. unfold set_client at 1. unfold throw at 1.
      unfold bind at 1. rewrite supabase_succeeds by exact Hupd. reflexivity.
    - unfold set_client at 1.
      unfold bind at 1. unfold fetch at 1. cbn [imapClient tick db snd].
      unfold fetched in Hfetch. rewrite Hfetch.
      unfold bind at 1. rewrite supabase_succeeds by exact Hupd. reflexivity. }
  eexists. split; [exact E|]. split; [now right|]. split; [reflexivity|].
  intros env2 w2 Hdb Ha. rewrite <- Hdb.
  apply inactive_cycle_writes_nothing; [|exact Ha].
  rewrite Hdb. cbn [db set_mailboxes mailboxes]. now apply no_active_row.
Qed.

(** ** Opening and joining threads *)

Section Threads.

Variable env : Env.

Lemma findOrCreateThread_by_subject (mailboxId userId : uuid) (email : ThreadInput)
    (w : World) :
  no_reply_headers email ->
  findOrCreateThread env mailboxId userId email w
  = try_catch (bySubject env mailboxId userId email) (fun error => throw error) w.
Proof.
  intros [H1 H2]. unfold findOrCreateThread, byReferences. now rewrite H1, H2.
Qed.

Lemma createThread_appends (mailboxId userId : uuid) (email : ThreadInput) (w : World) :
  faults env (tick w) (InsertThread mailboxId) = Succeeds ->
  createThread env mailboxId userId email (normalizeSubject (ti_subject email)) w
  = (Ok (next_id (db w)),
     mkWorld (mkDB (mailboxes (db w)) (emails (db w))
                   (email_threads (db w)
                    ++ [new_thread (next_id (db w)) mailboxId userId email])
                   (email_bounces (db w)) (email_bounce_events (db w))
                   (S (next_id (db w))))
             (S (tick w)) (imapClient w)).
Proof.
  intros H. unfold createThread, bind. rewrite supabase_succeeds by exact H. reflexivity.
Qed.

Lemma fresh_subject_filter (d : DB) (mailboxId : uuid) (n : string) (since : Z) :
  fresh_subject d mailboxId n ->
  filter (fun t => (t_mailbox_id t =? mailboxId)
                   && String.eqb (t_normalized_subject t) n
                   && (since <=? t_last_message_at t)%Z)
         (email_threads d) = [].
Proof.
  intros H. apply filter_none. intros t Ht.
  destruct (t_mailbox_id t =? mailboxId) eqn:E1; [|reflexivity].
  destruct (String.eqb (t_normalized_subject t) n) eqn:E2; [|reflexivity].
  apply Nat.eqb_eq in E1. apply String.eqb_eq in E2. now destruct (H t Ht E1).
Qed.

(** X16: With a store that carries out every request: for an email
    without reply headers whose normalized subject has more than 5
    characters and is new to the mailbox, findOrCreateThread inserts a
    thread and returns its id; and a later email without reply headers
    and with the same normalized subject gets that id and changes
    nothing, as long as the first email was received within the seven
    days before the lookup. *)
Theorem X16_opened_thread_is_joined (mailboxId userId : uuid) (email reply : ThreadInput)
    (w : World) :
  no_reply_headers email -> no_reply_headers reply ->
  5 < String.length (normalizeSubject (ti_subject email)) ->
  normalizeSubject (ti_subject reply) = normalizeSubject (ti_subject email) ->
  fresh_subject (db w) mailboxId (normalizeSubject (ti_subject email)) ->
  (forall n r, faults env n r = Succeeds) ->
  (clock env (S (S (tick w))) - sevenDays <= ti_receivedAt email)%Z ->
  exists w1 w2,
    findOrCreateThread env mailboxId userId email w = (Ok (next_id (db w)), w1)
    /\ email_threads (db w1)
       = email_threads (db w) ++ [new_thread (next_id (db w)) mailboxId userId email]
    /\ findOrCreateThread env mailboxId userId reply w1 = (Ok (next_id (db w)), w2)
    /\ db w2 = db w1.
Proof.
  intros He Hr Hlen Hsame Hfresh Hok Hwin.
  rewrite (findOrCreateThread_by_subject _ _ _ _ He).
  unfold try_catch, bySubject.
  assert (Hlong : truthy (normalizeSubject (ti_subject email))
                  && (5 <? String.length (normalizeSubject (ti_subject email))) = true).
  { apply andb_true_iff. split; [|now apply Nat.ltb_lt].
    destruct (normalizeSubject (ti_subject email)); [cbn in Hlen; lia | reflexivity]. }
  rewrite Hlong.
  unfold bind at 1. unfold now at 1. unfold bind at 1.
  rewrite supabase_succeeds by apply Hok.
  unfold select_similar_thread at 1. cbn [fst snd].
  rewrite (fresh_subject_filter _ _ _ _ Hfresh). cbn [firstn maybeSingle data_of].
  rewrite createThread_appends by apply Hok. cbn [db tick imapClient].
  eexists. eexists. split; [reflexivity|]. split; [reflexivity|].
  rewrite (findOrCreateThread_by_subject _ _ _ _ Hr).
  unfold try_catch, bySubject. rewrite Hsame, Hlong.
  unfold bind at 1. unfold now at 1. unfold bind at 1.
  rewrite supabase_succeeds by apply Hok.
  unfold select_similar_thread. cbn [fst snd db email_threads tick].
  rewrite filter_app, (fresh_subject_filter _ _ _ _ Hfresh).
  cbn [filter new_thread t_mailbox_id t_normalized_subject t_last_message_at app].
  rewrite Nat.eqb_refl, String.eqb_refl.
  replace (_ <=? _)%Z with true by (symmetry; apply Z.leb_le; exact Hwin).
  cbn [andb firstn maybeSingle data_of t_id ret]. split; reflexivity.
Qed.

(** X17: For an email without reply headers whose normalized subject
    has at most 5 characters, findOrCreateThread looks for no existing
    thread: if the insert succeeds it appends a new thread and returns
    its id. *)
Theorem X17_short_subject_opens_new_thread (mailboxId userId : uuid) (email : ThreadInput)
    (w : World) :
  no_reply_headers email ->
  String.length (normalizeSubject (ti_subject email)) <= 5 ->
  faults env (tick w) (InsertThread mailboxId) = Succeeds ->
  exists w',
    findOrCreateThread env mailboxId userId email w = (Ok (next_id (db w)), w')
    /\ email_threads (db w')
       = email_threads (db w) ++ [new_thread (next_id (db w)) mailboxId userId email].
Proof.
  intros He Hlen Hok.
  rewrite (findOrCreateThread_by_subject _ _ _ _ He).
  unfold try_catch, bySubject.
  replace (5 <? String.length (normalizeSubject (ti_subject email))) with false
    by (symmetry; apply Nat.ltb_ge; exact Hlen).
  rewrite andb_false_r, createThread_appends by exact Hok.
  eexists. split; reflexivity.
Qed.

(** ** Thread statistics *)

Lemma insert_by_received_In (x y : EmailRow) (l : list EmailRow) :
  In y (insert_by_received x l) <-> y = x \/ In y l.
Proof.
  induction l as [|z l IH]; cbn; [intuition|].
  destruct (e_received_at z <? e_received_at x)%Z; cbn; [intuition|].
  rewrite IH. intuition.
Qed.

Lemma insert_by_received_length (x : EmailRow) (l : list EmailRow) :
  List.length (insert_by_received x l) = S (List.length l).
Proof.
  induction l as [|z l IH]; cbn; [reflexivity|].
  destruct (e_received_at z <? e_received_at x)%Z; cbn; [reflexivity | now rewrite IH].
Qed.

Lemma latest_first_In (y : EmailRow) (rows : list EmailRow) :
  In y (latest_first rows) <-> In y rows.
Proof.
  unfold latest_first. induction rows as [|x rows IH]; cbn; [reflexivity|].
  rewrite insert_by_received_In, IH. intuition.
Qed.

Lemma latest_first_length (rows : list EmailRow) :
  List.length (latest_first rows) = List.length rows.
Proof.
  unfold latest_first. induction rows as [|x rows IH]; cbn; [reflexivity|].
  now rewrite insert_by_received_length, IH.
Qed.

Lemma insert_by_received_headed (x : EmailRow) (l : list EmailRow) :
  headed l -> headed (insert_by_received x l).
Proof.
  destruct l as [|z l]; cbn; [intros _ y [<-|[]]; lia|].
  intros H. destruct (Z.ltb_spec (e_received_at z) (e_received_at x)); cbn.
  - intros y [<-|Hy]; [lia|]. specialize (H y Hy). lia.
  - intros y [<-|Hy]; [lia|]. apply insert_by_received_In in Hy as [->|Hy]; [lia|].
    apply H. now right.
Qed.

Lemma latest_first_headed (rows : list EmailRow) : headed (latest_first rows).
Proof.
  unfold latest_first.
  induction rows as [|x rows IH]; [exact I|]. now apply insert_by_received_headed.
Qed.

(** What [updateThreadStats] does when its requests are carried
    out. *)
Lemma updateThreadStats_run (threadId : uuid) (w : World) :
  faults env (tick w) (SelectThreadEmails threadId) = Succeeds ->
  faults env (S (tick w)) (UpdateThread threadId) = Succeeds ->
  updateThreadStats env threadId w
  = match latest_first (thread_emails (db w) threadId) with
    | [] => (Ok tt, mkWorld (db w) (S (tick w)) (imapClient w))
    | first :: _ =>
        (Ok tt,
         mkWorld (snd (update_thread threadId
                    (thread_stats
                       (List.length (latest_first (thread_emails (db w) threadId)))
                       (e_received_at first)
                       (existsb (fun msg => negb (e_is_read msg))
                          (latest_first (thread_emails (db w) threadId)))
                       (senders (latest_first (thread_emails (db w) threadId))))
                    (db w)))
                 (S (S (tick w))) (imapClient w))
    end.
Proof.
  intros H1 H2. unfold updateThreadStats, try_catch. unfold bind at 1.
  rewrite supabase_succeeds by exact H1.
  unfold select_thread_emails. cbn [fst snd].
  change (fold_right insert_by_received [] _)
    with (latest_first (thread_emails (db w) threadId)).
  destruct (latest_first (thread_emails (db w) threadId)) as [|first rest];
    [reflexivity|].
  unfold bind at 1. rewrite supabase_succeeds by exact H2. reflexivity.
Qed.

(** X18: When its two requests succeed, updateThreadStats writes
    nothing for a thread without emails; otherwise it sets, in the row
    of the thread only, message_count to the number of its emails,
    last_message_at to the latest received_at among them, is_unread to
    whether one of them is unread, and the participants to their
    senders, and it leaves the emails as they are. *)
Theorem X18_updateThreadStats_counts (threadId : uuid) (w : World) :
  faults env (tick w) (SelectThreadEmails threadId) = Succeeds ->
  faults env (S (tick w)) (UpdateThread threadId) = Succeeds ->
  (thread_emails (db w) threadId = [] ->
   updateThreadStats env threadId w
   = (Ok tt, mkWorld (db w) (S (tick w)) (imapClient w)))
  /\ (thread_emails (db w) threadId <> [] ->
      exists w' last,
        updateThreadStats env threadId w = (Ok tt, w')
        /\ (forall r, In r (thread_emails (db w) threadId) ->
                      (e_received_at r <= last)%Z)
        /\ (exists r, In r (thread_emails (db w) threadId) /\ e_received_at r = last)
        /\ email_threads (db w')
           = map (fun t =>
                    if t_id t =? threadId
                    then thread_stats
                           (List.length (thread_emails (db w) threadId)) last
                           (existsb (fun msg => negb (e_is_read msg))
                                    (latest_first (thread_emails (db w) threadId)))
                           (senders (latest_first (thread_emails (db w) threadId))) t
                    else t)
                 (email_threads (db w))
        /\ emails (db w') = emails (db w)).
Proof.
  intros H1 H2. rewrite (updateThreadStats_run threadId w H1 H2). split.
  - intros Hnil. rewrite Hnil. reflexivity.
  - intros Hne.
    pose proof (latest_first_headed (thread_emails (db w) threadId)) as Hh.
    pose proof (latest_first_length (thread_emails (db w) threadId)) as Hl.
    pose proof (fun y => latest_first_In y (thread_emails (db w) threadId)) as Hin.
    destruct (latest_first (thread_emails (db w) threadId)) as [|first rest] eqn:E.
    + destruct (thread_emails (db w) threadId); [contradiction | discriminate Hl].
    + eexists. exists (e_received_at first). split; [reflexivity|].
      split; [intros r Hr; apply Hh, Hin, Hr|].
      split; [exists first; split; [apply Hin; now left | reflexivity]|].
      cbn [snd update_thread db email_threads emails]. rewrite Hl. split; reflexivity.
Qed.

End Threads.

(** ** Conditions on the store *)

(** Breaks a computation down to its requests, each of which is to
    leave a part of the store alone. *)
Ltac frame :=
  first
    [ apply keeps_ret | apply keeps_throw | apply keeps_now | apply keeps_sync
    | apply keeps_set_client | apply keeps_lift | apply keeps_fetch
    | apply keeps_connect
    | apply keeps_supabase; intros ?;
      first [ reflexivity
            | unfold insert_email;
              match goal with |- context [if ?b then _ else _] => destruct b end;
              reflexivity ]
    | apply keeps_bind; [|intros ?]
    | apply keeps_try_catch; [|intros ?]
    | match goal with
      | |- keeps _ (match ?x with _ => _ end) => destruct x
      | |- keeps _ (let (_, _) := ?x in _) => destruct x
      end ].

Section Integrity.

Variable env : Env.

Lemma triple_ret {A : Type} (pre : DB -> Prop) (a : A) (post : A -> DB -> Prop)
    (exc : DB -> Prop) :
  (forall d, pre d -> post a d) -> triple pre (ret a) post exc.
Proof. intros H w Hw. now apply H. Qed.

Lemma triple_throw {A : Type} (pre : DB -> Prop) (e : string) (post : A -> DB -> Prop)
    (exc : DB -> Prop) :
  (forall d, pre d -> exc d) -> triple pre (throw e) post exc.
Proof. intros H w Hw. now apply H. Qed.

Lemma triple_bind {A B : Type} (pre : DB -> Prop) (m : M A) (mid : A -> DB -> Prop)
    (k : A -> M B) (post : B -> DB -> Prop) (exc : DB -> Prop) :
  triple pre m mid exc -> (forall a, triple (mid a) (k a) post exc) ->
  triple pre (bind m k) post exc.
Proof.
  intros Hm Hk w Hw. unfold bind. specialize (Hm w Hw).
  destruct (m w) as [[a|e] w']; [now apply Hk | exact Hm].
Qed.

Lemma triple_try_catch {A : Type} (pre : DB -> Prop) (m : M A) (post : A -> DB -> Prop)
    (caught : DB -> Prop) (h : string -> M A) (exc : DB -> Prop) :
  triple pre m post caught -> (forall e, triple caught (h e) post exc) ->
  triple pre (try_catch m h) post exc.
Proof.
  intros Hm Hh w Hw. unfold try_catch. specialize (Hm w Hw).
  destruct (m w) as [[a|e] w']; [exact Hm | now apply Hh].
Qed.

Lemma triple_weaken {A : Type} (pre pre' : DB -> Prop) (m : M A)
    (post post' : A -> DB -> Prop) (exc exc' : DB -> Prop) :
  triple pre' m post' exc' ->
  (forall d, pre d -> pre' d) -> (forall a d, post' a d -> post a d) ->
  (forall d, exc' d -> exc d) ->
  triple pre m post exc.
Proof.
  intros H H1 H2 H3 w Hw. specialize (H w (H1 _ Hw)).
  destruct (m w) as [[a|e] w']; auto.
Qed.

Lemma triple_supabase {A : Type} (pre : DB -> Prop) (request : Request)
    (run : DB -> Reply A * DB) (post : Reply A -> DB -> Prop) (exc : DB -> Prop) :
  (forall d, pre d -> post (fst (run d)) (snd (run d))) ->
  (forall d message, pre d -> post (Error message) d) ->
  (forall d, pre d -> exc d) ->
  triple pre (supabase env request run) post exc.
Proof.
  intros H1 H2 H3 w Hw. unfold supabase.
  destruct (faults env (tick w) request); cbn; [|now apply H2|now apply H3].
  specialize (H1 (db w) Hw). now destruct (run (db w)).
Qed.

Lemma triple_now (pre : DB -> Prop) (post : Z -> DB -> Prop) (exc : DB -> Prop) :
  (forall t d, pre d -> post t d) -> triple pre (now env) post exc.
Proof. intros H w Hw. now apply H. Qed.

(** A computation that leaves a part of the store alone keeps what
    depends on that part only. *)
Lemma triple_keeps {A X : Type} (part : DB -> X) (inv : DB -> Prop) (m : M A) :
  keeps part m ->
  (forall d d', part d' = part d -> inv d -> inv d') ->
  triple inv m (fun _ => inv) inv.
Proof.
  intros Hk Hp w Hw. specialize (Hk w).
  destruct (m w) as [[a|e] w']; cbn in Hk; now apply (Hp (db w)).
Qed.

(** ** Every email has a thread *)

Lemma threads_exist_step (d d' : DB) :
  emails d' = emails d ->
  (forall id, has_thread d id -> has_thread d' id) ->
  threads_exist d -> threads_exist d'.
Proof.
  intros He Ht H e Hin. rewrite He in Hin.
  destruct (H e Hin) as [id [E Hid]]. eauto.
Qed.

Lemma threads_exist_parts (d d' : DB) :
  threaded d' = threaded d -> threads_exist d -> threads_exist d'.
Proof.
  unfold threaded. intros [= He Ht]. apply threads_exist_step; [exact He|].
  intros id [t [Hin E]]. exists t. now rewrite Ht.
Qed.

Lemma maybeSingle_In {A : Type} (l : list A) (x : A) :
  maybeSingle l = Data (Some x) -> In x l.
Proof. destruct l as [|a [|b l]]; cbn; try discriminate. intros [= <-]. now left. Qed.

Lemma firstn_In {A : Type} (n : nat) (l : list A) (x : A) : In x (firstn n l) -> In x l.
Proof.
  revert l; induction n as [|n IH]; intros l; [intros []|].
  destruct l as [|a l]; [intros []|]. cbn. intros [<-|H]; [now left | right; now apply IH].
Qed.

Lemma found_email_has_thread (d : DB) (l : list EmailRow) (tid : uuid) :
  threads_exist d -> (forall x, In x l -> In x (emails d)) ->
  thread_of (data_of (maybeSingle l)) = Some tid -> has_thread d tid.
Proof.
  intros H Hl E. destruct (maybeSingle l) as [[row|]|] eqn:M; try discriminate E.
  apply maybeSingle_In, Hl in M. destruct (H row M) as [id [E' Hid]].
  cbn in E. congruence.
Qed.

Lemma createThread_has_thread (mailboxId userId : uuid) (email : ThreadInput)
    (n : string) :
  triple threads_exist (createThread env mailboxId userId email n)
         (fun id d => threads_exist d /\ has_thread d id) threads_exist.
Proof.
  unfold createThread.
  apply (triple_bind _ _ (fun r d => threads_exist d
                                     /\ forall t, r = Data t -> has_thread d (t_id t))).
  - apply triple_supabase; [|intros d m H; split; [exact H | discriminate]|auto].
    intros d H. cbn [insert_thread fst snd]. split.
    + apply (threads_exist_step d); [reflexivity| |exact H].
      intros id [t [Hin E]]. exists t. split; [|exact E].
      cbn. apply in_or_app. now left.
    + intros t [= <-]. eexists. split; [|reflexivity].
      cbn. apply in_or_app. right. now left.
  - intros [t|e].
    + apply triple_ret. intros d [H1 H2]. split; [exact H1 | now apply H2].
    + apply triple_throw. now intros d [H1 _].
Qed.

Lemma bySubject_has_thread (mailboxId userId : uuid) (email : ThreadInput) :
  triple threads_exist (bySubject env mailboxId userId email)
         (fun id d => threads_exist d /\ has_thread d id) threads_exist.
Proof.
  unfold bySubject. destruct (_ && _); [|apply createThread_has_thread].
  apply (triple_bind _ _ (fun _ d => threads_exist d)); [now apply triple_now|].
  intros t.
  apply (triple_bind _ _ (fun r d => threads_exist d
                            /\ forall th, data_of r = Some th -> has_thread d (t_id th))).
  - apply triple_supabase; [|intros d m H; split; [exact H | discriminate]|auto].
    intros d H. cbn [select_similar_thread fst snd]. split; [exact H|].
    intros th E. exists th. split; [|reflexivity].
    destruct (maybeSingle _) as [[x|]|] eqn:M; try discriminate E.
    cbn in E. injection E as ->.
    apply maybeSingle_In, firstn_In, filter_In in M. apply M.
  - intros r. destruct (data_of r) as [th|] eqn:E.
    + apply triple_ret. intros d [H1 H2]. split; [exact H1 | now apply H2].
    + apply (triple_weaken _ _ _ _ _ _ _
               (createThread_has_thread mailboxId userId email _)); auto.
      now intros d [H _].
Qed.

Lemma byReferences_has_thread (mailboxId userId : uuid) (email : ThreadInput) :
  triple threads_exist (byReferences env mailboxId userId email)
         (fun id d => threads_exist d /\ has_thread d id) threads_exist.
Proof.
  unfold byReferences. destruct (ti_references email); [apply bySubject_has_thread|].
  apply (triple_bind _ _ (fun r d => threads_exist d
                            /\ forall tid, thread_of (data_of r) = Some tid ->
                                           has_thread d tid)).
  - apply triple_supabase; [|intros d m H; split; [exact H | discriminate]|auto].
    intros d H. cbn [select_email_by_references fst snd]. split; [exact H|].
    intros tid. apply found_email_has_thread; [exact H|].
    intros x Hx. apply firstn_In, filter_In in Hx. apply Hx.
  - intros r. destruct (thread_of (data_of r)) as [tid|] eqn:E.
    + apply triple_ret. intros d [H1 H2]. split; [exact H1 | now apply H2].
    + apply (triple_weaken _ _ _ _ _ _ _
               (bySubject_has_thread mailboxId userId email)); auto.
      now intros d [H _].
Qed.

Lemma findOrCreateThread_has_thread (mailboxId userId : uuid) (email : ThreadInput) :
  triple threads_exist (findOrCreateThread env mailboxId userId email)
         (fun id d => threads_exist d /\ has_thread d id) threads_exist.
Proof.
  unfold findOrCreateThread.
  apply (triple_try_catch _ _ _ threads_exist); [|intros e; now apply triple_throw].
  destruct (truthy (ti_inReplyTo email)); [|apply byReferences_has_thread].
  apply (triple_bind _ _ (fun r d => threads_exist d
                            /\ forall tid, thread_of (data_of r) = Some tid ->
                                           has_thread d tid)).
  - apply triple_supabase; [|intros d m H; split; [exact H | discriminate]|auto].
    intros d H. cbn [select_email_by_message_id fst snd]. split; [exact H|].
    intros tid. apply found_email_has_thread; [exact H|].
    intros x Hx. apply filter_In in Hx. apply Hx.
  - intros r. destruct (thread_of (data_of r)) as [tid|] eqn:E.
    + apply triple_ret. intros d [H1 H2]. split; [exact H1 | now apply H2].
    + apply (triple_weaken _ _ _ _ _ _ _
               (byReferences_has_thread mailboxId userId email)); auto.
      now intros d [H _].
Qed.

Lemma update_thread_threads_exist (id : uuid) (f : ThreadRow -> ThreadRow) (d : DB) :
  (forall t, t_id (f t) = t_id t) ->
  threads_exist d -> threads_exist (snd (update_thread id f d)).
Proof.
  intros Hf. apply threads_exist_step; [reflexivity|].
  intros tid [t [Hin E]]. cbn [update_thread snd email_threads].
  exists (if t_id t =? id then f t else t). split.
  - apply in_map_iff. exists t. now split.
  - destruct (t_id t =? id); [now rewrite Hf | exact E].
Qed.

Lemma updateThreadStats_threads_exist (threadId : uuid) :
  triple threads_exist (updateThreadStats env threadId) (fun _ => threads_exist)
         threads_exist.
Proof.
  unfold updateThreadStats.
  apply (triple_try_catch _ _ _ threads_exist); [|intros e; now apply triple_ret].
  apply (triple_bind _ _ (fun _ d => threads_exist d)).
  - apply triple_supabase; auto.
  - intros [[|first rest]|e]; try (now apply triple_ret).
    apply (triple_bind _ _ (fun _ d => threads_exist d)); [|intros ?; now apply triple_ret].
    apply triple_supabase; auto.
    intros d H. now apply update_thread_threads_exist.
Qed.

Lemma insert_email_threads_exist (row : uuid -> EmailRow) (threadId : uuid) (d : DB) :
  (forall id, e_thread_id (row id) = Some threadId) ->
  threads_exist d -> has_thread d threadId ->
  threads_exist (snd (insert_email row d)).
Proof.
  intros Hrow H Ht. unfold insert_email.
  destruct (violates_unique _ d); [exact H|].
  intros e Hin. cbn [snd emails] in Hin. apply in_app_or in Hin as [Hin|[<-|[]]].
  - destruct (H e Hin) as [id [E [t [Hi Et]]]]. exists id. split; [exact E|].
    exists t. now split.
  - exists threadId. split; [apply Hrow|].
    destruct Ht as [t [Hi Et]]. exists t. now split.
Qed.

Lemma processBounce_threaded (mailboxId userId : uuid) (message : Message)
    (bounceData : BounceData) :
  keeps threaded (processBounce env mailboxId userId message bounceData).
Proof. unfold processBounce, recordBounceEvent. repeat frame. Qed.

Lemma processMessage_threads_exist (mailbox : MailboxRow) (message : Message) :
  triple threads_exist (processMessage env mailbox message) (fun _ => threads_exist)
         threads_exist.
Proof.
  unfold processMessage.
  apply (triple_try_catch _ _ _ threads_exist); [|intros e; now apply triple_throw].
  apply (triple_bind _ _ (fun _ d => threads_exist d)); [apply triple_supabase; auto|].
  intros existing. destruct (data_of existing); [now apply triple_ret|]. cbv zeta.
  apply (triple_bind _ _ (fun _ d => threads_exist d)); [now apply triple_now|].
  intros t.
  eapply triple_bind; [apply findOrCreateThread_has_thread|].
  intros threadId. cbv beta.
  destruct (parseFromAddress _) as [fromAddress fromName].
  apply (triple_bind _ _ (fun _ d => threads_exist d /\ has_thread d threadId));
    [now apply triple_now|].
  intros t'.
  apply (triple_bind _ _ (fun _ d => threads_exist d)).
  - apply triple_supabase; [|now intros d m [H _]|now intros d [H _]].
    intros d [H Ht]. now apply (insert_email_threads_exist _ threadId).
  - intros [row|e]; [|now apply triple_throw].
    apply (triple_bind _ _ (fun _ d => threads_exist d));
      [apply updateThreadStats_threads_exist|].
    intros _. destruct (category _); try (now apply triple_ret).
    destruct (failedRecipient _); [|now apply triple_ret].
    apply (triple_keeps threaded); [apply processBounce_threaded|].
    apply threads_exist_parts.
Qed.

Lemma triple_maintains {A : Type} (inv : DB -> Prop) (m : M A) :
  triple inv m (fun _ => inv) inv -> maintains inv m.
Proof. intros H w Hw. specialize (H w Hw). now destruct (m w) as [[a|e] w']. Qed.

Lemma maintains_threaded {A : Type} (m : M A) :
  keeps threaded m -> maintains threads_exist m.
Proof. intros H w. apply threads_exist_parts. apply H. Qed.

(** X19: Whatever fails during the cycle, processMailbox keeps the
    invariant that every Email row has a thread_id and that a thread
    with this id is in the store. *)
Theorem X19_processMailbox_threads_exist (mailboxId : uuid) :
  maintains threads_exist (processMailbox env mailboxId).
Proof.
  assert (loop : forall mailbox messages maxUid,
             maintains threads_exist (processMessages env mailbox messages maxUid)).
  { intros mailbox messages.
    induction messages as [|message rest IH]; intros maxUid; cbn [processMessages].
    - apply maintains_threaded. repeat frame.
    - apply maintains_bind; [|intros ?; apply IH].
      apply maintains_try_catch; [|intros ?; apply maintains_threaded; repeat frame].
      apply maintains_bind;
        [apply triple_maintains, processMessage_threads_exist|].
      intros ?. apply maintains_threaded. repeat frame. }
  intros w Hw. unfold processMailbox, try_finally.
  match goal with |- context [let (_, _) := ?m w in _] => set (body := m) end.
  assert (Hb : maintains threads_exist body).
  { unfold body.
    repeat first
      [ apply loop
      | apply maintains_threaded; solve [repeat frame]
      | apply maintains_bind; [|intros ?]
      | apply maintains_try_catch; [|intros ?]
      | match goal with
        | |- maintains _ (match ?x with _ => _ end) => destruct x
        end ]. }
  specialize (Hb w Hw). destruct (body w) as [r w']. cbn in *.
  now rewrite disconnect_db.
Qed.

End Integrity.

(** ** Redelivery and bounce counts *)

Section Redelivery.

Variable env : Env.

Hypothesis store_up : forall n r, faults env n r = Succeeds.

Lemma new_uid_lookup (d : DB) (mailbox : uuid) (u : Z) :
  new_uid d mailbox u ->
  filter (fun r => (e_mailbox_id r =? mailbox) && (e_uid r =? u)%Z) (emails d) = [].
Proof.
  intros H. apply filter_none. intros r Hin.
  destruct (e_mailbox_id r =? mailbox) eqn:E1; [|reflexivity].
  destruct (e_uid r =? u)%Z eqn:E2; [|reflexivity].
  apply Nat.eqb_eq in E1. apply Z.eqb_eq in E2. now destruct (H r Hin E1).
Qed.

Lemma fresh_thread (mailboxId userId : uuid) (email : ThreadInput) (w : World) :
  no_reply_headers email ->
  fresh_subject (db w) mailboxId (normalizeSubject (ti_subject email)) ->
  exists n,
    findOrCreateThread env mailboxId userId email w
    = (Ok (next_id (db w)),
       mkWorld (mkDB (mailboxes (db w)) (emails (db w))
                     (email_threads (db w)
                      ++ [new_thread (next_id (db w)) mailboxId userId email])
                     (email_bounces (db w)) (email_bounce_events (db w))
                     (S (next_id (db w))))
               n (imapClient w)).
Proof.
  intros He Hfresh. rewrite (findOrCreateThread_by_subject _ _ _ _ _ He).
  unfold try_catch, bySubject. destruct (_ && _).
  - unfold bind at 1. unfold now at 1. unfold bind at 1.
    rewrite supabase_succeeds by apply store_up.
    unfold select_similar_thread at 1. cbn [fst snd].
    rewrite (fresh_subject_filter _ _ _ _ Hfresh). cbn [firstn maybeSingle data_of].
    rewrite createThread_appends by apply store_up. eexists. reflexivity.
  - rewrite createThread_appends by apply store_up. eexists. reflexivity.
Qed.

(** X20: With a store that carries out every request: when a message
    without reply headers arrives under a UID the mailbox has not
    stored, but with a message id it has stored, and its normalized
    subject is new to the mailbox, processMessage throws the
    unique-constraint error of the insert, the emails are unchanged,
    and the thread row that was inserted for the message, with
    message_count 1, stays in the store. *)
Theorem X20_redelivered_message_leaves_a_thread (mailbox : MailboxRow) (message : Message)
    (w : World) :
  inReplyTo message = EmptyString ->
  normalizeEmailArray (references message) = [] ->
  fresh_subject (db w) (mb_id mailbox) (normalizeSubject (subject message)) ->
  new_uid (db w) (mb_id mailbox) (uid message) ->
  has_message_id (db w) mailbox message ->
  exists w' t,
    processMessage env mailbox message w
    = (Throw "duplicate key value violates unique constraint", w')
    /\ emails (db w') = emails (db w)
    /\ email_threads (db w') = email_threads (db w) ++ [t]
    /\ t_id t = next_id (db w)
    /\ t_message_count t = 1.
Proof.
  intros Hr Hrefs Hfresh Hnew [row [Hin [Hm Hid]]].
  unfold processMessage, try_catch. unfold bind at 1.
  rewrite supabase_succeeds by apply store_up.
  unfold select_email_by_uid. cbn [fst snd].
  rewrite (new_uid_lookup _ _ _ Hnew). cbn [maybeSingle data_of].
  cbv zeta. unfold bind at 1. unfold now at 1. unfold bind at 1.
  match goal with
  | |- context [findOrCreateThread env ?a ?b ?c ?x] =>
      destruct (fresh_thread a b c x) as [n E]
  end.
  { split; [exact Hr | exact Hrefs]. }
  { exact Hfresh. }
  rewrite E.
  destruct (parseFromAddress (from (normalized message))) as [fromAddress fromName].
  unfold bind at 1. unfold now at 1. unfold bind at 1.
  rewrite supabase_succeeds by apply store_up.
  unfold insert_email.
  match goal with |- context [violates_unique ?r ?d] =>
    replace (violates_unique r d) with true
  end.
  - cbn [fst snd db tick imapClient]. eexists. eexists.
    split; [reflexivity|]. cbn [db emails email_threads]. repeat split.
  - symmetry. unfold violates_unique. apply existsb_exists. exists row.
    split; [exact Hin|].
    cbn [e_mailbox_id e_uid e_message_id db emails].
    apply andb_true_iff. split; [now apply Nat.eqb_eq|].
    apply orb_true_iff. right. apply String.eqb_eq. exact Hid.
Qed.

End Redelivery.

Section Aggregates.

Variable env : Env.

Lemma same_id_same_row (l : list BounceRow) (a b : BounceRow) :
  NoDup (map b_id l) -> In a l -> In b l -> b_id a = b_id b -> a = b.
Proof.
  induction l as [|x l IH]; [intros _ []|]. cbn [map]. intros Hn Ha Hb E.
  inversion Hn as [|y m Hx Hl]; subst.
  destruct Ha as [<-|Ha], Hb as [<-|Hb]; [reflexivity| | |now apply IH].
  - exfalso. apply Hx. rewrite E. now apply in_map.
  - exfalso. apply Hx. rewrite <- E. now apply in_map.
Qed.

Lemma recordBounceEvent_appends (userId bounceId : uuid) (message : Message)
    (bounceData : BounceData) (w : World) :
  faults env (tick w) (InsertBounceEvent bounceId (uid message)) = Succeeds ->
  recordBounceEvent env userId bounceId message bounceData w
  = (Ok tt,
     mkWorld (mkDB (mailboxes (db w)) (emails (db w)) (email_threads (db w))
                   (email_bounces (db w))
                   (email_bounce_events (db w)
                    ++ [bounce_event (next_id (db w)) bounceId userId message bounceData
                                     (clock env (tick w))])
                   (S (next_id (db w))))
             (S (tick w)) (imapClient w)).
Proof.
  intros H. unfold recordBounceEvent. unfold bind at 1. unfold now at 1.
  unfold bind at 1. rewrite supabase_succeeds by exact H. reflexivity.
Qed.

(** X21: If every request but the increment_failure call succeeds,
    that call is answered, and the ids of the aggregates are unique,
    then for a bounce with a failed recipient processBounce returns;
    when the recipient has no aggregate it appends one with
    failure_count 1 and one event that refers to it; when the
    recipient has one aggregate it raises the failure_count of that
    aggregate by one, by the remote call or by the update that
    replaces it, leaves the other aggregates alone, and appends one
    event. *)
Theorem X21_processBounce_counts (mailboxId userId : uuid) (message : Message)
    (bounceData : BounceData) (recipient : string) (w : World) :
  rpc_may_fail env ->
  failedRecipient bounceData = Some recipient ->
  NoDup (map b_id (email_bounces (db w))) ->
  (aggregates (db w) userId mailboxId recipient = [] ->
   exists w' t t',
     processBounce env mailboxId userId message bounceData w = (Ok tt, w')
     /\ email_bounces (db w')
        = email_bounces (db w)
          ++ [first_bounce (next_id (db w)) userId mailboxId recipient bounceData t]
     /\ email_bounce_events (db w')
        = email_bounce_events (db w)
          ++ [bounce_event (S (next_id (db w))) (next_id (db w)) userId message
                           bounceData t'])
  /\ (forall existing,
         aggregates (db w) userId mailboxId recipient = [existing] ->
         exists w' t t',
           processBounce env mailboxId userId message bounceData w = (Ok tt, w')
           /\ email_bounces (db w')
              = map (fun b => if b_id b =? b_id existing
                              then failed_again (b_failure_count b + 1) t b else b)
                    (email_bounces (db w))
           /\ email_bounce_events (db w')
              = email_bounce_events (db w)
                ++ [bounce_event (next_id (db w)) (b_id existing) userId message
                                 bounceData t']).
Proof.
  intros [Hup Hrpc] Hrec Hnd. unfold aggregates. split.
  - intros Hnone. unfold processBounce, try_catch. rewrite Hrec.
    unfold bind at 1. rewrite supabase_succeeds by (apply Hup; discriminate).
    unfold select_bounce. cbn [fst snd]. rewrite Hnone. cbn [maybeSingle data_of].
    unfold bind at 1. unfold now at 1. unfold bind at 1.
    rewrite supabase_succeeds by (apply Hup; discriminate).
    cbn [insert_bounce fst snd].
    rewrite recordBounceEvent_appends by (apply Hup; discriminate).
    eexists. eexists. eexists. split; [reflexivity|]. split; reflexivity.
  - intros existing Hone. unfold processBounce, try_catch. rewrite Hrec.
    unfold bind at 1. rewrite supabase_succeeds by (apply Hup; discriminate).
    unfold select_bounce. cbn [fst snd]. rewrite Hone. cbn [maybeSingle data_of].
    unfold bind at 1. unfold now at 1. unfold bind at 1.
    unfold supabase at 1. cbn [tick db imapClient].
    pose proof (Hrpc (S (tick w)) (b_id existing)) as Ha.
    destruct (faults env (S (tick w)) (RpcIncrementFailure (b_id existing)));
      [| |contradiction].
    + cbn [increment_failure fst snd].
      rewrite recordBounceEvent_appends by (apply Hup; discriminate).
      eexists. eexists. eexists. split; [reflexivity|]. split; reflexivity.
    + unfold bind at 1. unfold now at 1. unfold bind at 1.
      rewrite supabase_succeeds by (apply Hup; discriminate).
      cbn [update_bounce fst snd].
      rewrite recordBounceEvent_appends by (apply Hup; discriminate).
      eexists. eexists. eexists. split; [reflexivity|].
      split; [|reflexivity]. cbn [db email_bounces set_bounces tick].
      apply map_ext_in. intros b Hb.
      destruct (b_id b =? b_id existing) eqn:E; [|reflexivity].
      apply Nat.eqb_eq in E.
      assert (Hin : In existing (email_bounces (db w))).
      { assert (H : In existing [existing]) by now left.
        rewrite <- Hone in H. now apply filter_In in H. }
      now rewrite (same_id_same_row _ b existing Hnd Hb Hin E).
Qed.



End Aggregates.

(** ** The scheduled job *)

Section Schedule.

Variable env : Env.
Variable legacyProcessor : uuid -> M unit.

Lemma enhancedProcessor_returns (mailboxId : uuid) (w : World) :
  exists w', enhancedProcessor env mailboxId w = (Ok tt, w') /\ disconnected w'.
Proof.
  unfold enhancedProcessor, bind, set_client, processMailbox, try_finally.
  match goal with |- context [try_catch ?m ?h ?x] =>
    destruct (try_catch_returns m h x) as [w1 E]
  end.
  - intros e. apply returns_try_catch.
  - rewrite E. eexists. split; [reflexivity | apply disconnect_disconnected].
Qed.

Lemma processEach_enhanced (mode : string) (mailboxes : list MailboxRow) :
  String.eqb mode "both" = false -> String.eqb mode "legacy" = false ->
  forall w, processEach env legacyProcessor mode mailboxes w
            = (Ok tt, cycles env mailboxes w).
Proof.
  intros H1 H2. induction mailboxes as [|mailbox rest IH]; intros w; [reflexivity|].
  cbn [processEach cycles fold_left]. rewrite H1, H2.
  unfold bind at 1. unfold try_catch.
  destruct (enhancedProcessor_returns (mb_id mailbox) w) as [w' [E _]].
  rewrite E. cbn [snd]. apply IH.
Qed.

Lemma emailSync_enhanced (mode : string) (w : World) :
  String.eqb mode "both" = false -> String.eqb mode "legacy" = false ->
  emailSync env legacyProcessor mode Succeeds w
  = (Ok tt, cycles env (select_active_mailboxes (db w)) w).
Proof.
  intros H1 H2. unfold emailSync, try_catch. now rewrite processEach_enhanced.
Qed.

(** X23: In every mode other than both and legacy, the scheduled job
    runs processMailbox of the enhanced processor once for each
    mailbox with status ACTIVE, in the order of the listing, and
    returns; when the listing of the mailboxes fails, by an error
    reply or by rejection, it returns without changing anything. *)
Theorem X23_emailSync_runs_every_active_mailbox (mode : string) (w : World) :
  String.eqb mode "both" = false -> String.eqb mode "legacy" = false ->
  emailSync env legacyProcessor mode Succeeds w
  = (Ok tt, cycles env (select_active_mailboxes (db w)) w)
  /\ (forall error, emailSync env legacyProcessor mode (Fails error) w = (Ok tt, w))
  /\ (forall error, emailSync env legacyProcessor mode (Rejects error) w = (Ok tt, w)).
Proof.
  intros H1 H2. split; [now apply emailSync_enhanced | split; reflexivity].
Qed.

(** ** Mailboxes that are not ACTIVE *)

Lemma maintains_mailboxes {A : Type} (P : list MailboxRow -> Prop) (m : M A) :
  keeps mailboxes m -> maintains (fun d => P (mailboxes d)) m.
Proof. intros H w Hw. now rewrite H. Qed.

Lemma processMessages_keeps_mailboxes (mailbox : MailboxRow) (messages : list Message)
    (maxUid : Z) :
  keeps mailboxes (processMessages env mailbox messages maxUid).
Proof.
  intros w. destruct (processMessages_maxUid env mailbox messages maxUid w) as [w' [E K]].
  now rewrite E.
Qed.

Lemma update_mailbox_other_row (id : uuid) (f : MailboxRow -> MailboxRow) (r0 : MailboxRow)
    (d : DB) :
  mb_id r0 <> id ->
  In r0 (mailboxes d) -> In r0 (mailboxes (snd (update_mailbox id f d))).
Proof.
  intros Hne Hin. cbn [update_mailbox snd set_mailboxes mailboxes].
  apply in_map_iff. exists r0. split; [|exact Hin].
  destruct (mb_id r0 =? id) eqn:E; [|reflexivity].
  apply Nat.eqb_eq in E. contradiction.
Qed.

Lemma processMailbox_other_row (mailboxId : uuid) (r0 : MailboxRow) :
  mb_id r0 <> mailboxId ->
  maintains (fun d => In r0 (mailboxes d)) (processMailbox env mailboxId).
Proof.
  intros Hne w Hw. unfold processMailbox, try_finally.
  match goal with |- context [let (_, _) := ?m w in _] => set (body := m) end.
  assert (Hb : maintains (fun d => In r0 (mailboxes d)) body).
  { unfold body.
    repeat first
      [ apply (maintains_mailboxes (In r0)); apply processMessages_keeps_mailboxes
      | apply maintains_supabase; intros d Hd;
        first [ exact Hd | now apply update_mailbox_other_row ]
      | apply (maintains_mailboxes (In r0)); solve [repeat frame]
      | apply maintains_bind; [|intros ?]
      | apply maintains_try_catch; [|intros ?]
      | match goal with
        | |- maintains _ (match ?x with _ => _ end) => destruct x
        end ]. }
  specialize (Hb w Hw). destruct (body w) as [r w']. cbn in *.
  now rewrite disconnect_db.
Qed.

Lemma same_id_same_mailbox (l : list MailboxRow) (a b : MailboxRow) :
  NoDup (map mb_id l) -> In a l -> In b l -> mb_id a = mb_id b -> a = b.
Proof.
  induction l as [|x l IH]; [intros _ []|]. cbn [map]. intros Hn Ha Hb E.
  inversion Hn as [|y m Hx Hl]; subst.
  destruct Ha as [<-|Ha], Hb as [<-|Hb]; [reflexivity| | |now apply IH].
  - exfalso. apply Hx. rewrite E. now apply in_map.
  - exfalso. apply Hx. rewrite <- E. now apply in_map.
Qed.

Lemma cycles_other_row (r0 : MailboxRow) (l : list MailboxRow) :
  (forall mailbox, In mailbox l -> mb_id r0 <> mb_id mailbox) ->
  forall w, In r0 (mailboxes (db w)) -> In r0 (mailboxes (db (cycles env l w))).
Proof.
  induction l as [|mailbox rest IH]; intros Hl w Hw; [exact Hw|].
  cbn [cycles fold_left]. apply IH; [intros m Hm; apply Hl; now right|].
  unfold enhancedProcessor, bind, set_client.
  apply (processMailbox_other_row (mb_id mailbox) r0); [apply Hl; now left | exact Hw].
Qed.

(** X24: In every mode other than both and legacy, and with mailbox
    ids that are unique, the scheduled job leaves the row of every
    mailbox that is not ACTIVE exactly as it was, whatever happens
    during the cycles. *)
Theorem X24_emailSync_leaves_inactive_mailboxes (mode : string) (listing : Outcome)
    (w : World) (r0 : MailboxRow) :
  String.eqb mode "both" = false -> String.eqb mode "legacy" = false ->
  NoDup (map mb_id (mailboxes (db w))) ->
  In r0 (mailboxes (db w)) -> mb_status r0 <> ACTIVE ->
  In r0 (mailboxes (db (snd (emailSync env legacyProcessor mode listing w)))).
Proof.
  intros H1 H2 Hn Hin Hs.
  destruct listing as [|e|e]; [rewrite emailSync_enhanced by assumption | exact Hin..].
  cbn [snd]. apply cycles_other_row; [|exact Hin].
  intros mailbox Hm E. apply filter_In in Hm as [Hm Ha].
  rewrite (same_id_same_mailbox _ r0 mailbox Hn Hin Hm E) in Hs.
  now destruct (mb_status mailbox).
Qed.

End Schedule.

(** ** What is stored for a message *)

Section Ingest.

Variable env : Env.

(** Whatever [bySubject] returns is a thread of the mailbox with the
    normalized subject of the email. *)
Lemma bySubject_thread (mailboxId userId : uuid) (email : ThreadInput) :
  triple (fun _ => True) (bySubject env mailboxId userId email)
         (fun id d => exists thread,
              In thread (email_threads d) /\ t_id thread = id
              /\ t_mailbox_id thread = mailboxId
              /\ t_normalized_subject thread = normalizeSubject (ti_subject email))
         (fun _ => True).
Proof.
  assert (Hcreate : forall pre : DB -> Prop,
             triple pre
               (createThread env mailboxId userId email
                  (normalizeSubject (ti_subject email)))
               (fun id d => exists thread,
                    In thread (email_threads d) /\ t_id thread = id
                    /\ t_mailbox_id thread = mailboxId
                    /\ t_normalized_subject thread = normalizeSubject (ti_subject email))
               (fun _ => True)).
  { intros pre. unfold createThread.
    apply (triple_bind _ _
             (fun r d => forall thread, r = Data thread ->
                In thread (email_threads d) /\ t_mailbox_id thread = mailboxId
                /\ t_normalized_subject thread = normalizeSubject (ti_subject email))).
    - apply triple_supabase; [|discriminate|auto].
      intros d _ thread [= <-]. cbn [insert_thread snd email_threads].
      split; [apply in_or_app; right; now left | split; reflexivity].
    - intros [thread|e]; [|now apply triple_throw].
      apply triple_ret. intros d H. destruct (H thread eq_refl) as [H1 [H2 H3]].
      exists thread. repeat split; assumption. }
  unfold bySubject. cbv zeta. destruct (_ && _); [|apply Hcreate].
  apply (triple_bind _ _ (fun _ _ => True)); [now apply triple_now|]. intros t.
  apply (triple_bind _ _
           (fun r d => forall thread, data_of r = Some thread ->
              In thread (email_threads d) /\ t_mailbox_id thread = mailboxId
              /\ t_normalized_subject thread = normalizeSubject (ti_subject email))).
  - apply triple_supabase; [|discriminate|auto].
    intros d _ thread E. cbn [select_similar_thread fst snd] in *.
    destruct (maybeSingle _) as [[x|]|] eqn:S; try discriminate E.
    cbn in E. injection E as ->.
    apply maybeSingle_In, firstn_In, filter_In in S as [Hin Hf].
    apply andb_true_iff in Hf as [Hf _]. apply andb_true_iff in Hf as [H1 H2].
    split; [exact Hin|]. split; [now apply Nat.eqb_eq | now apply String.eqb_eq].
  - intros r. destruct (data_of r) as [thread|] eqn:E; [|apply Hcreate].
    apply triple_ret. intros d H. destruct (H thread eq_refl) as [H1 [H2 H3]].
    exists thread. repeat split; assumption.
Qed.

(** X25: A message as fetchNewMessages delivers it has neither
    inReplyTo nor references, so the email that processMessage passes
    on is filed by its subject alone: whenever findOrCreateThread
    returns an id for it, the store then has a thread with this id
    that belongs to the mailbox and whose normalized subject is the
    normalized subject of the mail. *)
Theorem X25_fetched_mail_is_threaded_by_subject (now : Z) (sm : ServerMessage)
    (parsed : ParsedMail) (mailboxId userId : uuid) (t : Z) (w w' : World) (id : uuid) :
  findOrCreateThread env mailboxId userId (thread_input (parsedMessage now sm parsed) t) w
  = (Ok id, w') ->
  no_reply_headers (thread_input (parsedMessage now sm parsed) t)
  /\ exists thread,
       In thread (email_threads (db w')) /\ t_id thread = id
       /\ t_mailbox_id thread = mailboxId
       /\ t_normalized_subject thread = normalizeSubject (p_subject parsed).
Proof.
  intros E. split; [split; reflexivity|].
  rewrite findOrCreateThread_by_subject in E by (split; reflexivity).
  unfold try_catch in E.
  pose proof (bySubject_thread mailboxId userId
                (thread_input (parsedMessage now sm parsed) t) w I) as H.
  destruct (bySubject _ _ _ _ w) as [[a|e] w0]; [|discriminate E].
  injection E as <- <-. exact H.
Qed.

Section StoreUp.

Hypothesis store_up : forall n r, faults env n r = Succeeds.

Lemma store_up_email_side :
  forall n r, bounce_side r = false -> faults env n r = Succeeds.
Proof. intros n r _. apply store_up. Qed.

(** X26: With a store that carries out every request, a message that
    collides with no Email row of the mailbox (neither in its UID nor
    in its message id) is stored: processMessage returns and has
    appended exactly one Email row, with the ids of the mailbox and
    its user, the UID and message id of the message, its subject or
    (No Subject), the address and name parseFromAddress gives, the
    category and confidence of classify, the preview of
    extractPreview, is_read false, and a thread id. *)
Theorem X26_processMessage_stores_email (mailbox : MailboxRow) (message : Message)
    (w : World) :
  no_collision (db w) mailbox message ->
  exists w' row threadId,
    processMessage env mailbox message w = (Ok tt, w')
    /\ emails (db w') = emails (db w) ++ [row]
    /\ e_mailbox_id row = mb_id mailbox /\ e_user_id row = mb_user_id mailbox
    /\ e_uid row = uid message
    /\ e_message_id row = message_id_for mailbox message
    /\ e_subject row = or_else (subject message) "(No Subject)"
    /\ (e_from_address row, e_from_name row) = parseFromAddress (from message)
    /\ (e_category row, e_category_confidence row)
       = (category (classify (normalized message)),
          confidence (classify (normalized message)))
    /\ e_body_preview row = extractPreview (body message)
    /\ e_is_read row = false
    /\ e_thread_id row = Some threadId.
Proof.
  intros Hnc.
  unfold processMessage, try_catch. unfold bind at 1.
  rewrite supabase_succeeds by apply store_up.
  unfold select_email_by_uid. cbn [fst snd].
  rewrite (no_collision_lookup _ _ _ Hnc). cbn [maybeSingle data_of].
  cbv zeta. unfold bind at 1. unfold now at 1. unfold bind at 1.
  match goal with
  | |- context [findOrCreateThread env ?a ?b ?c ?x] =>
      destruct (findOrCreateThread_returns env store_up_email_side a b c x)
        as [tid [w2 [E2 K2]]]
  end.
  rewrite E2.
  change (from (normalized message)) with (from message).
  destruct (parseFromAddress (from message)) as [fromAddress fromName] eqn:EF.
  unfold bind at 1. unfold now at 1. unfold bind at 1.
  rewrite supabase_succeeds by apply store_up.
  unfold insert_email.
  rewrite (no_collision_insert (db w) (db w2) mailbox message)
    by (assumption || reflexivity).
  cbn [fst snd]. unfold bind at 1.
  match goal with
  | |- context [updateThreadStats env tid ?x] =>
      destruct (updateThreadStats_returns env tid x) as [w3 [E3 K3]]
  end.
  rewrite E3.
  assert (Hlast : forall m : M unit,
             (forall x, exists y, m x = (Ok tt, y) /\ emails (db y) = emails (db x)) ->
             exists w', m w3 = (Ok tt, w') /\ emails (db w') = emails (db w3)) by auto.
  match goal with
  | |- context [match category ?c with _ => _ end w3] =>
      destruct (Hlast (match category c with
                       | BOUNCE =>
                           match failedRecipient (parseBounce (normalized message)) with
                           | Some _ =>
                               processBounce env (mb_id mailbox) (mb_user_id mailbox)
                                 (normalized message) (parseBounce (normalized message))
                           | None => ret tt
                           end
                       | _ => ret tt
                       end)) as [w4 [E4 K4]]
  end.
  { intros x. destruct (category _); try (exists x; now split).
    destruct (failedRecipient _); [|exists x; now split].
    destruct (processBounce_returns env (mb_id mailbox) (mb_user_id mailbox)
                (normalized message) (parseBounce (normalized message)) x)
      as [y [Ey [Ky _]]]. eauto. }
  rewrite E4.
  eexists. eexists. exists tid. split; [reflexivity|].
  rewrite K4, K3. cbn [db emails]. rewrite K2.
  split; [reflexivity|]. cbn. repeat split; reflexivity.
Qed.

End StoreUp.

End Ingest.

(** ** The checkpoint *)

Section Checkpoint.

Variable env : Env.

Lemma advanced_refl (l : list MailboxRow) : advanced l l.
Proof. induction l; constructor; [split; [reflexivity | lia] | assumption]. Qed.

Lemma advanced_map (l0 l : list MailboxRow) (f : MailboxRow -> MailboxRow) :
  advanced l0 l ->
  (forall r, In r l -> mb_id (f r) = mb_id r
                       /\ (mb_last_synced_uid r <= mb_last_synced_uid (f r))%Z) ->
  advanced l0 (map f l).
Proof.
  intros H. induction H as [|r r' l0 l [H1 H2] H IH]; intros Hf; cbn; constructor.
  - destruct (Hf r' (or_introl eq_refl)) as [F1 F2]. split; [congruence | lia].
  - apply IH. intros x Hx. apply Hf. now right.
Qed.

Lemma batch_max_ge (messages : list Message) (last : Z) :
  (last <= batch_max last messages)%Z.
Proof.
  unfold batch_max. revert last; induction messages as [|m l IH]; intros last; cbn; [lia|].
  specialize (IH (Z.max last (uid m))). lia.
Qed.

Lemma processMessages_triple (P : list MailboxRow -> Prop) (mailbox : MailboxRow)
    (messages : list Message) (maxUid : Z) (exc : DB -> Prop) :
  triple (fun d => P (mailboxes d)) (processMessages env mailbox messages maxUid)
         (fun u d => P (mailboxes d) /\ (maxUid <= u)%Z) exc.
Proof.
  intros w Hw.
  destruct (processMessages_maxUid env mailbox messages maxUid w) as [w' [E K]].
  rewrite E, K. split; [exact Hw | apply batch_max_ge].
Qed.

Lemma triple_frame {A : Type} (P : list MailboxRow -> Prop) (m : M A)
    (exc : DB -> Prop) :
  keeps mailboxes m -> (forall d, P (mailboxes d) -> exc d) ->
  triple (fun d => P (mailboxes d)) m (fun _ d => P (mailboxes d)) exc.
Proof.
  intros Hk He w Hw. specialize (Hk w).
  destruct (m w) as [[a|e] w']; cbn in Hk; [now rewrite Hk|].
  apply He. now rewrite Hk.
Qed.

Lemma triple_pure {A : Type} (fact : Prop) (pre : DB -> Prop) (m : M A)
    (post : A -> DB -> Prop) (exc : DB -> Prop) :
  (fact -> triple pre m post exc) -> triple (fun d => pre d /\ fact) m post exc.
Proof. intros H w [Hw Hf]. now apply H. Qed.

Lemma selected_row (mailboxId : uuid) (d : DB) (mailbox : MailboxRow) :
  fst (select_active_mailbox mailboxId d) = Data mailbox ->
  In mailbox (mailboxes d) /\ mb_id mailbox = mailboxId.
Proof.
  intros H. split; [|now apply (selected_id mailboxId d)].
  unfold select_active_mailbox, single in H. cbn [fst] in H.
  destruct (filter _ (mailboxes d)) as [|row [|row' rest]] eqn:E; try discriminate.
  injection H as <-.
  assert (Hin : In row [row]) by now left.
  rewrite <- E in Hin. now apply filter_In in Hin.
Qed.

(** X27: With mailbox ids that are unique, a cycle of processMailbox
    keeps the mailbox rows in number, order and id, and the
    last_synced_uid of no mailbox is smaller after the cycle than
    before, whatever fails during the cycle. *)
Theorem X27_checkpoint_never_moves_back (mailboxId : uuid) (w : World) :
  NoDup (map mb_id (mailboxes (db w))) ->
  advanced (mailboxes (db w)) (mailboxes (db (snd (processMailbox env mailboxId w)))).
Proof.
  intros Hn. set (l0 := mailboxes (db w)) in *.
  set (Q := fun d : DB => advanced l0 (mailboxes d)).
  assert (HPQ : forall d, mailboxes d = l0 -> Q d).
  { intros d Hd. unfold Q. rewrite Hd. apply advanced_refl. }
  unfold processMailbox, try_finally.
  match goal with |- context [let (_, _) := try_catch ?b ?h w in _] =>
    assert (Hb : triple (fun d => mailboxes d = l0) (try_catch b h) (fun _ => Q) Q)
  end.
  { apply (triple_try_catch _ _ _ Q).
    - apply (triple_bind _ _
               (fun r d => mailboxes d = l0
                           /\ forall mailbox, r = Data mailbox ->
                                In mailbox l0 /\ mb_id mailbox = mailboxId)).
      + apply triple_supabase; [|intros d m H; split; [exact H | discriminate]|exact HPQ].
        intros d Hd. split; [exact Hd|]. intros mailbox E.
        rewrite <- Hd. now apply selected_row.
      + intros [mailbox|e]; [|apply triple_ret; intros d [H _]; now apply HPQ].
        apply triple_pure. intros Hrow.
        destruct (Hrow mailbox eq_refl) as [Hin Hid]. clear Hrow.
        apply (triple_bind _ _ (fun _ d => mailboxes d = l0));
          [apply (triple_frame (fun l => l = l0)); [frame | exact HPQ]|].
        intros password.
        apply (triple_bind _ _ (fun _ d => mailboxes d = l0));
          [apply (triple_frame (fun l => l = l0)); [frame | exact HPQ]|].
        intros _.
        apply (triple_bind _ _ (fun _ d => mailboxes d = l0));
          [apply (triple_frame (fun l => l = l0)); [frame | exact HPQ]|].
        intros _.
        apply (triple_bind _ _ (fun _ d => mailboxes d = l0));
          [apply (triple_frame (fun l => l = l0)); [frame | exact HPQ]|].
        intros [|m rest]; [apply triple_ret; exact HPQ|].
        apply (triple_bind _ _ (fun u d => mailboxes d = l0
                                  /\ (mb_last_synced_uid mailbox <= u)%Z));
          [apply (processMessages_triple (fun l => l = l0))|].
        intros maxUid.
        apply (triple_bind _ _ (fun _ d => mailboxes d = l0
                                  /\ (mb_last_synced_uid mailbox <= maxUid)%Z));
          [apply triple_now; auto|].
        intros t.
        apply (triple_bind _ _ (fun _ => Q)); [|intros _; now apply triple_ret].
        apply triple_supabase.
        * intros d [Hd Hmax]. unfold Q.
          cbn [update_mailbox snd set_mailboxes mailboxes]. rewrite Hd.
          apply advanced_map; [apply advanced_refl|].
          intros r Hr. destruct (mb_id r =? mailboxId) eqn:E; [|split; [reflexivity | lia]].
          cbn [checkpoint mb_id mb_last_synced_uid]. split; [reflexivity|].
          apply Nat.eqb_eq in E.
          rewrite (same_id_same_mailbox l0 r mailbox Hn Hr Hin) by congruence.
          exact Hmax.
        * intros d msg [Hd _]. now apply HPQ.
        * intros d [Hd _]. now apply HPQ.
    - intros e.
      apply (triple_try_catch _ _ _ Q); [|intros _; now apply triple_ret].
      apply (triple_bind _ _ (fun _ => Q)); [|intros _; now apply triple_ret].
      apply triple_supabase; auto.
      intros d Hd. unfold Q in *. cbn [update_mailbox snd set_mailboxes mailboxes].
      apply advanced_map; [exact Hd|].
      intros r _. destruct (mb_id r =? mailboxId); split; try reflexivity; cbn; lia. }
  specialize (Hb w eq_refl).
  destruct (try_catch _ _ w) as [[[]|e] w']; cbn [snd]; rewrite disconnect_db; exact Hb.
Qed.

End Checkpoint.

(** ** What a fetch returns *)

(** X28: When the client is connected, the INBOX opens and the server
    streams messages without failing, fetchNewMessages returns the
    messages that parse, in the order of the server, up to the batch
    size: messages that do not parse are left out and do not count;
    with a batch size of zero or less (a negative EMAIL_BATCH_SIZE,
    for instance) it returns no message at all. *)
Theorem X28_fetch_returns_first_parsed (penv : ProcessEnv) (server : ImapServer)
    (today : Date) (now lastUid : Z) (options : FetchOptions) (sms : list ServerMessage) :
  open_error server = None ->
  inbox server (searchCriteria lastUid (sinceDateStr today (sinceDays_of penv options)))
  = map Yield sms ->
  fetchNewMessages penv server today now true lastUid options
  = Ok (firstn (Z.to_nat (batchSize_of penv options)) (parsed_of now sms))
  /\ ((batchSize_of penv options <= 0)%Z ->
      fetchNewMessages penv server today now true lastUid options = Ok []).
Proof.
  intros Ho Hs.
  assert (E : fetchNewMessages penv server today now true lastUid options
              = Ok (firstn (Z.to_nat (batchSize_of penv options)) (parsed_of now sms))).
  { unfold fetchNewMessages. cbn [negb]. rewrite Ho. cbv zeta. rewrite Hs.
    destruct (Z.leb_spec 0 (batchSize_of penv options)) as [Hb|Hb].
    - rewrite fetchLoop_yields by exact Hb. cbn [app]. now rewrite Z.sub_0_r.
    - replace (Z.to_nat (batchSize_of penv options)) with 0 by lia.
      destruct sms as [|sm rest]; [reflexivity|]. cbn [map fetchLoop firstn].
      replace (batchSize_of penv options <=? 0)%Z with true
        by (symmetry; apply Z.leb_le; lia).
      reflexivity. }
  split; [exact E|]. intros Hb. rewrite E.
  replace (Z.to_nat (batchSize_of penv options)) with 0 by lia. reflexivity.
Qed.

(** ** Marking a thread and counting it again *)

(** X29: When the store carries out its request, markThreadAsRead
    returns and changes only the is_unread field of the thread row, to
    the opposite of isRead, and no email; so when updateThreadStats
    runs next on a thread that has emails, the store is as if the
    thread had not been marked: is_unread is computed anew from the
    is_read fields of the emails. *)
Theorem X29_markThreadAsRead_is_overridden (env : Env) (threadId : uuid) (isRead : bool)
    (w : World) :
  faults env (tick w) (UpdateThread threadId) = Succeeds ->
  faults env (S (tick w)) (SelectThreadEmails threadId) = Succeeds ->
  faults env (S (S (tick w))) (UpdateThread threadId) = Succeeds ->
  (exists w1,
      markThreadAsRead env threadId isRead w = (Ok tt, w1)
      /\ emails (db w1) = emails (db w)
      /\ email_threads (db w1)
         = map (fun t => if t_id t =? threadId then set_unread (negb isRead) t else t)
               (email_threads (db w)))
  /\ (thread_emails (db w) threadId <> [] ->
      db (snd ((markThreadAsRead env threadId isRead;; updateThreadStats env threadId) w))
      = db (snd (updateThreadStats env threadId
                   (mkWorld (db w) (S (tick w)) (imapClient w))))).
Proof.
  intros H1 H2 H3.
  assert (E : markThreadAsRead env threadId isRead w
              = (Ok tt, mkWorld (snd (update_thread threadId (set_unread (negb isRead))
                                        (db w)))
                                (S (tick w)) (imapClient w))).
  { unfold markThreadAsRead, try_catch. unfold bind at 1.
    rewrite supabase_succeeds by exact H1. reflexivity. }
  split; [rewrite E; eexists; split; [reflexivity | split; reflexivity]|].
  intros Hne. unfold bind. rewrite E. cbn [snd].
  rewrite !updateThreadStats_run by assumption.
  cbn [db tick imapClient].
  change (thread_emails (snd (update_thread threadId (set_unread (negb isRead)) (db w)))
            threadId)
    with (thread_emails (db w) threadId).
  destruct (latest_first (thread_emails (db w) threadId)) as [|first rest] eqn:L.
  - exfalso. apply Hne.
    pose proof (latest_first_length (thread_emails (db w) threadId)) as Hl.
    rewrite L in Hl. now destruct (thread_emails (db w) threadId).
  - cbn [snd db update_thread email_threads emails]. f_equal.
    rewrite map_map. apply map_ext. intros t.
    destruct (t_id t =? threadId) eqn:Et; [|now rewrite Et].
    cbn [set_unread t_id]. rewrite Et. reflexivity.
Qed.

(** ** More theorems at the scenarios *)

Lemma X3_bounce_type_by_first_digit_witness :
  extractErrorCode (body dsn_message) = Some "550"
  /\ String.length "550" = 3
  /\ errorCode (parseBounce dsn_message) = "550"
  /\ bounceType (parseBounce dsn_message) = HARD.
Proof.
  split; [reflexivity|].
  apply (X3_bounce_type_by_first_digit dsn_message "550"). reflexivity.
Defined.

Lemma X4_extractDiagnostic_bounds_witness :
  extractDiagnostic dsn_body = Some "User unknown in local table"
  /\ 10 <= String.length "User unknown in local table" <= 300
  /\ exists text, isValidDiagnostic text = true
                  /\ "User unknown in local table" = take 300 text.
Proof.
  split; [reflexivity|].
  apply (X4_extractDiagnostic_bounds dsn_body). reflexivity.
Defined.

Lemma X5_extractRecipientEmail_sound_witness :
  extractRecipientEmail dsn_body "Undelivered Mail Returned to Sender"
  = Some "alice@example.com"
  /\ isValidEmail "alice@example.com" = true
  /\ existsb (fun sys => startsWith "alice@example.com" sys) systemAddresses = false
  /\ toLowerCase (trim "alice@example.com") = "alice@example.com".
Proof.
  split; [reflexivity|].
  apply (X5_extractRecipientEmail_sound dsn_body "Undelivered Mail Returned to Sender").
  reflexivity.
Defined.

Lemma X8_isValidEmail_rejects_hex_prefix_witness :
  isValidEmail "12345678@qq.com" = false /\ isValidEmail "x2345678@qq.com" = true.
Proof.
  split; [|reflexivity].
  apply (X8_isValidEmail_rejects_hex_prefix "12345678" "@qq.com"); reflexivity.
Defined.

Lemma X9_extractEmailAddress_forms_witness :
  extractEmailAddress "Bob  < Bob@Example.net >" = " bob@example.net "
  /\ extractEmailAddress " Bob@Example.net " = "bob@example.net".
Proof.
  split.
  - apply (proj1 X9_extractEmailAddress_forms "Bob  " " Bob@Example.net " "");
      [reflexivity | discriminate | reflexivity].
  - apply (proj2 X9_extractEmailAddress_forms " Bob@Example.net "). reflexivity.
Defined.

Lemma X10_parseFromAddress_forms_witness :
  parseFromAddress "'Bob'  < Bob@Example.net >" = ("bob@example.net", "Bob")
  /\ parseFromAddress " Bob@Example.net " = ("bob@example.net", "Bob").
Proof.
  split.
  - apply (proj1 X10_parseFromAddress_forms "'Bob'" "  " " Bob@Example.net ");
      try reflexivity; discriminate.
  - apply (proj2 X10_parseFromAddress_forms " Bob@Example.net "). reflexivity.
Defined.

Lemma X12_bare_address_is_not_extracted_witness :
  extractRecipientEmail "550 user unknown: bob@example.com" "Mail problem" = None.
Proof.
  apply (X12_bare_address_is_not_extracted "550 user unknown: bob@example.com" "Mail problem");
    reflexivity.
Defined.

Lemma X13_subject_bounces_are_detected_witness :
  isBounce subject_bounce = true /\ isBounceMessage subject_bounce = Some true.
Proof.
  split; [reflexivity|].
  apply (X13_subject_bounces_are_detected subject_bounce); try reflexivity.
  intros entries. discriminate.
Defined.

Lemma X15_failed_connection_parks_mailbox_witness :
  exists w',
    processMailbox unreachable_env 1 world_before = (Ok tt, w')
    /\ disconnected w'
    /\ map (fun r => (mb_status r, mb_last_error r, mb_last_synced_uid r))
           (mailboxes (db w'))
       = [(ERROR, Some "IMAP connection failed: timeout", 9%Z)]
    /\ db (snd (processMailbox S1_env 1 (mkWorld (db w') 0 NoClient))) = db w'.
Proof.
  destruct (X15_failed_connection_parks_mailbox unreachable_env 1 world_before inbox_owner
              "secret" "IMAP connection failed: timeout")
    as [w' [E [Hd [Hdb Hnext]]]]; try reflexivity.
  - left. exists "timeout". split; reflexivity.
  - exists w'. split; [exact E|]. split; [exact Hd|]. split.
    + rewrite Hdb. reflexivity.
    + apply (Hnext S1_env (mkWorld (db w') 0 NoClient)); [reflexivity | exact I].
Defined.

Lemma plan_is_fresh : fresh_subject (db world_before) 1 (normalizeSubject (ti_subject plan)).
Proof. intros t []. Qed.

Lemma X16_opened_thread_is_joined_witness :
  exists w1 w2,
    findOrCreateThread S1_env 1 100 plan world_before = (Ok 1000, w1)
    /\ email_threads (db w1) = [new_thread 1000 1 100 plan]
    /\ findOrCreateThread S1_env 1 100 plan_reply w1 = (Ok 1000, w2)
    /\ db w2 = db w1.
Proof.
  apply (X16_opened_thread_is_joined S1_env 1 100 plan plan_reply world_before);
    try (split; reflexivity); try reflexivity.
  - vm_compute. lia.
  - exact plan_is_fresh.
  - vm_compute. discriminate.
Defined.

Lemma X17_short_subject_opens_new_thread_witness :
  exists w',
    findOrCreateThread S1_env 1 100 greeting world_before = (Ok 1000, w')
    /\ email_threads (db w') = [new_thread 1000 1 100 greeting].
Proof.
  apply (X17_short_subject_opens_new_thread S1_env 1 100 greeting world_before);
    try (split; reflexivity); try reflexivity.
  vm_compute. lia.
Defined.

Lemma X18_updateThreadStats_counts_witness :
  updateThreadStats S1_env 1000 world_before = (Ok tt, mkWorld store_before 1 NoClient)
  /\ exists w',
       updateThreadStats S1_env 1000 (after_cycle S1_env 1 world_before) = (Ok tt, w')
       /\ map (fun t => (t_message_count t, t_last_message_at t, t_is_unread t))
              (email_threads (db w'))
          = [(1, 1767225600004%Z, true)].
Proof.
  split.
  - apply (proj1 (X18_updateThreadStats_counts S1_env 1000 world_before eq_refl eq_refl)).
    reflexivity.
  - destruct (proj2 (X18_updateThreadStats_counts S1_env 1000
                       (after_cycle S1_env 1 world_before) eq_refl eq_refl))
      as [w' [last [E [Hmax [[r [Hr Hlast]] [Ht _]]]]]].
    + vm_compute. discriminate.
    + exists w'. split; [exact E|]. rewrite Ht.
      vm_compute in Hr. destruct Hr as [<-|[]]. rewrite <- Hlast. reflexivity.
Defined.

Lemma X19_processMailbox_threads_exist_witness :
  threads_exist (db (snd (processMailbox S1_env 1 world_before))).
Proof.
  apply (X19_processMailbox_threads_exist S1_env 1 world_before). intros e [].
Defined.

Lemma store_is_up (n : nat) (r : Request) : faults S1_env n r = Succeeds.
Proof. reflexivity. Qed.

Lemma X20_redelivered_message_leaves_a_thread_witness :
  exists w' t,
    processMessage S1_env inbox_owner redelivered (after_cycle S1_env 1 world_before)
    = (Throw "duplicate key value violates unique constraint", w')
    /\ emails (db w') = emails (db (after_cycle S1_env 1 world_before))
    /\ email_threads (db w')
       = email_threads (db (after_cycle S1_env 1 world_before)) ++ [t]
    /\ t_id t = 1004
    /\ t_message_count t = 1.
Proof.
  apply (X20_redelivered_message_leaves_a_thread S1_env store_is_up inbox_owner redelivered
           (after_cycle S1_env 1 world_before)); try reflexivity.
  - intros t Hin _ E. vm_compute in Hin. destruct Hin as [<-|[]].
    vm_compute in E. discriminate.
  - intros row Hin _ E. vm_compute in Hin. destruct Hin as [<-|[]].
    vm_compute in E. discriminate.
  - unfold has_message_id. vm_compute. eexists. split; [left; reflexivity|]. now split.
Defined.

Lemma rpc_is_up : rpc_may_fail S1_env.
Proof. split; [reflexivity | intros n id; exact I]. Qed.

Lemma dsn_recipient : failedRecipient (parseBounce dsn_message) = Some "alice@example.com".
Proof. vm_compute. reflexivity. Qed.

Lemma alice_once :
  aggregates (db (after_cycle S1_env 1 world_before)) 100 1 "alice@example.com"
  = [alice_aggregate]
  /\ NoDup (map b_id (email_bounces (db (after_cycle S1_env 1 world_before))))
  /\ email_bounces (db (after_cycle S1_env 1 world_before)) = [alice_aggregate]
  /\ List.length (email_bounce_events (db (after_cycle S1_env 1 world_before))) = 1.
Proof.
  vm_compute. repeat split. constructor; [intros [] | constructor].
Qed.

Lemma X21_processBounce_counts_witness :
  (exists w',
      processBounce S1_env 1 100 dsn_message (parseBounce dsn_message) world_before
      = (Ok tt, w')
      /\ map (fun b => (b_email b, b_failure_count b)) (email_bounces (db w'))
         = [("alice@example.com", 1)]
      /\ List.length (email_bounce_events (db w')) = 1)
  /\ (exists w',
         processBounce S1_env 1 100 dsn_message (parseBounce dsn_message)
           (after_cycle S1_env 1 world_before)
         = (Ok tt, w')
         /\ map (fun b => (b_email b, b_failure_count b)) (email_bounces (db w'))
            = [("alice@example.com", 2)]
         /\ List.length (email_bounce_events (db w')) = 2).
Proof.
  split.
  - destruct (proj1 (X21_processBounce_counts S1_env 1 100 dsn_message
                       (parseBounce dsn_message) "alice@example.com" world_before
                       rpc_is_up dsn_recipient (NoDup_nil _)) eq_refl)
      as [w' [t [t' [E [Hb He]]]]].
    exists w'. split; [exact E|]. rewrite Hb, He. split; reflexivity.
  - destruct alice_once as [H1 [H2 [H3 H4]]].
    destruct (proj2 (X21_processBounce_counts S1_env 1 100 dsn_message
                       (parseBounce dsn_message) "alice@example.com"
                       (after_cycle S1_env 1 world_before) rpc_is_up dsn_recipient H2)
                alice_aggregate H1)
      as [w' [t [t' [E [Hb He]]]]].
    exists w'. split; [exact E|]. rewrite Hb, He, H3, length_app, H4.
    split; reflexivity.
Defined.


Lemma X23_emailSync_runs_every_active_mailbox_witness :
  emailSync S1_env (fun _ => ret tt) "enhanced" Succeeds two_mailboxes
  = (Ok tt, cycles S1_env [inbox_owner] two_mailboxes)
  /\ emailSync S1_env (fun _ => ret tt) "enhanced" (Fails "timeout") two_mailboxes
     = (Ok tt, two_mailboxes)
  /\ emailSync S1_env (fun _ => ret tt) "enhanced" (Rejects "fetch failed") two_mailboxes
     = (Ok tt, two_mailboxes).
Proof.
  destruct (X23_emailSync_runs_every_active_mailbox S1_env (fun _ => ret tt) "enhanced"
              two_mailboxes eq_refl eq_refl) as [H1 [H2 H3]].
  split; [exact H1|]. split; [apply H2 | apply H3].
Defined.

Lemma X24_emailSync_leaves_inactive_mailboxes_witness :
  In paused_mailbox
     (mailboxes (db (snd (emailSync S1_env (fun _ => ret tt) "enhanced" Succeeds
                            two_mailboxes)))).
Proof.
  apply (X24_emailSync_leaves_inactive_mailboxes S1_env (fun _ => ret tt) "enhanced" Succeeds
           two_mailboxes paused_mailbox); try reflexivity.
  - vm_compute. constructor; [intros [H|[]]; discriminate H|].
    constructor; [intros [] | constructor].
  - right. now left.
  - discriminate.
Defined.

Lemma X25_fetched_mail_is_threaded_by_subject_witness :
  no_reply_headers (thread_input (parsedMessage 0 (mail 12 "") plan_mail) 0)
  /\ exists thread,
       In thread
          (email_threads
             (db (snd (findOrCreateThread S1_env 1 100
                         (thread_input (parsedMessage 0 (mail 12 "") plan_mail) 0)
                         world_before))))
       /\ t_id thread = 1000 /\ t_mailbox_id thread = 1
       /\ t_normalized_subject thread = normalizeSubject (p_subject plan_mail).
Proof.
  apply (X25_fetched_mail_is_threaded_by_subject S1_env 0 (mail 12 "") plan_mail 1 100 0
           world_before).
  vm_compute. reflexivity.
Defined.

Lemma X26_processMessage_stores_email_witness :
  exists w' row threadId,
    processMessage S1_env inbox_owner dsn_message world_before = (Ok tt, w')
    /\ emails (db w') = emails (db world_before) ++ [row]
    /\ e_mailbox_id row = 1 /\ e_user_id row = 100
    /\ e_uid row = 10%Z
    /\ e_message_id row = "<dsn10@example.net>"
    /\ e_subject row = "Undelivered Mail Returned to Sender"
    /\ (e_from_address row, e_from_name row)
       = ("mailer-daemon@example.net", "Mail Delivery System")
    /\ (e_category row, e_category_confidence row) = (BOUNCE, 100)
    /\ e_body_preview row = extractPreview dsn_body
    /\ e_is_read row = false
    /\ e_thread_id row = Some threadId.
Proof.
  apply (X26_processMessage_stores_email S1_env store_is_up inbox_owner dsn_message
           world_before).
  intros row [].
Defined.

Lemma X27_checkpoint_never_moves_back_witness :
  advanced (mailboxes (db two_mailboxes))
           (mailboxes (db (snd (processMailbox S1_env 1 two_mailboxes)))).
Proof.
  apply (X27_checkpoint_never_moves_back S1_env 1 two_mailboxes).
  vm_compute. constructor; [intros [H|[]]; discriminate H|].
  constructor; [intros [] | constructor].
Defined.

Lemma X28_fetch_returns_first_parsed_witness :
  fetchNewMessages (mkProcessEnv None None) (serving three_mails) (mkDate 2026 2 5) 0
    true 9 (mkFetchOptions (Some 2%Z) None)
  = Ok (firstn 2 (parsed_of 0 three_mails))
  /\ fetchNewMessages (mkProcessEnv (Some (-1)%Z) None) (serving three_mails)
       (mkDate 2026 2 5) 0 true 9 noOptions
     = Ok [].
Proof.
  split.
  - apply (X28_fetch_returns_first_parsed (mkProcessEnv None None) (serving three_mails)
             (mkDate 2026 2 5) 0 9 (mkFetchOptions (Some 2%Z) None) three_mails);
      reflexivity.
  - apply (X28_fetch_returns_first_parsed (mkProcessEnv (Some (-1)%Z) None)
             (serving three_mails) (mkDate 2026 2 5) 0 9 noOptions three_mails);
      try reflexivity.
    vm_compute. discriminate.
Defined.

Lemma X29_markThreadAsRead_is_overridden_witness :
  (exists w1,
      markThreadAsRead S1_env 1000 true (after_cycle S1_env 1 world_before) = (Ok tt, w1)
      /\ map t_is_unread (email_threads (db w1)) = [false])
  /\ map t_is_unread
         (email_threads
            (db (snd ((markThreadAsRead S1_env 1000 true;; updateThreadStats S1_env 1000)
                        (after_cycle S1_env 1 world_before)))))
     = [true].
Proof.
  destruct (X29_markThreadAsRead_is_overridden S1_env 1000 true
              (after_cycle S1_env 1 world_before) eq_refl eq_refl eq_refl)
    as [[w1 [E [_ Ht]]] H].
  split.
  - exists w1. split; [exact E|]. rewrite Ht. vm_compute. reflexivity.
  - rewrite H by (vm_compute; discriminate). vm_compute. reflexivity.
Defined.
